(** * rnn_static_graph: a recursive neural network run as a static graph

    A shallow embedding of [assignment3_tf2/rnn_static_graph.py]: the tree
    flattener [build_feed_dict], the TensorArray loop that fills the node
    embedding table, the projection and loss layers, and the epoch loop of
    [train].

    Floating-point arithmetic is kept behind the interface [FloatOps]: every
    statement below holds for any implementation of the scalar operations,
    and the instance on binary64 floats is used to run the model on concrete
    inputs. *)

From Stdlib Require Import ZArith Ascii Floats.PrimFloat Numbers.Cyclic.Int63.Uint63.
From stdpp Require Import gmap strings list.

Local Open Scope Z_scope.
#[local] Set Warnings "-inexact-float".

(** ** Exceptions *)

(** What Python or the TensorFlow runtime raises.  [OpError] stands for
    whichever [tf.errors.OpError] the restore op raises on files that are not
    a checkpoint as [Saver.save] writes it ([NotFoundError], [DataLossError]):
    the program does not tell them apart.  [FuelExhausted] belongs to the
    model only: it is what a [while_loop] returns when its iteration budget
    is used up, and [tensor_array_fuel] shows the graph never does. *)
Inductive exn :=
| KeyError
| IndexError
| ValueError
| FileNotFoundError
| SameFileError
| InvalidArgumentError
| UnimplementedError
| OpError
| FuelExhausted.

Inductive result (X : Type) :=
| Ok (x : X)
| Raise (e : exn).
Arguments Ok {X} x.
Arguments Raise {X} e.

#[global] Instance result_ret : MRet result := fun _ x => Ok x.
#[global] Instance result_bind : MBind result := fun _ _ f m =>
  match m with Ok x => f x | Raise e => Raise e end.
#[global] Instance result_fmap : FMap result := fun _ _ f m =>
  match m with Ok x => Ok (f x) | Raise e => Raise e end.

#[global] Instance exn_eq_dec : EqDecision exn.
Proof. solve_decision. Defined.

Definition is_Ok {X} (m : result X) : Prop := ∃ x, m = Ok x.

Definition is_Ok_b {X} (m : result X) : bool :=
  match m with Ok _ => true | Raise _ => false end.

Definition from_result {X} (d : X) (m : result X) : X :=
  match m with Ok x => x | Raise _ => d end.

(** [for x in xs: acc = f(acc, x)], stopping at the first exception. *)
Fixpoint foldM {X Y} (f : Y → X → result Y) (acc : Y) (xs : list X) : result Y :=
  match xs with
  | [] => Ok acc
  | x :: xs' => acc' ← f acc x; foldM f acc' xs'
  end.

(** A list comprehension whose element expression may raise. *)
Fixpoint mapM_result {X Y} (f : X → result Y) (xs : list X) : result (list Y) :=
  match xs with
  | [] => Ok []
  | x :: xs' => y ← f x; ys ← mapM_result f xs'; Ok (y :: ys)
  end.

(** ** Scalars *)

(** The scalar operations of the numeric executor.  [f_softmax_xent logits y]
    is the kernel behind [tf.nn.sparse_softmax_cross_entropy_with_logits] on
    one row of logits and one label; what it does with a label outside the
    class range (an error on CPU, NaN on GPU) is the kernel's business. *)
Class FloatOps (A : Type) := {
  f_of_Z : Z → A;
  f_inf : A;
  f_add : A → A → A;
  f_sub : A → A → A;
  f_mul : A → A → A;
  f_div : A → A → A;
  f_max : A → A → A;
  f_lt : A → A → bool;
  f_softmax_xent : list A → Z → result A
}.

(** ** The [tree] module *)

Module tree.

#[local] Unset Elimination Schemes.

(** Modelled from the spec: [tree.Node], which is not among the sources.  A
    ParseNode has [isLeaf], [word] (a token, or nothing for an internal
    node), [left] and [right] children and a small integer [label].  The
    children are Python references, so either may be [None].  [oid] is the
    identity of the Python object: [build_feed_dict] uses nodes as dictionary
    keys, and a class without [__hash__] is hashed by identity.  The
    recursion goes through [option]; the induction principle for it is
    [Node_induction] below. *)
Inductive Node := mkNode {
  oid : positive;
  isLeaf : bool;
  word : option string;
  label : Z;
  left : option Node;
  right : option Node
}.

#[local] Set Elimination Schemes.

(** Modelled from the spec: [tree.leftTraverse], which is not among the
    sources.  The spec has the flattener visit the tree child before parent
    (post-order); the call site gives the signature: a callback applied to
    each node and an accumulator.  [leftTraverse None] returns at once. *)
Fixpoint leftTraverse_obj {S} (node : Node) (nodeFn : Node → S → S) (args : S) : S :=
  match node with
  | mkNode _ _ _ _ l r =>
      let args1 := match l with Some n => leftTraverse_obj n nodeFn args | None => args end in
      let args2 := match r with Some n => leftTraverse_obj n nodeFn args1 | None => args1 end in
      nodeFn node args2
  end.

(** Modelled from the spec: [tree.leftTraverse] on a reference that may be
    [None]; this is the function [build_feed_dict] calls. *)
Definition leftTraverse {S} (node : option Node) (nodeFn : Node → S → S) (args : S) : S :=
  match node with
  | None => args
  | Some n => leftTraverse_obj n nodeFn args
  end.

(** The object identities reachable from a node, in traversal order. *)
Fixpoint oids (node : Node) : list positive :=
  match node with
  | mkNode o _ _ _ l r =>
      match l with Some n => oids n | None => [] end ++
      match r with Some n => oids n | None => [] end ++ [o]
  end.

(** A parse tree: every node is owned by exactly one parent, so no object is
    reached twice. *)
Definition tree_shaped (node : Node) : Prop := NoDup (oids node).

(** Every node not flagged as a leaf has both children. *)
Fixpoint complete (node : Node) : bool :=
  match node with
  | mkNode _ lf _ _ l r =>
      (lf || (bool_decide (is_Some l) && bool_decide (is_Some r)))
      && match l with Some n => complete n | None => true end
      && match r with Some n => complete n | None => true end
  end.

#[local] Unset Elimination Schemes.

(** The same tree with every object identity forgotten. *)
Inductive shape :=
| Shape (lf : bool) (w : option string) (lbl : Z) (l r : option shape).
#[local] Set Elimination Schemes.

(** The shape of a tree. *)
Fixpoint erase (node : Node) : shape :=
  match node with
  | mkNode _ lf w lbl l r =>
      Shape lf w lbl
        (match l with Some n => Some (erase n) | None => None end)
        (match r with Some n => Some (erase n) | None => None end)
  end.

(** Modelled from the spec: [tree.Tree], which is not among the sources: a
    parse tree held by its root. *)
Record Tree := mkTree { root : Node }.

(** Modelled from the spec: [Tree.get_words], which is not among the
    sources: the tokens the vocabulary is built from, the words of the leaves
    in traversal order. *)
Definition get_words (t : Tree) : list string :=
  leftTraverse (Some (root t))
    (λ node args, match isLeaf node, word node with
                  | true, Some w => args ++ [w]
                  | _, _ => args
                  end) [].

End tree.

(** ** The [utils] module *)

Module utils.

(** Modelled from the spec: [utils.Vocab], which is not among the sources.
    It "maps tokens to integer ids"; [construct(tokens)] builds it and
    [encode(token)] "must return a defined id, e.g. an unknown sentinel, for
    out-of-vocabulary tokens".  Ids are handed out in order of first
    appearance, after the slot of the unknown token. *)
Record Vocab := mkVocab {
  word_to_index : gmap string nat;
  unknown : string
}.

(** Modelled from the spec: a fresh [Vocab()], holding the unknown token
    alone. *)
Definition empty_Vocab : Vocab :=
  {| word_to_index := {[ "<unk>"%string := 0%nat ]}; unknown := "<unk>" |}.

(** Modelled from the spec: the step of [construct] for one token; a token
    seen before keeps its id, a new one takes the next free id. *)
Definition add_word (v : Vocab) (w : string) : Vocab :=
  match word_to_index v !! w with
  | Some _ => v
  | None => {| word_to_index := <[w := size (word_to_index v)]> (word_to_index v);
               unknown := unknown v |}
  end.

(** Modelled from the spec: [construct(tokens)]. *)
Definition construct (words : list string) : Vocab :=
  fold_left add_word words empty_Vocab.

(** Modelled from the spec: [len(vocab)], the number of rows of the embedding
    matrix ("vocab_size x embed_size"). *)
Definition len (v : Vocab) : nat := size (word_to_index v).

(** Modelled from the spec: [encode(token)], "a defined id, e.g. an unknown
    sentinel, for out-of-vocabulary tokens". *)
Definition encode (v : Vocab) (w : string) : nat :=
  match word_to_index v !! w with
  | Some i => i
  | None => default 0%nat (word_to_index v !! unknown v)
  end.

End utils.

(** ** TensorFlow operations *)

(** Rank-2 tensors as lists of rows.  The variables have the shapes given to
    [get_variable] and every table entry is one row of [embed_size] scalars
    ([tensor_array_shapes]), so the shape errors of [concat], [matmul] and
    [+] are out of reach and the list functions are left unchecked. *)
Abbreviation tensor A := (list (list A)) (only parsing).

(** [tf.TensorArray(size=0, dynamic_size=True, clear_after_read=False)]: a
    growable sequence of slots, each written at most once. *)
Abbreviation TensorArray A := (list (option (list (list A)))) (only parsing).

Module tf.
Section ops.
Context {A : Type} `{FloatOps A}.

(** [tf.gather] with a scalar index, on the CPU kernel: an index outside
    the first dimension is an error.  [embed_word] pins its gather to the
    CPU; the other gathers of the graph read the feed at positions that exist
    whenever the five arrays of the feed have one length. *)
Definition gather {X} (params : list X) (i : Z) : result X :=
  if bool_decide (0 ≤ i) then
    match params !! Z.to_nat i with
    | Some x => Ok x
    | None => Raise InvalidArgumentError
    end
  else Raise InvalidArgumentError.

Definition expand_dims0 (v : list A) : tensor A := [v].

(** [tf.concat([l, r], 1)]: row by row, the left row then the right row. *)
Definition concat1 (l r : tensor A) : tensor A := zip_with app l r.

Definition reduce_sum (xs : list A) : A := foldr f_add (f_of_Z 0) xs.

Definition dot (u v : list A) : A := reduce_sum (zip_with f_mul u v).

Definition ncols (m : tensor A) : nat :=
  match m with [] => 0%nat | r :: _ => length r end.

Definition column (j : nat) (m : tensor A) : list A :=
  (λ row, default (f_of_Z 0) (row !! j)) <$> m.

Definition matmul (a b : tensor A) : tensor A :=
  (λ row, (λ j, dot row (column j b)) <$> seq 0 (ncols b)) <$> a.

(** [x + y] with a one-row operand broadcast over the rows of the other. *)
Definition add (x y : tensor A) : tensor A :=
  match y with
  | [b] => (λ r, zip_with f_add r b) <$> x
  | _ =>
      match x with
      | [a] => (λ r, zip_with f_add a r) <$> y
      | _ => zip_with (zip_with f_add) x y
      end
  end.

Definition relu (x : tensor A) : tensor A :=
  (λ row : list A, (λ v, f_max v (f_of_Z 0)) <$> row) <$> x.

(** [tf.nn.l2_loss(t)] is [sum(t ** 2) / 2]. *)
Definition l2_loss (t : tensor A) : A :=
  f_div (reduce_sum ((λ v, f_mul v v) <$> List.concat t)) (f_of_Z 2).

(** Index of the first largest entry of a row. *)
Fixpoint argmax_from (best : nat) (bv : A) (i : nat) (row : list A) : nat :=
  match row with
  | [] => best
  | v :: row' =>
      if f_lt bv v then argmax_from i v (S i) row' else argmax_from best bv (S i) row'
  end.

Definition argmax_row (row : list A) : nat :=
  match row with
  | [] => 0%nat
  | v :: row' => argmax_from 0 v 1 row'
  end.

(** [tf.argmax(input, axis=1)]. *)
Definition argmax1 (t : tensor A) : list Z := (λ row, Z.of_nat (argmax_row row)) <$> t.

(** [tf.squeeze] of a vector holding one entry is that entry.  A vector of
    any other length stays a vector, which is no prediction to compare with
    a label; the root entry has one row, and the other case is reported as
    an error. *)
Definition squeeze {X} (v : list X) : result X :=
  match v with [x] => Ok x | _ => Raise InvalidArgumentError end.

Definition less (xs : list Z) (bound : Z) : list bool :=
  (λ x, bool_decide (x < bound)) <$> xs.

(** [tf.where(mask)]: the positions holding [True], in order. *)
Definition where_ (mask : list bool) : list nat :=
  filter (λ i, mask !! i = Some true) (seq 0 (length mask)).

(** One loss per row of logits; the first dimensions must agree. *)
Definition sparse_softmax_cross_entropy_with_logits
    (logits : tensor A) (labels : list Z) : result (list A) :=
  if bool_decide (length logits = length labels) then
    mapM_result (λ zy, f_softmax_xent zy.1 zy.2) (zip logits labels)
  else Raise InvalidArgumentError.

(** *** TensorArray *)

Definition TensorArray_new : TensorArray A := [].

Definition size (ta : TensorArray A) : Z := Z.of_nat (length ta).

Definition read (ta : TensorArray A) (i : Z) : result (tensor A) :=
  if bool_decide (0 ≤ i) then
    match ta !! Z.to_nat i with
    | Some (Some t) => Ok t
    | _ => Raise InvalidArgumentError
    end
  else Raise InvalidArgumentError.

Definition write (ta : TensorArray A) (i : nat) (t : tensor A) : result (TensorArray A) :=
  match ta !! i with
  | Some (Some _) => Raise InvalidArgumentError
  | Some None => Ok (<[i := Some t]> ta)
  | None => Ok (ta ++ replicate (i - length ta) None ++ [Some t])
  end.

(** [TensorArray.concat()]: the entries joined along the first axis.  With
    no entry there is no element shape to build the result from
    ([infer_shape=False]), which the kernel reports as unimplemented. *)
Definition TensorArray_concat (ta : TensorArray A) : result (tensor A) :=
  match ta with
  | [] => Raise UnimplementedError
  | _ => (λ ts, List.concat ts) <$> mapM_result
           (λ slot, match slot with Some t => Ok t | None => Raise InvalidArgumentError end) ta
  end.

(** [tf.while_loop(cond, body, loop_vars)].  The loop of the graph has no
    bound of its own; [fuel] is the number of iterations the model allows. *)
Fixpoint while_loop {S} (fuel : nat) (cond : S → bool) (body : S → result S)
    (vars : S) : result S :=
  match fuel with
  | O => if cond vars then Raise FuelExhausted else Ok vars
  | Datatypes.S fuel' =>
      if cond vars then vars' ← body vars; while_loop fuel' cond body vars'
      else Ok vars
  end.

End ops.
End tf.

(** ** Configuration, variables and feeds *)

(** The values the five placeholders hold for one tree.  The four integer
    placeholders are [tf.int32] tensors: their entries are numbers from
    [-2^31] to [2^31 - 1] ([int32]).  The conversion of a Python list to such
    a tensor, which wraps a larger number around, is not part of the model:
    the positions and word ids [build_feed_dict] produces are far below the
    bound, and a statement that depends on the value of a label bounds it. *)
Record FeedDict := mkFeedDict {
  is_leaf_placeholder : list bool;
  left_children_placeholder : list Z;
  right_children_placeholder : list Z;
  node_word_indices_placeholder : list Z;
  labels_placeholder : list Z
}.

#[global] Instance FeedDict_eq_dec : EqDecision FeedDict.
Proof. solve_decision. Defined.

(** The values of a [tf.int32] tensor. *)
Definition int32 (z : Z) : Prop := - 2 ^ 31 ≤ z < 2 ^ 31.

(** [class Config].  [model_name] is formatted once, from the class
    attributes, when the class body runs. *)
Record Config (A : Type) := mkConfig {
  embed_size : nat;
  label_size : nat;
  early_stopping : Z;
  anneal_threshold : A;
  anneal_by : A;
  max_epochs : nat;
  lr : A;
  l2 : A;
  model_name : string
}.
Arguments mkConfig {A}.
Arguments embed_size {A}.
Arguments label_size {A}.
Arguments early_stopping {A}.
Arguments anneal_threshold {A}.
Arguments anneal_by {A}.
Arguments max_epochs {A}.
Arguments lr {A}.
Arguments l2 {A}.
Arguments model_name {A}.

(** [self.config.lr = v]. *)
Definition set_lr {A} (c : Config A) (v : A) : Config A :=
  mkConfig (embed_size c) (label_size c) (early_stopping c) (anneal_threshold c)
    (anneal_by c) (max_epochs c) v (l2 c) (model_name c).

(** The values of the five trainable variables in a session. *)
Record Params (A : Type) := mkParams {
  embeddings : tensor A;
  W1 : tensor A;
  b1 : tensor A;
  U : tensor A;
  bs : tensor A
}.
Arguments mkParams {A}.
Arguments embeddings {A}.
Arguments W1 {A}.
Arguments b1 {A}.
Arguments U {A}.
Arguments bs {A}.

Definition has_shape {A} (rows cols : nat) (t : tensor A) : Prop :=
  length t = rows ∧ Forall (λ r, length r = cols) t.

(** The shapes passed to [get_variable] in [__init__]. *)
Definition declared_shapes {A} (c : Config A) (v : utils.Vocab) (p : Params A) : Prop :=
  has_shape (utils.len v) (embed_size c) (embeddings p) ∧
  has_shape (2 * embed_size c) (embed_size c) (W1 p) ∧
  has_shape 1 (embed_size c) (b1 p) ∧
  has_shape (embed_size c) (label_size c) (U p) ∧
  has_shape 1 (label_size c) (bs p).

(** ** The graph built by [__init__] *)

(** Each tensor of the graph is a function of the variable values and of the
    feed: what [sess.run] returns when asked for it.  Only the fetched tensor
    and what it depends on is evaluated. *)
Module graph.
Section graph.
Context {A : Type} `{FloatOps A}.
Variable p : Params A.
Variable fd : FeedDict.

Definition embed_word (word_index : Z) : result (tensor A) :=
  row ← tf.gather (embeddings p) word_index;
  Ok (tf.expand_dims0 row).

Definition combine_children (left_tensor right_tensor : tensor A) : tensor A :=
  tf.relu (tf.add (tf.matmul (tf.concat1 left_tensor right_tensor) (W1 p)) (b1 p)).

(** [tf.cond] runs the branch selected by [node_is_leaf] and only that one. *)
Definition loop_body (vars : TensorArray A * nat) : result (TensorArray A * nat) :=
  let '(tensor_array, i) := vars in
  node_is_leaf ← tf.gather (is_leaf_placeholder fd) (Z.of_nat i);
  node_word_index ← tf.gather (node_word_indices_placeholder fd) (Z.of_nat i);
  left_child ← tf.gather (left_children_placeholder fd) (Z.of_nat i);
  right_child ← tf.gather (right_children_placeholder fd) (Z.of_nat i);
  node_tensor ←
    (if node_is_leaf : bool then embed_word node_word_index
     else
       l ← tf.read tensor_array left_child;
       r ← tf.read tensor_array right_child;
       Ok (combine_children l r));
  tensor_array' ← tf.write tensor_array i node_tensor;
  Ok (tensor_array', S i).

Definition loop_cond (vars : TensorArray A * nat) : bool :=
  bool_decide (vars.2 < length (is_leaf_placeholder fd))%nat.

(** [self.tensor_array]: the table after the loop.  One iteration per node is
    all the loop can make, and the model allows that many. *)
Definition tensor_array : result (TensorArray A) :=
  fst <$> tf.while_loop (length (is_leaf_placeholder fd)) loop_cond loop_body
            (tf.TensorArray_new, 0%nat).

Definition logits : result (tensor A) :=
  ta ← tensor_array;
  table ← tf.TensorArray_concat ta;
  Ok (tf.add (tf.matmul table (U p)) (bs p)).

Definition root_logits : result (tensor A) :=
  ta ← tensor_array;
  root ← tf.read ta (tf.size ta - 1);
  Ok (tf.add (tf.matmul root (U p)) (bs p)).

Definition root_prediction : result Z :=
  rl ← root_logits;
  tf.squeeze (tf.argmax1 rl).

(** [l2] is [self.config.l2] as it is when the graph is built. *)
Definition regularization_loss (l2 : A) : A :=
  f_mul l2 (f_add (tf.l2_loss (W1 p)) (tf.l2_loss (U p))).

Definition included_indices : list nat :=
  tf.where_ (tf.less (labels_placeholder fd) 2).

Definition full_loss (l2 : A) : result A :=
  lg ← logits;
  zs ← mapM_result (λ i, tf.gather lg (Z.of_nat i)) included_indices;
  ys ← mapM_result (λ i, tf.gather (labels_placeholder fd) (Z.of_nat i)) included_indices;
  losses ← tf.sparse_softmax_cross_entropy_with_logits zs ys;
  Ok (f_add (regularization_loss l2) (tf.reduce_sum losses)).

(** [labels[-1:]] is the last label, or nothing when there is none. *)
Definition root_loss : result A :=
  rl ← root_logits;
  losses ← tf.sparse_softmax_cross_entropy_with_logits rl
              (drop (length (labels_placeholder fd) - 1) (labels_placeholder fd));
  Ok (tf.reduce_sum losses).

End graph.
End graph.

(** ** The class [RecursiveNetStaticGraph] *)

(** The attributes of [self].  The graph tensors are built once, by
    [__init__]; [sess.run] evaluates them on the variables of the session and
    a feed. *)
Record RecursiveNetStaticGraph (A : Type) := mkModel {
  config : Config A;
  train_data : list tree.Tree;
  dev_data : list tree.Tree;
  test_data : list tree.Tree;
  vocab : utils.Vocab;
  root_prediction : Params A → FeedDict → result Z;
  full_loss : Params A → FeedDict → result A;
  root_loss : Params A → FeedDict → result A;
  train_op : Params A → FeedDict → result (Params A)
}.
Arguments mkModel {A}.
Arguments config {A}.
Arguments train_data {A}.
Arguments dev_data {A}.
Arguments test_data {A}.
Arguments vocab {A}.
Arguments root_prediction {A}.
Arguments full_loss {A}.
Arguments root_loss {A}.
Arguments train_op {A}.

Definition set_config {A} (self : RecursiveNetStaticGraph A) (c : Config A) :=
  mkModel c (train_data self) (dev_data self) (test_data self) (vocab self)
    (root_prediction self) (full_loss self) (root_loss self) (train_op self).

Definition set_train_data {A} (self : RecursiveNetStaticGraph A) (d : list tree.Tree) :=
  mkModel (config self) d (dev_data self) (test_data self) (vocab self)
    (root_prediction self) (full_loss self) (root_loss self) (train_op self).

(** What the model takes from its environment without looking inside:
    reverse-mode differentiation of a loss tensor with respect to the
    variables, the variable initialisers and [random.shuffle].  The last two
    draw on generators; the model numbers the draws. *)
Class Runtime (A : Type) := {
  tf_gradients : (Params A → FeedDict → result A) → Params A → FeedDict → result (Params A);
  initialize_all_variables : nat → Params A;
  random_shuffle : nat → list tree.Tree → list tree.Tree
}.

(** What a file holds.  [Saver.save(sess, prefix)] writes the values of the
    variables to [prefix.data-00000-of-00001], their index to [prefix.index],
    the graph to [prefix.meta] and the name of the latest checkpoint to the
    file [checkpoint] of the directory of [prefix]. *)
Inductive file (A : Type) :=
| Data (sess : Params A)
| Index
| MetaGraph
| CheckpointState (latest : string).
Arguments Data {A} sess.
Arguments Index {A}.
Arguments MetaGraph {A}.
Arguments CheckpointState {A} latest.

(** The files, by path, and the number of random draws made so far.
    Directories are not modelled: the directory of a path is taken to exist,
    as [SAVE_DIR] does once [os.makedirs] has run.  A path names the file
    spelled that way and no other: the model has no links, and no path with
    the characters the checkpoint reader takes for a pattern. *)
Record World (A : Type) := mkWorld {
  clock : nat;
  files : gmap string (file A)
}.
Arguments mkWorld {A}.
Arguments clock {A}.
Arguments files {A}.

(** *** Paths *)

Fixpoint last_char (s : string) : option ascii :=
  match s with
  | EmptyString => None
  | String c EmptyString => Some c
  | String _ s' => last_char s'
  end.

Fixpoint has_slash (s : string) : bool :=
  match s with
  | EmptyString => false
  | String c s' => bool_decide (c = "/"%char) || has_slash s'
  end.

Fixpoint all_slashes (s : string) : bool :=
  match s with
  | EmptyString => true
  | String c s' => bool_decide (c = "/"%char) && all_slashes s'
  end.

(** [p[:p.rfind('/') + 1]]. *)
Fixpoint dirname_head (p : string) : string :=
  match p with
  | EmptyString => EmptyString
  | String c p' => if has_slash p then String c (dirname_head p') else EmptyString
  end.

(** [s.rstrip('/')]. *)
Fixpoint rstrip_slashes (s : string) : string :=
  match s with
  | EmptyString => EmptyString
  | String c s' => if all_slashes s then EmptyString else String c (rstrip_slashes s')
  end.

(** [os.path.dirname]. *)
Definition dirname (p : string) : string :=
  let head := dirname_head p in
  if all_slashes head then head else rstrip_slashes head.

Definition starts_with_slash (s : string) : bool :=
  match s with
  | EmptyString => false
  | String c _ => bool_decide (c = "/"%char)
  end.

(** [os.path.join(a, b)]. *)
Definition path_join (a b : string) : string :=
  if starts_with_slash b then b
  else if bool_decide (last_char a = None ∨ last_char a = Some "/"%char) then a +:+ b
  else a +:+ "/" +:+ b.

(** The files of the checkpoint with prefix [prefix]. *)
Definition index_path (prefix : string) : string := prefix +:+ ".index".

Definition data_path (prefix : string) : string := prefix +:+ ".data-00000-of-00001".

Definition meta_path (prefix : string) : string := prefix +:+ ".meta".

Definition checkpoint_state_path (prefix : string) : string :=
  path_join (dirname prefix) "checkpoint".

(** The files [Saver.save] writes for [prefix]. *)
Definition checkpoint_files (prefix : string) : list string :=
  [data_path prefix; index_path prefix; checkpoint_state_path prefix; meta_path prefix].

(** The local variables of [train]. *)
Record TrainVars (A : Type) := mkTrainVars {
  complete_loss_history : list A;
  train_acc_history : list A;
  val_acc_history : list A;
  prev_epoch_loss : A;
  best_val_loss : A;
  best_val_epoch : nat;
  stopped : Z
}.
Arguments mkTrainVars {A}.
Arguments complete_loss_history {A}.
Arguments train_acc_history {A}.
Arguments val_acc_history {A}.
Arguments prev_epoch_loss {A}.
Arguments best_val_loss {A}.
Arguments best_val_epoch {A}.
Arguments stopped {A}.

Definition SAVE_DIR : string := "./weights/".

Section RecursiveNetStaticGraph.
Context {A : Type} `{FloatOps A} `{Runtime A}.

(** *** The optimizer *)

(** The update of [GradientDescentOptimizer]: [var -= learning_rate * grad]. *)
Definition apply_gradient_descent (learning_rate : A) (var grad : tensor A) : tensor A :=
  zip_with (zip_with (λ v g, f_sub v (f_mul learning_rate g))) var grad.

(** [GradientDescentOptimizer(learning_rate).minimize(loss)]: the op that,
    when run, moves every variable against the gradient of [loss].
    [learning_rate] is the Python float handed to the constructor. *)
Definition GradientDescentOptimizer_minimize (learning_rate : A)
    (loss : Params A → FeedDict → result A) (p : Params A) (fd : FeedDict)
    : result (Params A) :=
  g ← tf_gradients loss p fd;
  Ok (mkParams
        (apply_gradient_descent learning_rate (embeddings p) (embeddings g))
        (apply_gradient_descent learning_rate (W1 p) (W1 g))
        (apply_gradient_descent learning_rate (b1 p) (b1 g))
        (apply_gradient_descent learning_rate (U p) (U g))
        (apply_gradient_descent learning_rate (bs p) (bs g))).

(** *** [__init__] *)

(** [data] is what [tree.simplified_data(700, 100, 200)] returned. *)
Definition __init__ (config : Config A)
    (data : list tree.Tree * list tree.Tree * list tree.Tree)
    : RecursiveNetStaticGraph A :=
  let '(train_data, dev_data, test_data) := data in
  let train_sents := tree.get_words <$> train_data in
  let vocab := utils.construct (List.concat train_sents) in
  mkModel config train_data dev_data test_data vocab
    (λ p fd, graph.root_prediction p fd)
    (λ p fd, graph.full_loss p fd (l2 config))
    (λ p fd, graph.root_loss p fd)
    (GradientDescentOptimizer_minimize (lr config)
       (λ p fd, graph.full_loss p fd (l2 config))).

(** *** [build_feed_dict] *)

Definition nodes_list_of (node : option tree.Node) : list tree.Node :=
  tree.leftTraverse node (λ node args, args ++ [node]) [].

(** [node_to_index[nodes_list[i]] = i] for [i] in [range(len(nodes_list))];
    the keys are the node objects. *)
Definition node_to_index_of (nodes_list : list tree.Node) : gmap positive nat :=
  fold_left
    (λ d i, match nodes_list !! i with
            | Some n => <[tree.oid n := i]> d
            | None => d
            end)
    (seq 0 (length nodes_list)) ∅.

(** [node_to_index[child]]: [None] is not a key, and neither is a node the
    traversal did not reach. *)
Definition node_to_index_get (node_to_index : gmap positive nat)
    (child : option tree.Node) : result Z :=
  match child with
  | Some c =>
      match node_to_index !! tree.oid c with
      | Some i => Ok (Z.of_nat i)
      | None => Raise KeyError
      end
  | None => Raise KeyError
  end.

(** A Python string is true when it is not empty; [None] is false. *)
Definition truthy (word : option string) : bool :=
  match word with
  | Some w => negb (bool_decide (w = ""%string))
  | None => false
  end.

Definition build_feed_dict (self : RecursiveNetStaticGraph A)
    (node : option tree.Node) : result FeedDict :=
  let nodes_list := nodes_list_of node in
  let node_to_index := node_to_index_of nodes_list in
  lefts ← mapM_result
    (λ node, if tree.isLeaf node then Ok (-1)
             else node_to_index_get node_to_index (tree.left node)) nodes_list;
  rights ← mapM_result
    (λ node, if tree.isLeaf node then Ok (-1)
             else node_to_index_get node_to_index (tree.right node)) nodes_list;
  Ok {| is_leaf_placeholder := tree.isLeaf <$> nodes_list;
        left_children_placeholder := lefts;
        right_children_placeholder := rights;
        node_word_indices_placeholder :=
          (λ node, if truthy (tree.word node)
                   then Z.of_nat (utils.encode (vocab self) (default ""%string (tree.word node)))
                   else -1) <$> nodes_list;
        labels_placeholder := tree.label <$> nodes_list |}.

(** *** Checkpoints *)

(** [Saver().save(sess, path)] for a [path] that is not itself the state file
    of its directory: the data and the index, then the state file, then the
    graph.  No file is written at [path]. *)
Definition Saver_save (w : World A) (path : string) (sess : Params A) : World A :=
  mkWorld (clock w)
    (<[meta_path path := MetaGraph]>
       (<[checkpoint_state_path path := CheckpointState path]>
          (<[index_path path := Index]>
             (<[data_path path := Data sess]> (files w))))).

(** [Saver().restore(sess, path)].  The method first asks for a file
    [path.index] or a file at [path] and raises [ValueError] when there is
    neither; the restore op then reads the index and the data. *)
Definition Saver_restore (w : World A) (path : string) : result (Params A) :=
  match files w !! index_path path with
  | Some Index =>
      match files w !! data_path path with
      | Some (Data sess) => Ok sess
      | _ => Raise OpError
      end
  | Some _ => Raise OpError
  | None =>
      match files w !! path with
      | Some _ => Raise OpError
      | None => Raise ValueError
      end
  end.

(** [shutil.copyfile(src, dst)]. *)
Definition copyfile (w : World A) (src dst : string) : result (World A) :=
  match files w !! src with
  | None => Raise FileNotFoundError
  | Some content =>
      if bool_decide (src = dst) then Raise SameFileError
      else Ok (mkWorld (clock w) (<[dst := content]> (files w)))
  end.

Definition temp_path (self : RecursiveNetStaticGraph A) : string :=
  SAVE_DIR +:+ model_name (config self) +:+ ".temp".

Definition best_path (self : RecursiveNetStaticGraph A) : string :=
  SAVE_DIR +:+ model_name (config self).

(** *** [predict] *)

Definition predict (self : RecursiveNetStaticGraph A) (trees : list tree.Tree)
    (weights_path : string) (get_loss : bool) (w : World A)
    : result (list Z * list A) :=
  sess ← Saver_restore w weights_path;
  foldM
    (λ '(results, losses) t,
       feed_dict ← build_feed_dict self (Some (tree.root t));
       if get_loss then
         root_prediction ← root_prediction self sess feed_dict;
         loss ← root_loss self sess feed_dict;
         Ok (results ++ [root_prediction], losses ++ [loss])
       else
         root_prediction ← root_prediction self sess feed_dict;
         Ok (results ++ [root_prediction], losses))
    ([], []) trees.

(** *** [run_epoch] *)

Definition np_mean (xs : list A) : A :=
  f_div (tf.reduce_sum xs) (f_of_Z (Z.of_nat (length xs))).

(** [np.equal(preds, labels).mean()]. *)
Definition accuracy (preds labels : list Z) : A :=
  np_mean ((λ pl : Z * Z, f_of_Z (if bool_decide (pl.1 = pl.2) then 1 else 0))
             <$> zip preds labels).

(** [confmat[l, p] += 1] on a 2 by 2 array: an index below -2 or above 1 is
    an error, a negative one counts from the end. *)
Definition make_conf (labels predictions : list Z) : result (list (list Z)) :=
  foldM
    (λ confmat lp,
       let '(l, p) := lp in
       if bool_decide (-2 ≤ l < 2 ∧ -2 ≤ p < 2) then
         Ok (alter (alter Z.succ (Z.to_nat (p `mod` 2))) (Z.to_nat (l `mod` 2)) confmat)
       else Raise IndexError)
    [[0; 0]; [0; 0]] (zip labels predictions).

(** What [run_epoch] returns: [train_acc, val_acc, loss_history,
    np.mean(val_losses)]. *)
Record EpochResult := mkEpochResult {
  r_train_acc : A;
  r_val_acc : A;
  r_loss_history : list A;
  r_val_loss : A
}.

Definition run_epoch (self : RecursiveNetStaticGraph A) (new_model : bool)
    (w : World A) : result (EpochResult * RecursiveNetStaticGraph A * World A) :=
  let self := set_train_data self (random_shuffle (clock w) (train_data self)) in
  let w := mkWorld (S (clock w)) (files w) in
  '(sess, w) ←
    (if new_model then
       Ok (initialize_all_variables (clock w), mkWorld (S (clock w)) (files w))
     else sess ← Saver_restore w (temp_path self); Ok (sess, w));
  '(loss_history, sess) ←
    foldM
      (λ '(loss_history, sess) t,
         feed_dict ← build_feed_dict self (Some (tree.root t));
         loss_value ← full_loss self sess feed_dict;
         sess' ← train_op self sess feed_dict;
         Ok (loss_history ++ [loss_value], sess'))
      ([], sess) (train_data self);
  let w := Saver_save w (temp_path self) sess in
  '(train_preds, _) ← predict self (train_data self) (temp_path self) false w;
  '(val_preds, val_losses) ← predict self (dev_data self) (temp_path self) true w;
  let train_labels := (λ t, tree.label (tree.root t)) <$> train_data self in
  let val_labels := (λ t, tree.label (tree.root t)) <$> dev_data self in
  let train_acc := accuracy train_preds train_labels in
  let val_acc := accuracy val_preds val_labels in
  _ ← make_conf train_labels train_preds;
  _ ← make_conf val_labels val_preds;
  Ok (mkEpochResult train_acc val_acc loss_history (np_mean val_losses), self, w).

(** *** [train] *)

Definition train_init : TrainVars A :=
  mkTrainVars [] [] [] f_inf f_inf 0%nat (-1).

(** The body of [for epoch in range(self.config.max_epochs)]. *)
Definition train_body
    (st : RecursiveNetStaticGraph A * World A * TrainVars A) (epoch : nat)
    : result (RecursiveNetStaticGraph A * World A * TrainVars A) :=
  let '(self, w, v) := st in
  '(r, self, w) ← run_epoch self (bool_decide (epoch = 0%nat)) w;
  let complete_loss_history := complete_loss_history v ++ r_loss_history r in
  let train_acc_history := train_acc_history v ++ [r_train_acc r] in
  let val_acc_history := val_acc_history v ++ [r_val_acc r] in
  (* lr annealing *)
  let epoch_loss := np_mean (r_loss_history r) in
  let self :=
    if f_lt (f_mul (prev_epoch_loss v) (anneal_threshold (config self))) epoch_loss
    then set_config self
           (set_lr (config self) (f_div (lr (config self)) (anneal_by (config self))))
    else self in
  let prev_epoch_loss := epoch_loss in
  (* save if model has improved on val *)
  '(w, best_val_loss, best_val_epoch) ←
    (if f_lt (r_val_loss r) (best_val_loss v) then
       w' ← copyfile w (temp_path self) (best_path self);
       Ok (w', r_val_loss r, epoch)
     else Ok (w, best_val_loss v, best_val_epoch v));
  (* if model has not improved for a while stop *)
  let stopped :=
    if bool_decide (Z.of_nat epoch - Z.of_nat best_val_epoch > early_stopping (config self))
    then Z.of_nat epoch
    else stopped v in
  Ok (self, w,
      mkTrainVars complete_loss_history train_acc_history val_acc_history
        prev_epoch_loss best_val_loss best_val_epoch stopped).

(** The state after the first [n] epochs. *)
Definition train_loop (self : RecursiveNetStaticGraph A) (w : World A) (n : nat)
    : result (RecursiveNetStaticGraph A * World A * TrainVars A) :=
  foldM train_body (self, w, train_init) (seq 0 n).

(** [train] returns the three histories; the model also hands back [self],
    the files and the locals, [stopped] among them. *)
Definition train (self : RecursiveNetStaticGraph A) (w : World A)
    : result (RecursiveNetStaticGraph A * World A * TrainVars A) :=
  train_loop self w (max_epochs (config self)).

End RecursiveNetStaticGraph.

(** ** The flattening of a shape *)

(** What [build_feed_dict] computes, read off the shape of the tree alone:
    the position of a node in the traversal is the number of nodes visited
    before it, and no dictionary of objects is needed to find a child.
    [build_feed_dict_flatten] shows that the method agrees with it on every
    tree. *)
Module flat.

Fixpoint nodes (s : tree.shape) : list tree.shape :=
  match s with
  | tree.Shape _ _ _ l r =>
      match l with Some x => nodes x | None => [] end ++
      match r with Some x => nodes x | None => [] end ++ [s]
  end.

Definition is_leaf (s : tree.shape) : bool :=
  match s with tree.Shape lf _ _ _ _ => lf end.

Definition word (s : tree.shape) : option string :=
  match s with tree.Shape _ w _ _ _ => w end.

Definition label (s : tree.shape) : Z :=
  match s with tree.Shape _ _ lbl _ _ => lbl end.

(** The entry of each node for one side ([true] for the left child), for a
    subtree whose first node sits at position [off]. *)
Fixpoint child_indices (side : bool) (off : nat) (s : tree.shape) : list (result Z) :=
  match s with
  | tree.Shape lf _ _ l r =>
      let nl := match l with Some x => length (nodes x) | None => 0%nat end in
      let nr := match r with Some x => length (nodes x) | None => 0%nat end in
      match l with Some x => child_indices side off x | None => [] end ++
      match r with Some x => child_indices side (off + nl) x | None => [] end ++
      [ if lf then Ok (-1)
        else match (if side then l else r) with
             | Some _ => Ok (Z.of_nat (off + (if side then nl else nl + nr) - 1))
             | None => Raise KeyError
             end ]
  end.

Definition flatten (v : utils.Vocab) (s : tree.shape) : result FeedDict :=
  lefts ← mapM_result id (child_indices true 0 s);
  rights ← mapM_result id (child_indices false 0 s);
  Ok {| is_leaf_placeholder := is_leaf <$> nodes s;
        left_children_placeholder := lefts;
        right_children_placeholder := rights;
        node_word_indices_placeholder :=
          (λ x, if truthy (word x)
                then Z.of_nat (utils.encode v (default ""%string (word x)))
                else -1) <$> nodes s;
        labels_placeholder := label <$> nodes s |}.

End flat.

(** The nodes of a tree in the order [leftTraverse] visits them. *)
Fixpoint postorder (n : tree.Node) : list tree.Node :=
  match n with
  | tree.mkNode _ _ _ _ l r =>
      match l with Some x => postorder x | None => [] end ++
      match r with Some x => postorder x | None => [] end ++ [n]
  end.

(** The entry a node gets for one side ([true] for the left child), given the
    dictionary of positions: the element expression of the two child
    comprehensions of [build_feed_dict]. *)
Definition child_entry (d : gmap positive nat) (side : bool) (m : tree.Node) : result Z :=
  if tree.isLeaf m then Ok (-1)
  else node_to_index_get d (if side then tree.left m else tree.right m).

(** ** Binary64 scalars and a small model to run *)

Definition float_of_Z (z : Z) : float :=
  match z with
  | Z0 => PrimFloat.zero
  | Zpos _ => PrimFloat.of_uint63 (Uint63.of_Z z)
  | Zneg q => PrimFloat.opp (PrimFloat.of_uint63 (Uint63.of_Z (Zpos q)))
  end.

(** Binary64 has neither [exp] nor [log] among its primitive operations.  To
    run examples the kernel is taken with the log-sum-exp of the logits
    replaced by their maximum, and with the CPU behaviour on a label outside
    the classes.  No statement about the graph depends on this choice. *)
Definition float_xent (logits : list float) (label : Z) : result float :=
  z ← tf.gather logits label;
  Ok (PrimFloat.sub (foldr (λ a b, if PrimFloat.ltb a b then b else a) z logits) z).

#[global] Instance float_ops : FloatOps float := {|
  f_of_Z := float_of_Z;
  f_inf := PrimFloat.infinity;
  f_add := PrimFloat.add;
  f_sub := PrimFloat.sub;
  f_mul := PrimFloat.mul;
  f_div := PrimFloat.div;
  f_max := λ a b, if PrimFloat.ltb a b then b else a;
  f_lt := PrimFloat.ltb;
  f_softmax_xent := float_xent
|}.

(** [Config()] with the class attributes as written. *)
Definition Config_defaults : Config float :=
  mkConfig 35 2 2 0.99%float 1.5%float 30 0.01%float 0.02%float
    "rnn_embed=35_l2=0.020000_lr=0.010000.weights".

Module example.

Definition leaf (o : positive) (w : string) (lbl : Z) : tree.Node :=
  tree.mkNode o true (Some w) lbl None None.

Definition inner (o : positive) (lbl : Z) (l r : tree.Node) : tree.Node :=
  tree.mkNode o false None lbl (Some l) (Some r).

(** [(1 (0 a) (2 b))]: the right leaf carries the label left out of the loss. *)
Definition t_ab : tree.Node := inner 3 1 (leaf 1 "a" 0) (leaf 2 "b" 2).

(** [(1 x)]. *)
Definition t_x : tree.Node := leaf 1 "x" 1.

(** A leaf object that carries no word. *)
Definition t_noword : tree.Node := tree.mkNode 1 true None 1 None None.

(** A leaf whose word is not in the vocabulary. *)
Definition t_oov : tree.Node := leaf 1 "zzz" 1.

(** One leaf object held as the left child of two parents: not a tree. *)
Definition t_shared : tree.Node :=
  inner 5 1 (inner 3 1 (leaf 1 "a" 0) (leaf 2 "b" 0))
            (inner 4 1 (leaf 1 "a" 0) (leaf 6 "b" 0)).

Definition config : Config float :=
  mkConfig 2 2 2 0.99%float 1.5%float 5 0.001%float 0.02%float "example.weights".

(** Variables of the declared shapes for a vocabulary of four tokens
    ([<unk>], [a], [b], [x]) and [embed_size = label_size = 2]. *)
Definition params : Params float :=
  mkParams
    [[0.5; -0.5]; [1; 2]; [3; -1]; [-2; 4]]%float
    [[1; 0]; [0; 1]; [0; 0]; [0; 0]]%float
    [[0; 0]]%float
    [[1; -1]; [0; 2]]%float
    [[0; 0.5]]%float.

(** Differentiation is replaced by the gradient of half the squared norm of
    the variables, once the loss itself has been evaluated; the initialisers
    return [params] and [random.shuffle] reverses the list. *)
#[global] Instance runtime : Runtime float := {|
  tf_gradients := λ loss p fd, _ ← loss p fd; Ok p;
  initialize_all_variables := λ _, params;
  random_shuffle := λ _ ts, reverse ts
|}.

Definition data : list tree.Tree * list tree.Tree * list tree.Tree :=
  ([tree.mkTree t_ab; tree.mkTree t_x], [tree.mkTree t_x], []).

Definition self : RecursiveNetStaticGraph float := __init__ config data.

(** The same training trees and no validation tree: the mean of no
    validation loss is not a number, and is never below the best loss. *)
Definition data_nodev : list tree.Tree * list tree.Tree * list tree.Tree :=
  ([tree.mkTree t_ab; tree.mkTree t_x], [], []).

Definition self_nodev : RecursiveNetStaticGraph float := __init__ config data_nodev.

Definition world : World float := mkWorld 0 ∅.

(** The state of [train] on [self_nodev] before the first epoch and after
    each of the first ones. *)
Definition st0 : RecursiveNetStaticGraph float * World float * TrainVars float :=
  (self_nodev, world, train_init).

Definition st1 := from_result st0 (train_body st0 0).
Definition st2 := from_result st1 (train_body st1 1).
Definition st3 := from_result st2 (train_body st2 2).
Definition st4 := from_result st3 (train_body st3 3).

(** The state after two iterations of the loop of [train]. *)
Definition after2 := from_result st0 (train_loop self_nodev world 2).

(** What the first epoch on [self], with its validation tree, returns. *)
Definition epoch0 :=
  from_result (mkEpochResult 0%float 0%float [] 0%float, self, world)
    (run_epoch self true world).

(** The feeds of [t_ab], [t_x] and [t_noword]. *)
Definition fd_ab : FeedDict :=
  mkFeedDict [true; true; false] [-1; -1; 0] [-1; -1; 1] [1; 2; -1] [0; 2; 1].

Definition fd_x : FeedDict := mkFeedDict [true] [-1] [-1] [3] [1].

Definition fd_noword : FeedDict := mkFeedDict [true] [-1] [-1] [-1] [1].

(** A node not flagged as a leaf whose right child is missing. *)
Definition t_half : tree.Node :=
  tree.mkNode 3 false None 1 (Some (leaf 1 "a" 0)) None.

(** [(2 (0 a) (1 b))]: a root carrying the label left out of the full loss. *)
Definition t_root2 : tree.Node := inner 3 2 (leaf 1 "a" 0) (leaf 2 "b" 1).

Definition fd_root2 : FeedDict :=
  mkFeedDict [true; true; false] [-1; -1; 0] [-1; -1; 1] [1; 2; -1] [0; 1; 2].

End example.

(** ** Properties of a feed *)

(** Children before parents: a node that is not a leaf names two earlier
    positions, a leaf names none. *)
Definition ordering_invariant (fd : FeedDict) : Prop :=
  ∀ i lf, is_leaf_placeholder fd !! i = Some lf →
    ∃ l r : Z, left_children_placeholder fd !! i = Some l ∧
           right_children_placeholder fd !! i = Some r ∧
           if lf : bool then l = -1 ∧ r = -1
           else (0 ≤ l < Z.of_nat i) ∧ (0 ≤ r < Z.of_nat i).

(** What the executor needs of a feed: five arrays of one length, children
    before parents, and at every leaf a word index that is a row of the
    embedding matrix. *)
Definition well_formed_feed {A} (p : Params A) (fd : FeedDict) : Prop :=
  length (left_children_placeholder fd) = length (is_leaf_placeholder fd) ∧
  length (right_children_placeholder fd) = length (is_leaf_placeholder fd) ∧
  length (node_word_indices_placeholder fd) = length (is_leaf_placeholder fd) ∧
  length (labels_placeholder fd) = length (is_leaf_placeholder fd) ∧
  ordering_invariant fd ∧
  ∀ i w, is_leaf_placeholder fd !! i = Some true →
         node_word_indices_placeholder fd !! i = Some w →
         0 ≤ w < Z.of_nat (length (embeddings p)).

(** The ids of a vocabulary are slots below its length, and the unknown
    token has one. *)
Definition vocab_ok (v : utils.Vocab) : Prop :=
  (∀ w i, utils.word_to_index v !! w = Some i → (i < utils.len v)%nat) ∧
  is_Some (utils.word_to_index v !! utils.unknown v).

(** Every node flagged as a leaf carries a word that is not empty. *)
Definition leaves_have_words (n : tree.Node) : bool :=
  forallb (λ m, implb (tree.isLeaf m) (truthy (tree.word m))) (postorder n).

(** ** Properties of the table *)

(** Slot [i] of the table holds what the loop body computes for node [i]
    from the table itself. *)
Definition entry_ok {A} `{FloatOps A} (p : Params A) (fd : FeedDict)
    (ta : TensorArray A) (i : nat) : Prop :=
  ∃ t, ta !! i = Some (Some t) ∧
    match is_leaf_placeholder fd !! i with
    | Some true =>
        ∃ w, node_word_indices_placeholder fd !! i = Some w ∧
             graph.embed_word p w = Ok t
    | Some false =>
        ∃ l r L R,
          left_children_placeholder fd !! i = Some l ∧
          right_children_placeholder fd !! i = Some r ∧
          tf.read ta l = Ok L ∧ tf.read ta r = Ok R ∧
          t = graph.combine_children p L R
    | None => False
    end.

Definition table_ok {A} `{FloatOps A} (p : Params A) (fd : FeedDict)
    (ta : TensorArray A) : Prop :=
  ∀ i, (i < length ta)%nat → entry_ok p fd ta i.

(** ** Properties of the confusion matrix *)

(** [confmat[i, j]], or 0 outside the array. *)
Definition cell (confmat : list (list Z)) (i j : nat) : Z :=
  default 0 (confmat !! i ≫= λ row, row !! j).

(** A label and a prediction that index a 2 by 2 array. *)
Definition in_confmat (lp : Z * Z) : Prop :=
  (-2 ≤ lp.1 < 2) ∧ (-2 ≤ lp.2 < 2).

#[global] Instance in_confmat_dec (lp : Z * Z) : Decision (in_confmat lp).
Proof. unfold in_confmat. apply _. Defined.

(** * Proofs *)

(** ** The error monad *)

Lemma bind_Ok {X Y} (m : result X) (f : X → result Y) (y : Y) :
  m ≫= f = Ok y ↔ ∃ x, m = Ok x ∧ f x = Ok y.
Proof.
  destruct m as [x|e]; simpl; split.
  - eauto.
  - intros (x' & [= <-] & Hf). exact Hf.
  - discriminate.
  - intros (x' & [=] & _).
Qed.

Lemma fmap_Ok {X Y} (m : result X) (f : X → Y) (y : Y) :
  f <$> m = Ok y ↔ ∃ x, m = Ok x ∧ y = f x.
Proof.
  destruct m as [x|e]; simpl; split.
  - intros [= <-]. eauto.
  - intros (x' & [= <-] & ->). reflexivity.
  - discriminate.
  - intros (x' & [=] & _).
Qed.

(** Take a successful computation apart, one bind at a time. *)
Ltac inv_Ok H :=
  repeat match type of H with
  | _ ≫= _ = Ok _ =>
      let x := fresh "x" in let Hx := fresh "Hx" in
      apply bind_Ok in H as (x & Hx & H)
  | (let '(_, _) := ?p in _) = Ok _ => destruct p
  end.

Lemma foldM_snoc {X Y} (f : Y → X → result Y) (acc : Y) (xs : list X) (x : X) :
  foldM f acc (xs ++ [x]) = (foldM f acc xs ≫= λ acc', f acc' x).
Proof.
  revert acc. induction xs as [|x' xs IH]; intros acc; simpl.
  - by destruct (f acc x).
  - destruct (f acc x') as [acc'|e]; simpl; [apply IH|done].
Qed.

Lemma mapM_result_fmap {X Y Z'} (g : X → Y) (f : Y → result Z') (xs : list X) :
  mapM_result f (g <$> xs) = mapM_result (f ∘ g) xs.
Proof.
  induction xs as [|x xs IH]; [done|].
  rewrite fmap_cons. cbn [mapM_result]. by rewrite IH.
Qed.

Lemma mapM_result_ext {X Y} (f g : X → result Y) (xs : list X) :
  (∀ x, x ∈ xs → f x = g x) → mapM_result f xs = mapM_result g xs.
Proof.
  induction xs as [|x xs IH]; simpl; intros Hfg; [done|].
  rewrite Hfg by left. rewrite IH; [done|]. intros y Hy. apply Hfg. by right.
Qed.

Lemma mapM_result_length {X Y} (f : X → result Y) (xs : list X) (ys : list Y) :
  mapM_result f xs = Ok ys → length ys = length xs.
Proof.
  revert ys. induction xs as [|x xs IH]; simpl; intros ys Hm.
  - by injection Hm as <-.
  - apply bind_Ok in Hm as (y & Hy & Hm). apply bind_Ok in Hm as (ys' & Hys & Hm).
    injection Hm as <-. simpl. f_equal. by apply IH.
Qed.

Lemma mapM_result_lookup {X Y} (f : X → result Y) (xs : list X) (ys : list Y) (i : nat) :
  mapM_result f xs = Ok ys →
  ys !! i = (xs !! i) ≫= (λ x, match f x with Ok y => Some y | Raise _ => None end).
Proof.
  revert ys i. induction xs as [|x xs IH]; simpl; intros ys i Hm.
  - injection Hm as <-. by rewrite !lookup_nil.
  - apply bind_Ok in Hm as (y & Hy & Hm). apply bind_Ok in Hm as (ys' & Hys & Hm).
    injection Hm as <-. destruct i as [|i]; simpl.
    + by rewrite Hy.
    + by apply IH.
Qed.

Lemma mapM_result_Ok {X Y} (f : X → result Y) (xs : list X) :
  (∀ x, x ∈ xs → is_Ok (f x)) → is_Ok (mapM_result f xs).
Proof.
  induction xs as [|x xs IH]; simpl; intros Hf; [by eexists|].
  destruct (Hf x) as [y Hy]; [left|]. rewrite Hy. simpl.
  destruct IH as [ys Hys]; [intros z Hz; apply Hf; by right|].
  rewrite Hys. by eexists.
Qed.

(** ** The traversal *)

Lemma Node_induction (P : tree.Node → Prop) :
  (∀ o lf w lbl l r,
     (∀ x, l = Some x → P x) → (∀ x, r = Some x → P x) →
     P (tree.mkNode o lf w lbl l r)) →
  ∀ n, P n.
Proof.
  intros step. fix rec 1. intros [o lf w lbl l r]. apply step.
  - destruct l as [y|]; intros x Hx; [|discriminate].
    injection Hx as <-. apply rec.
  - destruct r as [y|]; intros x Hx; [|discriminate].
    injection Hx as <-. apply rec.
Qed.

Lemma leftTraverse_obj_postorder (n : tree.Node) (acc : list tree.Node) :
  tree.leftTraverse_obj n (λ node args, args ++ [node]) acc = acc ++ postorder n.
Proof.
  revert acc. induction n as [o lf w lbl l r IHl IHr] using Node_induction.
  intros acc. simpl.
  destruct l as [x|], r as [y|]; simpl.
  - rewrite (IHl x eq_refl), (IHr y eq_refl). by rewrite <- !app_assoc.
  - rewrite (IHl x eq_refl). by rewrite <- !app_assoc.
  - rewrite (IHr y eq_refl). by rewrite <- !app_assoc.
  - done.
Qed.

Lemma nodes_list_of_Some (n : tree.Node) : nodes_list_of (Some n) = postorder n.
Proof. unfold nodes_list_of. simpl. by rewrite leftTraverse_obj_postorder. Qed.

Lemma postorder_snoc (n : tree.Node) : ∃ init, postorder n = init ++ [n].
Proof.
  destruct n as [o lf w lbl l r]. simpl.
  eexists (_ ++ _). by rewrite <- app_assoc.
Qed.

Lemma postorder_last (n : tree.Node) :
  postorder n !! (length (postorder n) - 1)%nat = Some n ∧ (0 < length (postorder n))%nat.
Proof.
  destruct (postorder_snoc n) as [init ->]. rewrite length_app. simpl. split; [|lia].
  replace (length init + 1 - 1)%nat with (length init + 0)%nat by lia.
  by rewrite lookup_app_r, Nat.add_0_r, Nat.sub_diag by lia.
Qed.

Lemma oid_postorder (n : tree.Node) : tree.oid <$> postorder n = tree.oids n.
Proof.
  induction n as [o lf w lbl l r IHl IHr] using Node_induction. simpl.
  rewrite !fmap_app. simpl. f_equal; [|f_equal].
  - destruct l as [x|]; [by apply IHl|done].
  - destruct r as [x|]; [by apply IHr|done].
Qed.

Lemma erase_postorder (n : tree.Node) :
  tree.erase <$> postorder n = flat.nodes (tree.erase n).
Proof.
  induction n as [o lf w lbl l r IHl IHr] using Node_induction. simpl.
  rewrite !fmap_app. simpl. f_equal; [|f_equal].
  - destruct l as [x|]; [by apply IHl|done].
  - destruct r as [x|]; [by apply IHr|done].
Qed.

Lemma length_postorder (n : tree.Node) :
  length (postorder n) = length (flat.nodes (tree.erase n)).
Proof. by rewrite <- erase_postorder, length_fmap. Qed.

(** ** The dictionary of positions *)

Lemma node_to_index_prefix (ns : list tree.Node) (k : nat) :
  NoDup (tree.oid <$> ns) → (k ≤ length ns)%nat →
  ∀ j c, (j < k)%nat → ns !! j = Some c →
    fold_left (λ d i, match ns !! i with
                      | Some n => <[tree.oid n := i]> d
                      | None => d
                      end) (seq 0 k) (∅ : gmap positive nat) !! tree.oid c = Some j.
Proof.
  intros Hnd. induction k as [|k IH]; intros Hk j c Hj Hc; [lia|].
  rewrite seq_S, fold_left_app. simpl.
  destruct (lookup_lt_is_Some_2 ns k) as [x Hx]; [lia|]. rewrite Hx.
  destruct (decide (j = k)) as [->|Hne].
  - assert (c = x) as -> by congruence. apply lookup_insert_eq.
  - rewrite lookup_insert_ne.
    + apply IH; [lia|lia|done].
    + intros Heq. apply Hne. symmetry.
      eapply (NoDup_lookup _ _ _ _ Hnd); rewrite list_lookup_fmap.
      * by rewrite Hx.
      * rewrite Hc. simpl. by rewrite Heq.
Qed.

Lemma node_to_index_lookup (ns : list tree.Node) (j : nat) (c : tree.Node) :
  NoDup (tree.oid <$> ns) → ns !! j = Some c →
  node_to_index_of ns !! tree.oid c = Some j.
Proof.
  intros Hnd Hc. unfold node_to_index_of.
  apply node_to_index_prefix; [done|done| |done].
  by eapply lookup_lt_Some.
Qed.

Lemma lookup_middle {X} (pre mid post : list X) (i : nat) (x : X) :
  mid !! i = Some x → (pre ++ mid ++ post) !! (length pre + i)%nat = Some x.
Proof.
  intros Hi. rewrite lookup_app_r by lia.
  replace (length pre + i - length pre)%nat with i by lia.
  by apply lookup_app_l_Some.
Qed.

(** ** [build_feed_dict] against the flattening of the shape *)

Lemma child_entry_flat (side : bool) (n : tree.Node) :
  ∀ pre post,
    NoDup (tree.oid <$> (pre ++ postorder n ++ post)) →
    child_entry (node_to_index_of (pre ++ postorder n ++ post)) side <$> postorder n
    = flat.child_indices side (length pre) (tree.erase n).
Proof.
  induction n as [o lf w lbl l r IHl IHr] using Node_induction.
  intros pre post Hnd.
  set (n := tree.mkNode o lf w lbl l r) in *.
  set (PL := match l with Some x => postorder x | None => [] end).
  set (PR := match r with Some x => postorder x | None => [] end).
  set (el := match l with Some x => Some (tree.erase x) | None => None end).
  set (er := match r with Some x => Some (tree.erase x) | None => None end).
  assert (Hpost : postorder n = PL ++ PR ++ [n]) by done.
  assert (HlenL : match el with Some x => length (flat.nodes x) | None => 0%nat end
                  = length PL).
  { subst PL el. destruct l; [symmetry; apply length_postorder|done]. }
  assert (HlenR : match er with Some x => length (flat.nodes x) | None => 0%nat end
                  = length PR).
  { subst PR er. destruct r; [symmetry; apply length_postorder|done]. }
  rewrite Hpost in *. clear Hpost.
  set (whole := pre ++ (PL ++ PR ++ [n]) ++ post) in *.
  rewrite !fmap_app.
  change (tree.erase n) with (tree.Shape lf w lbl el er).
  cbn [flat.child_indices]. rewrite HlenL, HlenR.
  f_equal; [|f_equal].
  - subst el. destruct l as [x|]; [|done].
    replace whole with (pre ++ postorder x ++ (PR ++ [n] ++ post)) in *
      by (subst whole PL; by rewrite <- !app_assoc).
    by apply IHl.
  - subst er. destruct r as [x|]; [|done].
    replace whole with ((pre ++ PL) ++ postorder x ++ ([n] ++ post)) in *
      by (subst whole PR; by rewrite <- !app_assoc).
    rewrite <- length_app. by apply IHr.
  - simpl. f_equal. unfold child_entry. simpl. destruct lf; [done|].
    destruct side.
    + subst el. destruct l as [x|]; [|done]. simpl.
      destruct (postorder_last x) as [Hlast Hpos]. fold PL in Hlast, Hpos.
      rewrite (node_to_index_lookup whole (length pre + (length PL - 1)) x Hnd).
      * do 2 f_equal. lia.
      * subst whole. by apply lookup_middle, lookup_app_l_Some.
    + subst er. destruct r as [x|]; [|done]. simpl.
      destruct (postorder_last x) as [Hlast Hpos]. fold PR in Hlast, Hpos.
      rewrite (node_to_index_lookup whole
                 (length pre + (length PL + (length PR - 1))) x Hnd).
      * do 2 f_equal. lia.
      * subst whole. apply lookup_middle.
        rewrite lookup_app_r by lia.
        replace (length PL + (length PR - 1) - length PL)%nat
          with (length PR - 1)%nat by lia.
        by apply lookup_app_l_Some.
Qed.

Lemma build_feed_dict_flatten {A} (self : RecursiveNetStaticGraph A) (n : tree.Node) :
  tree.tree_shaped n →
  build_feed_dict self (Some n) = flat.flatten (vocab self) (tree.erase n).
Proof.
  intros Hnd. unfold tree.tree_shaped in Hnd. rewrite <- oid_postorder in Hnd.
  unfold build_feed_dict, flat.flatten. rewrite nodes_list_of_Some.
  pose proof (child_entry_flat true n [] []) as HL.
  pose proof (child_entry_flat false n [] []) as HR.
  rewrite app_nil_r in HL, HR. simpl in HL, HR.
  rewrite <- (HL Hnd), <- (HR Hnd), !mapM_result_fmap.
  rewrite <- !erase_postorder.
  change (mapM_result (λ node, if tree.isLeaf node then Ok (-1)
            else node_to_index_get (node_to_index_of (postorder n)) (tree.left node))
            (postorder n))
    with (mapM_result (child_entry (node_to_index_of (postorder n)) true) (postorder n)).
  change (mapM_result (λ node, if tree.isLeaf node then Ok (-1)
            else node_to_index_get (node_to_index_of (postorder n)) (tree.right node))
            (postorder n))
    with (mapM_result (child_entry (node_to_index_of (postorder n)) false) (postorder n)).
  destruct (mapM_result _ _) as [lefts|e]; [|done]. simpl.
  destruct (mapM_result _ _) as [rights|e]; [|done]. simpl.
  f_equal. rewrite <- !list_fmap_compose.
  f_equal; apply list_fmap_ext; by intros i [].
Qed.

(** ** The flattening of a shape puts children first *)

Lemma shape_induction (P : tree.shape → Prop) :
  (∀ lf w lbl l r,
     (∀ x, l = Some x → P x) → (∀ x, r = Some x → P x) →
     P (tree.Shape lf w lbl l r)) →
  ∀ s, P s.
Proof.
  intros step. fix rec 1. intros [lf w lbl l r]. apply step.
  - destruct l as [y|]; intros x Hx; [|discriminate].
    injection Hx as <-. apply rec.
  - destruct r as [y|]; intros x Hx; [|discriminate].
    injection Hx as <-. apply rec.
Qed.

Lemma nodes_nonempty (s : tree.shape) : (0 < length (flat.nodes s))%nat.
Proof. destruct s. simpl. rewrite !length_app. simpl. lia. Qed.

Lemma length_child_indices (side : bool) (s : tree.shape) :
  ∀ off, length (flat.child_indices side off s) = length (flat.nodes s).
Proof.
  induction s as [lf w lbl l r IHl IHr] using shape_induction. intros off.
  simpl. rewrite !length_app. simpl.
  destruct l as [x|], r as [y|]; simpl;
    rewrite ?(IHl _ eq_refl), ?(IHr _ eq_refl); done.
Qed.

Lemma child_indices_lookup (side : bool) (s : tree.shape) :
  ∀ off i e, flat.child_indices side off s !! i = Some e →
    ∃ x, flat.nodes s !! i = Some x ∧
         if flat.is_leaf x then e = Ok (-1)
         else ∀ z, e = Ok z → Z.of_nat off ≤ z < Z.of_nat off + Z.of_nat i.
Proof.
  induction s as [lf w lbl l r IHl IHr] using shape_induction.
  intros off i e. cbn [flat.child_indices flat.nodes].
  set (CL := match l with Some x => flat.child_indices side off x | None => [] end).
  set (nl := match l with Some x => length (flat.nodes x) | None => 0%nat end).
  set (nr := match r with Some x => length (flat.nodes x) | None => 0%nat end).
  set (CR := match r with Some x => flat.child_indices side (off + nl) x | None => [] end).
  set (NL := match l with Some x => flat.nodes x | None => [] end).
  set (NR := match r with Some x => flat.nodes x | None => [] end).
  assert (HCL : length CL = nl) by (subst CL nl; destruct l; [apply length_child_indices|done]).
  assert (HCR : length CR = nr) by (subst CR nr; destruct r; [apply length_child_indices|done]).
  assert (HNL : length NL = nl) by (subst NL nl; by destruct l).
  assert (HNR : length NR = nr) by (subst NR nr; by destruct r).
  intros He.
  destruct (decide (i < nl)%nat) as [Hi|Hi].
  - rewrite lookup_app_l in He by lia. rewrite lookup_app_l by lia.
    subst CL NL. destruct l as [x|]; [|by rewrite lookup_nil in He].
    by apply (IHl x eq_refl off).
  - rewrite lookup_app_r in He by lia. rewrite lookup_app_r by lia.
    rewrite HCL in He. rewrite HNL.
    destruct (decide (i - nl < nr)%nat) as [Hj|Hj].
    + rewrite lookup_app_l in He by lia. rewrite lookup_app_l by lia.
      subst CR NR. destruct r as [x|]; [|by rewrite lookup_nil in He].
      destruct (IHr x eq_refl _ _ _ He) as (y & Hy & Hspec).
      exists y. split; [done|]. destruct (flat.is_leaf y); [done|].
      intros z Hz. specialize (Hspec z Hz). lia.
    + rewrite lookup_app_r in He by lia. rewrite lookup_app_r by lia.
      rewrite HCR in He. rewrite HNR.
      destruct (i - nl - nr)%nat as [|k] eqn:Hk;
        [|simpl in He; by rewrite lookup_nil in He].
      simpl in He. injection He as <-. eexists. split; [done|]. simpl.
      destruct lf; [done|]. intros z Hz.
      destruct side.
      * subst nl. destruct l as [x|]; [|done]. injection Hz as <-.
        pose proof (nodes_nonempty x). lia.
      * subst nr. destruct r as [x|]; [|done]. injection Hz as <-.
        pose proof (nodes_nonempty x). lia.
Qed.

Lemma child_indices_complete (side : bool) (n : tree.Node) :
  tree.complete n = true →
  ∀ off e, e ∈ flat.child_indices side off (tree.erase n) → is_Ok e.
Proof.
  induction n as [o lf w lbl l r IHl IHr] using Node_induction.
  cbn [tree.complete tree.erase flat.child_indices].
  rewrite !andb_true_iff, orb_true_iff, andb_true_iff, !bool_decide_eq_true.
  intros [[Hlf Hcl] Hcr] off e.
  rewrite !elem_of_app, list_elem_of_singleton. intros [He|[He| ->]].
  - destruct l as [x|]; [|by apply elem_of_nil in He].
    by apply (IHl x eq_refl Hcl off).
  - destruct r as [x|]; [|by apply elem_of_nil in He].
    by eapply (IHr x eq_refl Hcr).
  - destruct lf; [by eexists|].
    destruct Hlf as [|[[x Hx] [y Hy]]]; [done|]. subst l r.
    destruct side; by eexists.
Qed.

Lemma flatten_ordering (v : utils.Vocab) (s : tree.shape) (fd : FeedDict) :
  flat.flatten v s = Ok fd → ordering_invariant fd.
Proof.
  unfold flat.flatten. intros Hfd.
  apply bind_Ok in Hfd as (lefts & Hl & Hfd).
  apply bind_Ok in Hfd as (rights & Hr & Hfd).
  injection Hfd as <-. intros i lf. simpl. rewrite list_lookup_fmap.
  destruct (flat.nodes s !! i) as [x|] eqn:Hx; [|done]. simpl.
  intros [= <-].
  rewrite (mapM_result_lookup _ _ _ i Hl), (mapM_result_lookup _ _ _ i Hr).
  pose proof (lookup_lt_Some _ _ _ Hx) as Hlt.
  destruct (lookup_lt_is_Some_2 (flat.child_indices true 0 s) i) as [el Hel];
    [by rewrite length_child_indices|].
  destruct (lookup_lt_is_Some_2 (flat.child_indices false 0 s) i) as [er Her];
    [by rewrite length_child_indices|].
  rewrite Hel, Her. simpl.
  destruct (child_indices_lookup _ _ _ _ _ Hel) as (x1 & Hx1 & Hsl).
  destruct (child_indices_lookup _ _ _ _ _ Her) as (x2 & Hx2 & Hsr).
  assert (x1 = x) as -> by congruence. assert (x2 = x) as -> by congruence.
  assert (Hokl : is_Ok el).
  { destruct el as [z|e]; [by eexists|].
    pose proof (mapM_result_lookup _ _ _ i Hl) as Hc. rewrite Hel in Hc. simpl in Hc.
    apply lookup_ge_None in Hc. apply mapM_result_length in Hl.
    rewrite length_child_indices in Hl. lia. }
  assert (Hokr : is_Ok er).
  { destruct er as [z|e]; [by eexists|].
    pose proof (mapM_result_lookup _ _ _ i Hr) as Hc. rewrite Her in Hc. simpl in Hc.
    apply lookup_ge_None in Hc. apply mapM_result_length in Hr.
    rewrite length_child_indices in Hr. lia. }
  destruct Hokl as [zl ->], Hokr as [zr ->]. simpl.
  exists zl, zr. split; [done|]. split; [done|].
  destruct (flat.is_leaf x).
  - split; congruence.
  - specialize (Hsl zl eq_refl). specialize (Hsr zr eq_refl). lia.
Qed.

Lemma flatten_complete (v : utils.Vocab) (n : tree.Node) :
  tree.complete n = true → is_Ok (flat.flatten v (tree.erase n)).
Proof.
  intros Hc. unfold flat.flatten.
  destruct (mapM_result_Ok id (flat.child_indices true 0 (tree.erase n))) as [ls Hls].
  { intros e He. by eapply child_indices_complete. }
  destruct (mapM_result_Ok id (flat.child_indices false 0 (tree.erase n))) as [rs Hrs].
  { intros e He. by eapply child_indices_complete. }
  rewrite Hls, Hrs. by eexists.
Qed.

Example flatten_t_ab :
  build_feed_dict example.self (Some example.t_ab) = Ok example.fd_ab.
Proof. vm_compute. reflexivity. Qed.

(** A dictionary keyed by object cannot tell two visits of one object apart:
    when a leaf is shared by two parents the first parent is given the
    position of the second visit, which comes after it.  This is why the
    statements about [build_feed_dict] are about trees. *)
Example flatten_t_shared :
  build_feed_dict example.self (Some example.t_shared)
  = Ok (mkFeedDict [true; true; false; true; true; false; false]
          [-1; -1; 3; -1; -1; 3; 2] [-1; -1; 1; -1; -1; 4; 5]
          [1; 2; -1; 1; 2; -1; -1] [0; 0; 1; 0; 0; 1; 1]).
Proof. vm_compute. reflexivity. Qed.

Lemma postorder_self (n : tree.Node) : n ∈ postorder n.
Proof.
  destruct (postorder_snoc n) as [init ->]. apply elem_of_app. right.
  by apply list_elem_of_singleton.
Qed.

(** The traversal visits the children of the nodes it visits. *)
Lemma postorder_children (n m c : tree.Node) :
  m ∈ postorder n → tree.left m = Some c ∨ tree.right m = Some c → c ∈ postorder n.
Proof.
  induction n as [o lf w lbl l r IHl IHr] using Node_induction.
  cbn [postorder]. rewrite !elem_of_app, list_elem_of_singleton.
  intros [Hm|[Hm| ->]] Hc.
  - destruct l as [x|]; [|by apply elem_of_nil in Hm]. left. by apply (IHl x eq_refl).
  - destruct r as [x|]; [|by apply elem_of_nil in Hm]. right. left.
    by apply (IHr x eq_refl).
  - simpl in Hc. destruct Hc as [-> | ->].
    + left. apply postorder_self.
    + right. left. apply postorder_self.
Qed.

(** On a tree the dictionary gives a child its position in the traversal. *)
Lemma node_to_index_get_position (n m : tree.Node) (child : option tree.Node) (z : Z) :
  tree.tree_shaped n → m ∈ postorder n →
  child = tree.left m ∨ child = tree.right m →
  node_to_index_get (node_to_index_of (postorder n)) child = Ok z →
  ∃ c j, child = Some c ∧ postorder n !! j = Some c ∧ z = Z.of_nat j.
Proof.
  intros Hn Hm Hchild. unfold node_to_index_get.
  destruct child as [c|]; [|done].
  assert (Hin : c ∈ postorder n).
  { apply (postorder_children n m c Hm). destruct Hchild as [<-|<-]; [by left|by right]. }
  apply list_elem_of_lookup_1 in Hin as [j Hj].
  rewrite (node_to_index_lookup (postorder n) j c); [|by rewrite oid_postorder|done].
  intros [= <-]. by exists c, j.
Qed.

(** ** The flattener *)

(** C1.  For every parse tree (no node object reached twice) the feed built by
    [build_feed_dict] has one entry per node of the tree, in the order of the
    traversal, and the children of each node before the node.  The entry of
    a node carries its leaf flag; for a node that is not a leaf the left and
    the right child index are the positions of its left and its right child,
    both strictly before the position of the node; for a leaf both are [-1].
    In terms of the arrays alone: at a position [i] whose flag says "not a
    leaf" the two child indices are in [0, i), at a position flagged as a leaf
    they are [-1].  When every node that is not a leaf has its two children
    the feed is produced. *)
Theorem build_feed_dict_children_first {A} (self : RecursiveNetStaticGraph A)
    (n : tree.Node) :
  tree.tree_shaped n →
  (tree.complete n = true → is_Ok (build_feed_dict self (Some n))) ∧
  (∀ fd, build_feed_dict self (Some n) = Ok fd →
     ordering_invariant fd ∧
     length (is_leaf_placeholder fd) = length (postorder n) ∧
     length (left_children_placeholder fd) = length (postorder n) ∧
     length (right_children_placeholder fd) = length (postorder n) ∧
     ∀ i m, postorder n !! i = Some m →
       is_leaf_placeholder fd !! i = Some (tree.isLeaf m) ∧
       if tree.isLeaf m
       then left_children_placeholder fd !! i = Some (-1) ∧
            right_children_placeholder fd !! i = Some (-1)
       else ∃ (cl cr : tree.Node) (l r : nat),
              tree.left m = Some cl ∧ tree.right m = Some cr ∧
              postorder n !! l = Some cl ∧ postorder n !! r = Some cr ∧
              (l < i)%nat ∧ (r < i)%nat ∧
              left_children_placeholder fd !! i = Some (Z.of_nat l) ∧
              right_children_placeholder fd !! i = Some (Z.of_nat r)).
Proof.
  intros Hn. split.
  { rewrite (build_feed_dict_flatten self n Hn). apply flatten_complete. }
  intros fd Hfd.
  assert (Hord : ordering_invariant fd).
  { rewrite (build_feed_dict_flatten self n Hn) in Hfd. by eapply flatten_ordering. }
  split; [exact Hord|].
  unfold build_feed_dict in Hfd. rewrite nodes_list_of_Some in Hfd.
  apply bind_Ok in Hfd as (lefts & Hl & Hfd).
  apply bind_Ok in Hfd as (rights & Hr & Hfd).
  injection Hfd as <-. cbn [is_leaf_placeholder left_children_placeholder
                            right_children_placeholder].
  pose proof (mapM_result_length _ _ _ Hl) as Hll.
  pose proof (mapM_result_length _ _ _ Hr) as Hlr.
  rewrite length_fmap. split; [done|]. split; [done|]. split; [done|].
  intros i m Hm. rewrite list_lookup_fmap, Hm. split; [done|].
  pose proof (mapM_result_lookup _ _ _ i Hl) as Hli.
  pose proof (mapM_result_lookup _ _ _ i Hr) as Hri.
  rewrite Hm in Hli, Hri. simpl in Hli, Hri.
  destruct (tree.isLeaf m) eqn:Hleaf; [done|].
  destruct (Hord i false) as (zl & zr & Hzl & Hzr & Hlt & Hrt).
  { simpl. by rewrite list_lookup_fmap, Hm, <- Hleaf. }
  simpl in Hzl, Hzr. rewrite Hzl in Hli. rewrite Hzr in Hri.
  pose proof (list_elem_of_lookup_2 _ _ _ Hm) as Hin.
  destruct (node_to_index_get _ (tree.left m)) as [zl'|] eqn:Hgl; [|done].
  destruct (node_to_index_get _ (tree.right m)) as [zr'|] eqn:Hgr; [|done].
  injection Hli as ->. injection Hri as ->.
  destruct (node_to_index_get_position n m _ _ Hn Hin (or_introl eq_refl) Hgl)
    as (cl & l & Hcl & Hpl & ->).
  destruct (node_to_index_get_position n m _ _ Hn Hin (or_intror eq_refl) Hgr)
    as (cr & r & Hcr & Hpr & ->).
  exists cl, cr, l, r. repeat split; try done; lia.
Qed.

Lemma build_feed_dict_children_first_witness :
  tree.tree_shaped example.t_ab ∧
  is_Ok (build_feed_dict example.self (Some example.t_ab)) ∧
  (∀ fd, build_feed_dict example.self (Some example.t_ab) = Ok fd →
         ordering_invariant fd ∧ length (is_leaf_placeholder fd) = 3%nat).
Proof.
  assert (Hn : tree.tree_shaped example.t_ab).
  { unfold tree.tree_shaped. apply (bool_decide_unpack _). vm_compute. exact I. }
  split; [exact Hn|].
  destruct (build_feed_dict_children_first example.self example.t_ab Hn) as [Hok Hfd].
  split; [exact (Hok eq_refl)|].
  intros fd Hbuild. destruct (Hfd fd Hbuild) as (Hord & Hlen & _).
  split; [exact Hord|exact Hlen].
Defined.

(** C10.  The flattening is a function of the tree: two runs on trees that
    differ at most in the identities of their node objects give the same five
    arrays.  A second run on the same tree is the case of equal identities. *)
Theorem build_feed_dict_deterministic {A} (self : RecursiveNetStaticGraph A)
    (n1 n2 : tree.Node) :
  tree.tree_shaped n1 → tree.tree_shaped n2 → tree.erase n1 = tree.erase n2 →
  build_feed_dict self (Some n1) = build_feed_dict self (Some n2).
Proof.
  intros H1 H2 He.
  by rewrite (build_feed_dict_flatten self n1 H1), (build_feed_dict_flatten self n2 H2), He.
Qed.

Lemma build_feed_dict_deterministic_witness :
  tree.tree_shaped example.t_ab ∧
  tree.tree_shaped (example.inner 7 1 (example.leaf 9 "a" 0) (example.leaf 8 "b" 2)) ∧
  build_feed_dict example.self (Some example.t_ab)
  = build_feed_dict example.self
      (Some (example.inner 7 1 (example.leaf 9 "a" 0) (example.leaf 8 "b" 2))).
Proof.
  assert (H1 : tree.tree_shaped example.t_ab).
  { unfold tree.tree_shaped. apply (bool_decide_unpack _). vm_compute. exact I. }
  assert (H2 : tree.tree_shaped
                 (example.inner 7 1 (example.leaf 9 "a" 0) (example.leaf 8 "b" 2))).
  { unfold tree.tree_shaped. apply (bool_decide_unpack _). vm_compute. exact I. }
  split; [exact H1|]. split; [exact H2|].
  exact (build_feed_dict_deterministic example.self _ _ H1 H2 eq_refl).
Defined.

(** ** The TensorArray *)

Section table.
Context {A : Type} `{FloatOps A}.
Implicit Types (ta : TensorArray A) (t : tensor A).

Lemma gather_Ok {X} (xs : list X) (i : Z) (x : X) :
  tf.gather xs i = Ok x ↔ 0 ≤ i ∧ xs !! Z.to_nat i = Some x.
Proof.
  unfold tf.gather. case_bool_decide as Hi.
  - destruct (xs !! Z.to_nat i) as [y|]; split; try (intros [= ->]); try done;
      intros [_ [=]]; by subst.
  - split; [done|]. intros [? _]. lia.
Qed.

Lemma gather_nat {X} (xs : list X) (i : nat) (x : X) :
  tf.gather xs (Z.of_nat i) = Ok x ↔ xs !! i = Some x.
Proof. rewrite gather_Ok, Nat2Z.id. split; [by intros [_ ?]|]. split; [lia|done]. Qed.

Lemma read_Ok ta (i : Z) t :
  tf.read ta i = Ok t ↔ 0 ≤ i ∧ ta !! Z.to_nat i = Some (Some t).
Proof.
  unfold tf.read. case_bool_decide as Hi.
  - destruct (ta !! Z.to_nat i) as [[y|]|]; split; try (intros [= ->]); try done;
      intros [_ [=]]; by subst.
  - split; [done|]. intros [? _]. lia.
Qed.

Lemma read_app ta ta' (i : Z) t :
  tf.read ta i = Ok t → tf.read (ta ++ ta') i = Ok t.
Proof. rewrite !read_Ok. intros [? Hi]. split; [done|]. by apply lookup_app_l_Some. Qed.

Lemma write_end ta t : tf.write ta (length ta) t = Ok (ta ++ [Some t]).
Proof.
  unfold tf.write. rewrite (lookup_ge_None_2 ta (length ta)) by lia.
  by rewrite Nat.sub_diag.
Qed.

Lemma entry_ok_app (p : Params A) (fd : FeedDict) ta ta' (i : nat) :
  entry_ok p fd ta i → entry_ok p fd (ta ++ ta') i.
Proof.
  intros (t & Ht & Hspec). exists t. split; [by apply lookup_app_l_Some|].
  destruct (is_leaf_placeholder fd !! i) as [[|]|]; [done| |done].
  destruct Hspec as (l & r & L & R & Hl & Hr & HL & HR & ->).
  exists l, r, L, R. eauto 10 using read_app.
Qed.

(** One iteration appends the entry of node [i] to a table holding the
    entries of the nodes before it. *)
Lemma loop_body_step (p : Params A) (fd : FeedDict) ta ta' (i i' : nat) :
  length ta = i → table_ok p fd ta →
  graph.loop_body p fd (ta, i) = Ok (ta', i') →
  i' = S i ∧ length ta' = S i ∧ table_ok p fd ta'.
Proof.
  intros Hlen Hok Hbody. unfold graph.loop_body in Hbody.
  apply bind_Ok in Hbody as (lf & Hlf & Hbody).
  apply bind_Ok in Hbody as (w & Hw & Hbody).
  apply bind_Ok in Hbody as (l & Hl & Hbody).
  apply bind_Ok in Hbody as (r & Hr & Hbody).
  apply bind_Ok in Hbody as (t & Ht & Hbody).
  apply bind_Ok in Hbody as (ta1 & Hta1 & Hbody).
  injection Hbody as <- <-.
  apply gather_nat in Hlf, Hw, Hl, Hr.
  rewrite <- Hlen, write_end in Hta1. injection Hta1 as <-.
  split; [done|]. split; [rewrite length_app; simpl; lia|].
  intros j Hj. rewrite length_app in Hj. simpl in Hj.
  destruct (decide (j < length ta)%nat) as [Hlt|Hge].
  { by apply entry_ok_app, Hok. }
  assert (j = i) as -> by lia.
  exists t. split.
  { rewrite lookup_app_r by lia. by rewrite Hlen, Nat.sub_diag. }
  rewrite Hlf. destruct lf.
  - eauto.
  - apply bind_Ok in Ht as (L & HL & Ht). apply bind_Ok in Ht as (R & HR & Ht).
    injection Ht as <-. exists l, r, L, R. eauto 10 using read_app.
Qed.

Lemma while_loop_table (p : Params A) (fd : FeedDict) (fuel : nat) :
  ∀ ta i ta' i',
    length ta = i → (i ≤ length (is_leaf_placeholder fd))%nat → table_ok p fd ta →
    tf.while_loop fuel (graph.loop_cond fd) (graph.loop_body p fd) (ta, i) = Ok (ta', i') →
    length ta' = length (is_leaf_placeholder fd) ∧ table_ok p fd ta'.
Proof.
  induction fuel as [|fuel IH]; intros ta i ta' i' Hlen Hi Hok Hloop; simpl in Hloop;
    unfold graph.loop_cond in Hloop at 1; simpl in Hloop; case_bool_decide as Hc;
    try discriminate.
  - injection Hloop as <- <-. split; [lia|done].
  - apply bind_Ok in Hloop as ([ta1 i1] & Hbody & Hloop).
    destruct (loop_body_step _ _ _ _ _ _ Hlen Hok Hbody) as (-> & Hlen1 & Hok1).
    eapply IH; [exact Hlen1|lia|exact Hok1|exact Hloop].
  - injection Hloop as <- <-. split; [lia|done].
Qed.

(** The table after the loop has one written slot per node, each holding the
    value of the loop body on the finished table. *)
Lemma tensor_array_table (p : Params A) (fd : FeedDict) ta :
  graph.tensor_array p fd = Ok ta →
  length ta = length (is_leaf_placeholder fd) ∧ table_ok p fd ta.
Proof.
  unfold graph.tensor_array. intros Hta.
  apply fmap_Ok in Hta as ([ta' i'] & Hloop & ->). simpl.
  eapply while_loop_table; [| |  |exact Hloop]; [done|simpl; lia|].
  intros j Hj. simpl in Hj. lia.
Qed.

End table.

(** ** The loop runs to the end *)

Section loop.
Context {A : Type} `{FloatOps A}.
Implicit Types (ta : TensorArray A) (t : tensor A).

Lemma gather_raise {X} (xs : list X) (i : Z) (e : exn) :
  tf.gather xs i = Raise e → e = InvalidArgumentError.
Proof.
  unfold tf.gather. case_bool_decide; [|congruence].
  destruct (xs !! Z.to_nat i); congruence.
Qed.

Lemma read_raise ta (i : Z) (e : exn) :
  tf.read ta i = Raise e → e = InvalidArgumentError.
Proof.
  unfold tf.read. case_bool_decide; [|congruence].
  destruct (ta !! Z.to_nat i) as [[?|]|]; congruence.
Qed.

Lemma write_raise ta (i : nat) t (e : exn) :
  tf.write ta i t = Raise e → e = InvalidArgumentError.
Proof. unfold tf.write. destruct (ta !! i) as [[?|]|]; congruence. Qed.

Lemma bind_Raise {X Y} (m : result X) (f : X → result Y) (e : exn) :
  m ≫= f = Raise e ↔ m = Raise e ∨ ∃ x, m = Ok x ∧ f x = Raise e.
Proof.
  destruct m as [x|e']; simpl; split.
  - eauto.
  - intros [[=]|(x' & [= <-] & Hf)]. exact Hf.
  - intros [= ->]. by left.
  - intros [[= ->]|(x' & [=] & _)]. done.
Qed.

Lemma loop_body_raise (p : Params A) (fd : FeedDict) ta (i : nat) (e : exn) :
  graph.loop_body p fd (ta, i) = Raise e → e = InvalidArgumentError.
Proof.
  unfold graph.loop_body, graph.embed_word. intros Hb.
  repeat match goal with
  | Hb : _ ≫= _ = Raise _ |- _ =>
      apply bind_Raise in Hb as [Hb|(? & _ & Hb)]
  | Hb : tf.gather _ _ = Raise _ |- _ => by apply gather_raise in Hb
  | Hb : tf.read _ _ = Raise _ |- _ => by apply read_raise in Hb
  | Hb : tf.write _ _ _ = Raise _ |- _ => by apply write_raise in Hb
  | Hb : (if ?b then _ else _) = Raise _ |- _ => destruct b
  | Hb : Ok _ = Raise _ |- _ => discriminate
  end.
Qed.

Lemma loop_body_counter (p : Params A) (fd : FeedDict) ta ta' (i i' : nat) :
  graph.loop_body p fd (ta, i) = Ok (ta', i') → i' = S i.
Proof.
  unfold graph.loop_body. intros Hb.
  repeat (apply bind_Ok in Hb as (? & _ & Hb)). by injection Hb as _ <-.
Qed.

Lemma while_loop_fuel (p : Params A) (fd : FeedDict) (fuel : nat) :
  ∀ ta i, (length (is_leaf_placeholder fd) - i ≤ fuel)%nat →
    tf.while_loop fuel (graph.loop_cond fd) (graph.loop_body p fd) (ta, i)
    ≠ Raise FuelExhausted.
Proof.
  induction fuel as [|fuel IH]; intros ta i Hfuel; cbn [tf.while_loop];
    unfold graph.loop_cond at 1; cbn [snd]; case_bool_decide as Hc;
    try done; try lia.
  destruct (graph.loop_body p fd (ta, i)) as [[ta' i']|e] eqn:Hb; simpl.
  - apply loop_body_counter in Hb as ->. apply IH. lia.
  - apply loop_body_raise in Hb as ->. done.
Qed.

(** The iteration budget of the model is never what ends the loop. *)
Lemma tensor_array_fuel (p : Params A) (fd : FeedDict) :
  graph.tensor_array p fd ≠ Raise FuelExhausted.
Proof.
  unfold graph.tensor_array.
  pose proof (while_loop_fuel p fd (length (is_leaf_placeholder fd))
                tf.TensorArray_new 0%nat) as Hf.
  destruct (tf.while_loop _ _ _ _) as [?|e]; simpl; [done|].
  intros [= ->]. apply Hf; [lia|done].
Qed.

Lemma loop_body_total (p : Params A) (fd : FeedDict) ta (i : nat) :
  well_formed_feed p fd → length ta = i →
  (i < length (is_leaf_placeholder fd))%nat → table_ok p fd ta →
  is_Ok (graph.loop_body p fd (ta, i)).
Proof.
  intros (Hl & Hr & Hw & _ & Hord & Hemb) Hlen Hi Hok. unfold graph.loop_body.
  destruct (lookup_lt_is_Some_2 (is_leaf_placeholder fd) i) as [lf Hlf]; [lia|].
  destruct (lookup_lt_is_Some_2 (node_word_indices_placeholder fd) i) as [w Hwi]; [lia|].
  destruct (Hord i lf Hlf) as (l & r & Hli & Hri & Hlr).
  rewrite (proj2 (gather_nat _ _ _) Hlf). simpl.
  rewrite (proj2 (gather_nat _ _ _) Hwi). simpl.
  rewrite (proj2 (gather_nat _ _ _) Hli). simpl.
  rewrite (proj2 (gather_nat _ _ _) Hri). simpl.
  assert (Hnode : is_Ok (if lf then graph.embed_word p w
                         else l' ← tf.read ta l; r' ← tf.read ta r;
                              Ok (graph.combine_children p l' r'))).
  { destruct lf.
    - destruct (Hemb i w Hlf Hwi) as [Hw0 Hw1]. unfold graph.embed_word.
      destruct (lookup_lt_is_Some_2 (embeddings p) (Z.to_nat w)) as [row Hrow]; [lia|].
      rewrite (proj2 (gather_Ok _ _ _) (conj Hw0 Hrow)). by eexists.
    - destruct Hlr as [Hl0 Hr0].
      destruct (Hok (Z.to_nat l)) as (L & HL & _); [lia|].
      destruct (Hok (Z.to_nat r)) as (R & HR & _); [lia|].
      rewrite (proj2 (read_Ok ta l L)) by (split; [lia|done]). simpl.
      rewrite (proj2 (read_Ok ta r R)) by (split; [lia|done]). simpl.
      by eexists. }
  destruct Hnode as [t ->]. simpl.
  rewrite <- Hlen, write_end. simpl. by eexists.
Qed.

Lemma while_loop_total (p : Params A) (fd : FeedDict) (fuel : nat) :
  well_formed_feed p fd →
  ∀ ta i, length ta = i → (i ≤ length (is_leaf_placeholder fd))%nat →
    table_ok p fd ta →
    (length (is_leaf_placeholder fd) - i ≤ fuel)%nat →
    is_Ok (tf.while_loop fuel (graph.loop_cond fd) (graph.loop_body p fd) (ta, i)).
Proof.
  intros Hwf. induction fuel as [|fuel IH]; intros ta i Hlen Hi Hok Hfuel;
    cbn [tf.while_loop]; unfold graph.loop_cond at 1; cbn [snd];
    case_bool_decide as Hc; try (by eexists); try lia.
  destruct (loop_body_total p fd ta i Hwf Hlen Hc Hok) as [[ta' i'] Hb].
  rewrite Hb. simpl.
  destruct (loop_body_step _ _ _ _ _ _ Hlen Hok Hb) as (-> & Hlen' & Hok').
  apply IH; [done|lia|done|lia].
Qed.

(** On a well-formed feed the executor fills the table. *)
Lemma tensor_array_total (p : Params A) (fd : FeedDict) :
  well_formed_feed p fd → is_Ok (graph.tensor_array p fd).
Proof.
  intros Hwf. unfold graph.tensor_array.
  destruct (while_loop_total p fd (length (is_leaf_placeholder fd)) Hwf
              tf.TensorArray_new 0%nat) as [[ta i] Hloop];
    [done|lia| |lia|].
  - intros j Hj. simpl in Hj. lia.
  - rewrite Hloop. by eexists.
Qed.

End loop.

(** ** The vocabulary *)

Lemma vocab_ok_empty : vocab_ok utils.empty_Vocab.
Proof.
  split.
  - intros w i. unfold utils.empty_Vocab, utils.len. simpl.
    rewrite lookup_singleton_Some, map_size_singleton. intros [_ <-]. lia.
  - unfold utils.empty_Vocab. simpl. rewrite lookup_singleton_eq. by eexists.
Qed.

Lemma vocab_ok_add_word (v : utils.Vocab) (w : string) :
  vocab_ok v → vocab_ok (utils.add_word v w).
Proof.
  intros [Hlt Hunk]. unfold utils.add_word.
  destruct (utils.word_to_index v !! w) as [i|] eqn:Hw; [done|].
  split; unfold utils.len; simpl.
  - intros w' i. rewrite map_size_insert_None by done.
    rewrite lookup_insert_Some. intros [[_ <-]|[_ Hw']]; [lia|].
    specialize (Hlt w' i Hw'). unfold utils.len in Hlt. lia.
  - destruct Hunk as [u Hu]. exists u. rewrite lookup_insert_ne; [done|].
    intros ->. congruence.
Qed.

Lemma vocab_ok_construct (words : list string) : vocab_ok (utils.construct words).
Proof.
  unfold utils.construct. generalize vocab_ok_empty. generalize utils.empty_Vocab.
  induction words as [|w words IH]; intros v Hv; simpl; [done|].
  by apply IH, vocab_ok_add_word.
Qed.

Lemma encode_lt (v : utils.Vocab) (w : string) :
  vocab_ok v → (utils.encode v w < utils.len v)%nat.
Proof.
  intros [Hlt [u Hu]]. unfold utils.encode.
  destruct (utils.word_to_index v !! w) as [i|] eqn:Hw; [by eapply Hlt|].
  rewrite Hu. simpl. by eapply Hlt.
Qed.

(** A word the vocabulary does not hold is encoded as the unknown token. *)
Lemma encode_unknown (v : utils.Vocab) (w : string) :
  utils.word_to_index v !! w = None →
  utils.encode v w = utils.encode v (utils.unknown v).
Proof.
  intros Hw. unfold utils.encode. rewrite Hw.
  by destruct (utils.word_to_index v !! utils.unknown v).
Qed.

(** ** Feeds built from trees are well formed *)

Lemma build_feed_dict_fields {A} (self : RecursiveNetStaticGraph A) (n : tree.Node)
    (fd : FeedDict) :
  build_feed_dict self (Some n) = Ok fd →
  is_leaf_placeholder fd = tree.isLeaf <$> postorder n ∧
  length (left_children_placeholder fd) = length (postorder n) ∧
  length (right_children_placeholder fd) = length (postorder n) ∧
  node_word_indices_placeholder fd
    = (λ node, if truthy (tree.word node)
               then Z.of_nat (utils.encode (vocab self) (default ""%string (tree.word node)))
               else -1) <$> postorder n ∧
  labels_placeholder fd = tree.label <$> postorder n.
Proof.
  unfold build_feed_dict. rewrite nodes_list_of_Some. intros Hfd.
  apply bind_Ok in Hfd as (lefts & Hl & Hfd).
  apply bind_Ok in Hfd as (rights & Hr & Hfd).
  injection Hfd as <-. simpl.
  apply mapM_result_length in Hl, Hr. done.
Qed.

Lemma build_feed_dict_well_formed {A} (self : RecursiveNetStaticGraph A)
    (p : Params A) (n : tree.Node) (fd : FeedDict) :
  tree.tree_shaped n → leaves_have_words n = true → vocab_ok (vocab self) →
  length (embeddings p) = utils.len (vocab self) →
  build_feed_dict self (Some n) = Ok fd →
  well_formed_feed p fd.
Proof.
  intros Hn Hwords Hv Hemb Hfd.
  destruct (build_feed_dict_fields self n fd Hfd) as (Hlf & Hl & Hr & Hw & Hlbl).
  unfold well_formed_feed.
  split; [by rewrite Hl, Hlf, length_fmap|].
  split; [by rewrite Hr, Hlf, length_fmap|].
  split; [by rewrite Hw, Hlf, !length_fmap|].
  split; [by rewrite Hlbl, Hlf, !length_fmap|].
  split.
  { rewrite (build_feed_dict_flatten self n Hn) in Hfd. by eapply flatten_ordering. }
  intros i w. rewrite Hlf, Hw, !list_lookup_fmap.
  destruct (postorder n !! i) as [m|] eqn:Hm; [|done]. simpl.
  intros [= Hleaf] [= <-].
  unfold leaves_have_words in Hwords. rewrite forallb_forall in Hwords.
  specialize (Hwords m). rewrite Hleaf in Hwords. simpl in Hwords.
  rewrite Hwords by (apply list_elem_of_In; by eapply list_elem_of_lookup_2).
  rewrite Hemb.
  pose proof (encode_lt (vocab self) (default ""%string (tree.word m)) Hv). lia.
Qed.

Lemma example_fd_ab_well_formed : well_formed_feed example.params example.fd_ab.
Proof.
  apply (build_feed_dict_well_formed example.self example.params example.t_ab).
  - unfold tree.tree_shaped. apply (bool_decide_unpack _). vm_compute. exact I.
  - vm_compute. reflexivity.
  - apply vocab_ok_construct.
  - vm_compute. reflexivity.
  - apply flatten_t_ab.
Qed.

(** ** The executor *)

(** C2.  On every well-formed feed the executor fills the table, and at every
    position [i] that is not a leaf the table holds
    [relu(concat([table[left], table[right]], 1) . W1 + b1)], the left entry
    first, the bias added to the product and the relu taken last.  The order
    of the two entries matters: there are variables and two different
    entries for which exchanging them changes the value. *)
Theorem executor_combines_children :
  (∀ (A : Type) (ops : FloatOps A) (p : Params A) (fd : FeedDict),
     well_formed_feed p fd →
     ∃ ta, graph.tensor_array p fd = Ok ta ∧
       ∀ i, is_leaf_placeholder fd !! i = Some false →
         ∃ l r L R,
           left_children_placeholder fd !! i = Some l ∧
           right_children_placeholder fd !! i = Some r ∧
           tf.read ta l = Ok L ∧ tf.read ta r = Ok R ∧
           tf.read ta (Z.of_nat i)
           = Ok (tf.relu (tf.add (tf.matmul (tf.concat1 L R) (W1 p)) (b1 p)))) ∧
  (∃ (p : Params float) (L R : tensor float),
     L ≠ R ∧
     tf.relu (tf.add (tf.matmul (tf.concat1 L R) (W1 p)) (b1 p))
     ≠ tf.relu (tf.add (tf.matmul (tf.concat1 R L) (W1 p)) (b1 p))).
Proof.
  split.
  - intros A ops p fd Hwf.
    destruct (tensor_array_total p fd Hwf) as [ta Hta]. exists ta. split; [done|].
    destruct (tensor_array_table p fd ta Hta) as [Hlen Hok].
    intros i Hi. destruct (Hok i) as (t & Ht & Hspec).
    { rewrite Hlen. by eapply lookup_lt_Some. }
    rewrite Hi in Hspec. destruct Hspec as (l & r & L & R & Hl & Hr & HL & HR & ->).
    exists l, r, L, R. repeat (split; [done|]).
    apply read_Ok. split; [lia|]. by rewrite Nat2Z.id.
  - exists example.params, [[1; 2]]%float, [[3; -1]]%float. split.
    + intros Heq.
      apply (f_equal (λ t, match t with
                           | [a :: _] => PrimFloat.ltb a 2%float
                           | _ => false
                           end)) in Heq.
      vm_compute in Heq. discriminate.
    + intros Heq.
      apply (f_equal (λ t, match t with
                           | [a :: _] => PrimFloat.ltb a 2%float
                           | _ => false
                           end)) in Heq.
      vm_compute in Heq. discriminate.
Qed.

Lemma executor_combines_children_witness :
  well_formed_feed example.params example.fd_ab ∧
  ∃ ta, graph.tensor_array example.params example.fd_ab = Ok ta ∧
    ∀ i, is_leaf_placeholder example.fd_ab !! i = Some false →
      ∃ l r L R,
        left_children_placeholder example.fd_ab !! i = Some l ∧
        right_children_placeholder example.fd_ab !! i = Some r ∧
        tf.read ta l = Ok L ∧ tf.read ta r = Ok R ∧
        tf.read ta (Z.of_nat i)
        = Ok (tf.relu (tf.add (tf.matmul (tf.concat1 L R) (W1 example.params))
                         (b1 example.params))).
Proof.
  split; [exact example_fd_ab_well_formed|].
  exact (proj1 executor_combines_children float float_ops example.params
           example.fd_ab example_fd_ab_well_formed).
Defined.

(** ** A tree of one leaf *)

Section single_leaf.
Context {A : Type} `{FloatOps A} `{Runtime A}.

Lemma root_logits_single (p : Params A) (fd : FeedDict) (row b : list A) :
  graph.tensor_array p fd = Ok [Some [row]] → bs p = [b] →
  graph.root_logits p fd
  = Ok [zip_with f_add ((λ j, tf.dot row (tf.column j (U p))) <$> seq 0 (tf.ncols (U p))) b].
Proof.
  intros Hta Hbs. unfold graph.root_logits. rewrite Hta. simpl.
  unfold tf.add. by rewrite Hbs.
Qed.

(** C8.  For a tree that is one leaf holding a word, the feed has one node,
    the table has exactly one entry, and that entry (and so the table read
    as a matrix) is the row of the embedding matrix at the id the vocabulary
    gives the word, untouched.  The root logits are that row times [U] plus
    [bs], one scalar per class, and the root prediction is the index of
    their first largest entry. *)
Theorem single_leaf_tree (config : Config A)
    (data : list tree.Tree * list tree.Tree * list tree.Tree)
    (p : Params A) (o : positive) (w : string) (lbl : Z) :
  let self := __init__ config data in
  let n := tree.mkNode o true (Some w) lbl None None in
  declared_shapes config (vocab self) p → w ≠ ""%string →
  ∃ fd row z,
    build_feed_dict self (Some n) = Ok fd ∧
    length (is_leaf_placeholder fd) = 1%nat ∧
    embeddings p !! utils.encode (vocab self) w = Some row ∧
    graph.tensor_array p fd = Ok [Some [row]] ∧
    (graph.tensor_array p fd ≫= tf.TensorArray_concat) = Ok [row] ∧
    graph.root_logits p fd = Ok [z] ∧
    [z] = tf.add (tf.matmul [row] (U p)) (bs p) ∧
    ((0 < embed_size config)%nat → length z = label_size config) ∧
    root_prediction self p fd = Ok (Z.of_nat (tf.argmax_row z)).
Proof.
  intros self n (Hemb & _ & _ & HU & Hbs) Hw.
  assert (Hv : vocab_ok (vocab self)).
  { subst self. unfold __init__. destruct data as [[tr dv] te]. simpl.
    apply vocab_ok_construct. }
  destruct Hemb as [Hemb _].
  destruct (lookup_lt_is_Some_2 (embeddings p) (utils.encode (vocab self) w))
    as [row Hrow].
  { rewrite Hemb. by apply encode_lt. }
  destruct Hbs as [Hbs1 Hbs2].
  destruct (bs p) as [|b [|]] eqn:Hb; try discriminate. clear Hbs1.
  apply Forall_inv in Hbs2.
  set (fd := mkFeedDict [true] [-1] [-1] [Z.of_nat (utils.encode (vocab self) w)] [lbl]).
  assert (Hfd : build_feed_dict self (Some n) = Ok fd).
  { unfold build_feed_dict. rewrite nodes_list_of_Some. simpl.
    by case_bool_decide. }
  assert (Hta : graph.tensor_array p fd = Ok [Some [row]]).
  { unfold graph.tensor_array. simpl. unfold graph.embed_word.
    by rewrite (proj2 (gather_nat (embeddings p) _ row) Hrow). }
  eexists fd, row, _. split; [done|]. split; [done|]. split; [done|].
  split; [done|]. split; [by rewrite Hta|].
  split; [by apply root_logits_single|].
  split; [done|].
  split.
  - intros He. rewrite length_zip_with, length_fmap, length_seq, Hbs2.
    destruct HU as [HU1 HU2]. destruct (U p) as [|u us]; simpl in *; [lia|].
    apply Forall_inv in HU2. lia.
  - subst self. unfold __init__. destruct data as [[tr dv] te]. simpl.
    unfold graph.root_prediction.
    rewrite (root_logits_single p fd row b Hta Hb). done.
Qed.

End single_leaf.

Lemma single_leaf_tree_witness :
  declared_shapes example.config (vocab example.self) example.params ∧
  "x"%string ≠ ""%string ∧
  ∃ fd row z,
    build_feed_dict example.self (Some example.t_x) = Ok fd ∧
    length (is_leaf_placeholder fd) = 1%nat ∧
    embeddings example.params !! utils.encode (vocab example.self) "x" = Some row ∧
    graph.tensor_array example.params fd = Ok [Some [row]] ∧
    (graph.tensor_array example.params fd ≫= tf.TensorArray_concat) = Ok [row] ∧
    graph.root_logits example.params fd = Ok [z] ∧
    [z] = tf.add (tf.matmul [row] (U example.params)) (bs example.params) ∧
    ((0 < embed_size example.config)%nat → length z = label_size example.config) ∧
    root_prediction example.self example.params fd = Ok (Z.of_nat (tf.argmax_row z)).
Proof.
  assert (Hs : declared_shapes example.config (vocab example.self) example.params).
  { repeat split; try (vm_compute; reflexivity); repeat constructor. }
  assert (Hw : "x"%string ≠ ""%string) by discriminate.
  split; [exact Hs|]. split; [exact Hw|].
  exact (single_leaf_tree example.config example.data example.params 1 "x" 1 Hs Hw).
Defined.

(** ** Every entry of the table is one row *)

Section rows.
Context {A : Type} `{FloatOps A}.
Implicit Types (ta : TensorArray A) (t : tensor A).

Lemma while_loop_invariant {S} (I : S → Prop) (cond : S → bool) (body : S → result S) :
  (∀ s s', I s → cond s = true → body s = Ok s' → I s') →
  ∀ fuel s s', I s → tf.while_loop fuel cond body s = Ok s' → I s' ∧ cond s' = false.
Proof.
  intros Hstep. induction fuel as [|fuel IH]; intros s s' Hs Hloop; simpl in Hloop;
    destruct (cond s) eqn:Hc; try discriminate.
  - by injection Hloop as <-.
  - apply bind_Ok in Hloop as (s1 & Hb & Hloop). eapply IH; [|done]. eauto.
  - by injection Hloop as <-.
Qed.

Lemma write_lookup ta ta' (i j : nat) t t' :
  tf.write ta i t = Ok ta' → ta' !! j = Some (Some t') →
  t' = t ∨ ta !! j = Some (Some t').
Proof.
  unfold tf.write. destruct (ta !! i) as [[?|]|] eqn:Hi; intros [= <-]; [| ].
  - destruct (decide (i = j)) as [->|Hne].
    + rewrite list_lookup_insert_eq by (by eapply lookup_lt_Some). intros [= ->]. by left.
    + rewrite list_lookup_insert_ne by done. by right.
  - intros Hj. apply lookup_app_Some in Hj as [Hj|[_ Hj]]; [by right|].
    apply lookup_app_Some in Hj as [Hj|[_ Hj]].
    + apply lookup_replicate in Hj as [[=] _].
    + apply list_lookup_singleton_Some in Hj as [_ [= ->]]. by left.
Qed.

Lemma combine_children_rows (p : Params A) (L R : tensor A) :
  length (b1 p) = 1%nat → length L = 1%nat → length R = 1%nat →
  length (graph.combine_children p L R) = 1%nat.
Proof.
  intros Hb HL HR. unfold graph.combine_children, tf.relu, tf.add, tf.matmul, tf.concat1.
  destruct (b1 p) as [|b [|]]; try discriminate.
  by rewrite !length_fmap, length_zip_with, HL, HR.
Qed.

Lemma tensor_array_rows (p : Params A) (fd : FeedDict) ta :
  length (b1 p) = 1%nat → graph.tensor_array p fd = Ok ta →
  ∀ j t, ta !! j = Some (Some t) → length t = 1%nat.
Proof.
  intros Hb Hta. unfold graph.tensor_array in Hta.
  apply fmap_Ok in Hta as ([ta' i'] & Hloop & ->). simpl.
  apply (while_loop_invariant
           (λ s : TensorArray A * nat, ∀ j t, s.1 !! j = Some (Some t) → length t = 1%nat))
    in Hloop as [Hinv _]; [exact Hinv| |].
  - intros [ta0 i0] [ta1 i1] Hinv _ Hbody j t. simpl in *.
    unfold graph.loop_body in Hbody.
    apply bind_Ok in Hbody as (lf & _ & Hbody).
    apply bind_Ok in Hbody as (w & _ & Hbody).
    apply bind_Ok in Hbody as (l & _ & Hbody).
    apply bind_Ok in Hbody as (r & _ & Hbody).
    apply bind_Ok in Hbody as (t0 & Ht0 & Hbody).
    apply bind_Ok in Hbody as (ta2 & Hw & Hbody).
    injection Hbody as <- <-. intros Hj.
    destruct (write_lookup _ _ _ _ _ _ Hw Hj) as [->|Hold]; [|by eapply Hinv].
    destruct lf.
    + unfold graph.embed_word in Ht0. apply bind_Ok in Ht0 as (row & _ & Ht0).
      by injection Ht0 as <-.
    + apply bind_Ok in Ht0 as (L & HL & Ht0). apply bind_Ok in Ht0 as (R & HR & Ht0).
      injection Ht0 as <-. apply read_Ok in HL as [_ HL], HR as [_ HR].
      apply combine_children_rows; [done|by eapply Hinv|by eapply Hinv].
  - intros j t. simpl. unfold tf.TensorArray_new. by rewrite lookup_nil.
Qed.

Lemma TensorArray_concat_rows ta (table : tensor A) :
  (∀ j t, ta !! j = Some (Some t) → length t = 1%nat) →
  tf.TensorArray_concat ta = Ok table → length table = length ta.
Proof.
  intros Hrows Hc. unfold tf.TensorArray_concat in Hc.
  assert (Hm : ∃ ts, mapM_result
                 (λ slot : option (tensor A),
                    match slot with Some t => Ok t | None => Raise InvalidArgumentError end) ta
               = Ok ts ∧ table = List.concat ts).
  { destruct ta; [discriminate|]. by apply fmap_Ok in Hc. }
  clear Hc. destruct Hm as (ts & Hts & ->).
  revert ts Hts. induction ta as [|slot ta IH]; intros ts Hts; simpl in Hts.
  - by injection Hts as <-.
  - apply bind_Ok in Hts as (t & Ht & Hts). apply bind_Ok in Hts as (ts' & Hts' & Hts).
    injection Hts as <-. destruct slot as [t0|]; [|discriminate]. injection Ht as ->.
    simpl. rewrite length_app, (Hrows 0%nat t eq_refl). f_equal.
    apply IH; [|done]. intros j t'. apply (Hrows (S j)).
Qed.

Lemma matmul_rows (a b : tensor A) : length (tf.matmul a b) = length a.
Proof. unfold tf.matmul. by rewrite length_fmap. Qed.

Lemma add_bias_rows (x : tensor A) (b : list A) : length (tf.add x [b]) = length x.
Proof. unfold tf.add. by rewrite length_fmap. Qed.

(** One row of logits per node. *)
Lemma logits_rows (p : Params A) (fd : FeedDict) (lg : tensor A) :
  length (b1 p) = 1%nat → length (bs p) = 1%nat →
  graph.logits p fd = Ok lg → length lg = length (is_leaf_placeholder fd).
Proof.
  intros Hb1 Hbs Hlg. unfold graph.logits in Hlg.
  apply bind_Ok in Hlg as (ta & Hta & Hlg). apply bind_Ok in Hlg as (table & Htab & Hlg).
  injection Hlg as <-.
  destruct (bs p) as [|b [|]]; try discriminate.
  rewrite add_bias_rows, matmul_rows.
  rewrite (TensorArray_concat_rows ta table); [|by eapply tensor_array_rows|done].
  by apply tensor_array_table in Hta as [-> _].
Qed.

Lemma TensorArray_concat_total ta :
  ta ≠ [] → (∀ j, (j < length ta)%nat → ∃ t, ta !! j = Some (Some t)) →
  is_Ok (tf.TensorArray_concat ta).
Proof.
  intros Hne Hall. unfold tf.TensorArray_concat.
  destruct (mapM_result_Ok
              (λ slot : option (tensor A),
                 match slot with Some t => Ok t | None => Raise InvalidArgumentError end) ta)
    as [ts Hts].
  { intros slot Hslot. apply list_elem_of_lookup in Hslot as [j Hj].
    destruct (Hall j) as [t Ht]; [by eapply lookup_lt_Some|].
    assert (slot = Some t) as -> by congruence. by eexists. }
  destruct ta; [done|]. rewrite Hts. by eexists.
Qed.

Lemma logits_total (p : Params A) (fd : FeedDict) :
  well_formed_feed p fd → (0 < length (is_leaf_placeholder fd))%nat →
  is_Ok (graph.logits p fd).
Proof.
  intros Hwf HN. unfold graph.logits.
  destruct (tensor_array_total p fd Hwf) as [ta Hta]. rewrite Hta. simpl.
  destruct (tensor_array_table p fd ta Hta) as [Hlen Hok].
  destruct (TensorArray_concat_total ta) as [table Htab].
  - intros ->. simpl in Hlen. lia.
  - intros j Hj. destruct (Hok j Hj) as (t & Ht & _). eauto.
  - rewrite Htab. by eexists.
Qed.

(** With variables of the declared shapes every entry of the table is one
    row of [embed_size] scalars. *)
Lemma tensor_array_shapes (c : Config A) (v : utils.Vocab) (p : Params A)
    (fd : FeedDict) ta :
  declared_shapes c v p → graph.tensor_array p fd = Ok ta →
  ∀ j t, ta !! j = Some (Some t) → has_shape 1 (embed_size c) t.
Proof.
  intros (Hemb & HW1 & Hb1 & _) Hta. unfold graph.tensor_array in Hta.
  apply fmap_Ok in Hta as ([ta' i'] & Hloop & ->). simpl.
  apply (while_loop_invariant
           (λ s : TensorArray A * nat,
              ∀ j t, s.1 !! j = Some (Some t) → has_shape 1 (embed_size c) t))
    in Hloop as [Hinv _]; [exact Hinv| |].
  - intros [ta0 i0] [ta1 i1] Hinv _ Hbody j t. simpl in *.
    unfold graph.loop_body in Hbody.
    apply bind_Ok in Hbody as (lf & _ & Hbody).
    apply bind_Ok in Hbody as (w & _ & Hbody).
    apply bind_Ok in Hbody as (l & _ & Hbody).
    apply bind_Ok in Hbody as (r & _ & Hbody).
    apply bind_Ok in Hbody as (t0 & Ht0 & Hbody).
    apply bind_Ok in Hbody as (ta2 & Hw & Hbody).
    injection Hbody as <- <-. intros Hj.
    destruct (write_lookup _ _ _ _ _ _ Hw Hj) as [->|Hold]; [|by eapply Hinv].
    destruct lf.
    + unfold graph.embed_word in Ht0. apply bind_Ok in Ht0 as (row & Hrow & Ht0).
      injection Ht0 as <-. apply gather_Ok in Hrow as [_ Hrow].
      split; [done|]. apply Forall_singleton.
      destruct Hemb as [_ Hemb]. rewrite Forall_forall in Hemb. apply Hemb.
      by eapply list_elem_of_lookup_2.
    + apply bind_Ok in Ht0 as (L & HL & Ht0). apply bind_Ok in Ht0 as (R & HR & Ht0).
      injection Ht0 as <-. apply read_Ok in HL as [_ HL], HR as [_ HR].
      destruct (Hinv _ _ HL) as [HL1 _], (Hinv _ _ HR) as [HR1 _].
      destruct L as [|rl [|]]; try discriminate.
      destruct R as [|rr [|]]; try discriminate.
      destruct Hb1 as [Hb1 Hb1w]. destruct (b1 p) as [|b [|]] eqn:Hb; try discriminate.
      apply Forall_inv in Hb1w.
      unfold graph.combine_children, tf.relu, tf.add, tf.matmul, tf.concat1.
      rewrite Hb. simpl. split; [done|]. apply Forall_singleton.
      rewrite length_fmap, length_zip_with, length_fmap, length_seq, Hb1w.
      destruct HW1 as [HW1 HW1w]. destruct (W1 p) as [|r1 rs]; simpl in *; [lia|].
      apply Forall_inv in HW1w. lia.
  - intros j t. simpl. unfold tf.TensorArray_new. by rewrite lookup_nil.
Qed.

End rows.

(** ** The nodes that enter the full loss *)

Lemma mapM_result_app {X Y} (f : X → result Y) (xs ys : list X) :
  mapM_result f (xs ++ ys)
  = (a ← mapM_result f xs; b ← mapM_result f ys; Ok (a ++ b)).
Proof.
  induction xs as [|x xs IH]; simpl.
  - by destruct (mapM_result f ys).
  - destruct (f x) as [y|e]; simpl; [|done]. rewrite IH.
    destruct (mapM_result f xs) as [a|e]; simpl; [|done].
    by destruct (mapM_result f ys).
Qed.

Lemma filter_ext_elem {X} (P Q : X → Prop) `{∀ x, Decision (P x)} `{∀ x, Decision (Q x)}
    (l : list X) :
  (∀ x, x ∈ l → P x ↔ Q x) → filter P l = filter Q l.
Proof.
  induction l as [|x l IH]; intros Hext; [done|].
  rewrite !filter_cons. rewrite IH by (intros y Hy; apply Hext; by right).
  destruct (decide (P x)) as [HP|HP], (decide (Q x)) as [HQ|HQ]; try done;
    exfalso; apply (Hext x) in HP || apply (Hext x) in HQ; try done; by left.
Qed.

Lemma where_less_snoc (ys : list Z) (y bound : Z) :
  tf.where_ (tf.less (ys ++ [y]) bound)
  = tf.where_ (tf.less ys bound) ++ (if bool_decide (y < bound) then [length ys] else []).
Proof.
  unfold tf.where_, tf.less. rewrite fmap_app, length_app, !length_fmap. simpl.
  rewrite Nat.add_1_r, seq_S, filter_app. simpl. f_equal.
  - apply filter_ext_elem. intros i Hi. apply elem_of_seq in Hi.
    rewrite lookup_app_l by (rewrite length_fmap; lia). done.
  - rewrite filter_cons, filter_nil.
    rewrite lookup_app_r by (rewrite length_fmap; lia).
    rewrite length_fmap, Nat.sub_diag. simpl.
    by case_bool_decide; destruct (decide _) as [Hd|Hd].
Qed.

(** Gathering at [where(labels < 2)] keeps, in order, the entries whose label
    is below 2. *)
Lemma gather_included {X} (l : list (X * Z)) :
  mapM_result (λ i, tf.gather (l.*1) (Z.of_nat i)) (tf.where_ (tf.less (l.*2) 2))
  = Ok ((filter (λ zy, zy.2 < 2) l).*1) ∧
  mapM_result (λ i, tf.gather (l.*2) (Z.of_nat i)) (tf.where_ (tf.less (l.*2) 2))
  = Ok ((filter (λ zy, zy.2 < 2) l).*2).
Proof.
  induction l as [|[z y] l [IH1 IH2]] using rev_ind; [done|].
  rewrite !fmap_app, !list_fmap_singleton. cbn [fst snd].
  rewrite where_less_snoc, filter_app, !fmap_app, !mapM_result_app.
  assert (Hin : ∀ i, i ∈ tf.where_ (tf.less (l.*2) 2) → (i < length l)%nat).
  { intros i Hi. unfold tf.where_ in Hi. apply list_elem_of_filter in Hi as [_ Hi].
    apply elem_of_seq in Hi. unfold tf.less in Hi. rewrite !length_fmap in Hi. lia. }
  rewrite (mapM_result_ext (λ i, tf.gather (l.*1 ++ [z]) (Z.of_nat i))
             (λ i, tf.gather (l.*1) (Z.of_nat i)) (tf.where_ (tf.less (l.*2) 2))).
  2:{ intros i Hi. apply Hin in Hi. unfold tf.gather.
      rewrite Nat2Z.id, lookup_app_l by (rewrite length_fmap; lia). done. }
  rewrite (mapM_result_ext (λ i, tf.gather (l.*2 ++ [y]) (Z.of_nat i))
             (λ i, tf.gather (l.*2) (Z.of_nat i)) (tf.where_ (tf.less (l.*2) 2))).
  2:{ intros i Hi. apply Hin in Hi. unfold tf.gather.
      rewrite Nat2Z.id, lookup_app_l by (rewrite length_fmap; lia). done. }
  rewrite IH1, IH2. simpl. rewrite filter_cons, filter_nil. simpl.
  case_bool_decide as Hy; destruct (decide (y < 2)) as [Hd|Hd]; try lia; simpl.
  - assert (H1 : (l.*1 ++ [z]) !! length (l.*2) = Some z).
    { rewrite lookup_app_r; rewrite !length_fmap; [by rewrite Nat.sub_diag|lia]. }
    assert (H2 : (l.*2 ++ [y]) !! length (l.*2) = Some y).
    { rewrite lookup_app_r; [by rewrite Nat.sub_diag|lia]. }
    by rewrite (proj2 (gather_nat _ _ _) H1), (proj2 (gather_nat _ _ _) H2).
  - by rewrite !app_nil_r.
Qed.

Section loss.
Context {A : Type} `{FloatOps A}.

(** C3.  On a well-formed feed, with the bias variables of one row each and
    labels that are class numbers or the marker 2 (numbers of a [tf.int32]
    tensor, none negative), the full loss is
    [l2 * (l2_loss(W1) + l2_loss(U)) + sum of the cross-entropies],
    with one cross-entropy for each node whose label is 0 or 1, taken between
    that node's row of logits and its label, and none for any other node: a
    node labelled 2 is not among the included indices.  There is one row of
    logits per node, and the logits are produced whenever the tree has a
    node. *)
Theorem full_loss_sum (p : Params A) (fd : FeedDict) (l2 : A) :
  well_formed_feed p fd → length (b1 p) = 1%nat → length (bs p) = 1%nat →
  Forall (λ y, int32 y ∧ 0 ≤ y) (labels_placeholder fd) →
  ((0 < length (is_leaf_placeholder fd))%nat → is_Ok (graph.logits p fd)) ∧
  (∀ lg, graph.logits p fd = Ok lg → length lg = length (labels_placeholder fd)) ∧
  graph.full_loss p fd l2
  = (lg ← graph.logits p fd;
     losses ← mapM_result (λ zy, f_softmax_xent zy.1 zy.2)
                (filter (λ zy : list A * Z, zy.2 = 0 ∨ zy.2 = 1)
                   (zip lg (labels_placeholder fd)));
     Ok (f_add (f_mul l2 (f_add (tf.l2_loss (W1 p)) (tf.l2_loss (U p))))
               (tf.reduce_sum losses))) ∧
  (∀ i, labels_placeholder fd !! i = Some 2 → i ∉ graph.included_indices fd).
Proof.
  intros Hwf Hb1 Hbs Hlabels.
  assert (Hlen : ∀ lg, graph.logits p fd = Ok lg →
                       length lg = length (labels_placeholder fd)).
  { intros lg Hlg. rewrite (logits_rows p fd lg Hb1 Hbs Hlg).
    symmetry. apply Hwf. }
  split; [by apply logits_total|]. split; [exact Hlen|]. split.
  - unfold graph.full_loss, graph.included_indices, graph.regularization_loss.
    destruct (graph.logits p fd) as [lg|e] eqn:Hlg; [|done]. simpl.
    specialize (Hlen lg eq_refl).
    destruct (gather_included (zip lg (labels_placeholder fd))) as [Hz Hy].
    rewrite fst_zip, snd_zip in Hz by lia. rewrite snd_zip in Hy by lia.
    rewrite Hz, Hy. simpl.
    unfold tf.sparse_softmax_cross_entropy_with_logits.
    rewrite bool_decide_eq_true_2 by (by rewrite !length_fmap).
    rewrite zip_fst_snd.
    rewrite (filter_ext_elem (λ zy : list A * Z, zy.2 < 2)
               (λ zy : list A * Z, zy.2 = 0 ∨ zy.2 = 1)); [done|].
    intros [z y] Hzy. simpl.
    assert (int32 y ∧ 0 ≤ y) as [_ Hy0]; [|lia].
    rewrite Forall_forall in Hlabels. apply Hlabels.
    apply (list_elem_of_fmap_2 snd) in Hzy.
    rewrite snd_zip in Hzy by lia. done.
  - intros i Hi Hin. unfold graph.included_indices, tf.where_, tf.less in Hin.
    apply list_elem_of_filter in Hin as [Hin _].
    rewrite list_lookup_fmap, Hi in Hin. vm_compute in Hin. discriminate.
Qed.

End loss.

(** The test of the graph is [label < 2]: a label below 0, which no parsed
    tree carries, would be handed to the kernel as well. *)
Example negative_label_included :
  graph.included_indices (mkFeedDict [true] [-1] [-1] [1] [-1]) = [0%nat].
Proof. vm_compute. reflexivity. Qed.

Lemma full_loss_sum_witness :
  well_formed_feed example.params example.fd_ab ∧
  length (b1 example.params) = 1%nat ∧ length (bs example.params) = 1%nat ∧
  Forall (λ y, int32 y ∧ 0 ≤ y) (labels_placeholder example.fd_ab) ∧
  graph.full_loss example.params example.fd_ab 0.02%float
  = (lg ← graph.logits example.params example.fd_ab;
     losses ← mapM_result (λ zy, f_softmax_xent zy.1 zy.2)
                (filter (λ zy : list float * Z, zy.2 = 0 ∨ zy.2 = 1)
                   (zip lg (labels_placeholder example.fd_ab)));
     Ok (f_add (f_mul 0.02%float
                  (f_add (tf.l2_loss (W1 example.params)) (tf.l2_loss (U example.params))))
               (tf.reduce_sum losses))).
Proof.
  assert (Hl : Forall (λ y, int32 y ∧ 0 ≤ y) (labels_placeholder example.fd_ab)).
  { simpl. unfold int32. repeat constructor; lia. }
  split; [exact example_fd_ab_well_formed|].
  split; [reflexivity|]. split; [reflexivity|]. split; [exact Hl|].
  exact (proj1 (proj2 (proj2
    (full_loss_sum example.params example.fd_ab 0.02%float
       example_fd_ab_well_formed eq_refl eq_refl Hl)))).
Defined.

Section root.
Context {A : Type} `{FloatOps A}.

Lemma drop_pred_last {X} (l : list X) (y : X) :
  last l = Some y → drop (length l - 1) l = [y].
Proof.
  intros Hl. apply last_Some in Hl as [l' ->].
  rewrite length_app. simpl.
  replace (length l' + 1 - 1)%nat with (length l') by lia.
  apply drop_app_length.
Qed.

(** C4.  On a well-formed feed of at least one node, with the bias variables
    of one row each, the root loss is the cross-entropy between the root
    logits, which are the last entry of the table times [U] plus [bs], and
    the last label of the feed, whatever that label is: no label is excluded,
    the marker 2 included. *)
Theorem root_loss_own_label (p : Params A) (fd : FeedDict) :
  well_formed_feed p fd → length (b1 p) = 1%nat → length (bs p) = 1%nat →
  (0 < length (is_leaf_placeholder fd))%nat →
  ∃ ta root z y,
    graph.tensor_array p fd = Ok ta ∧
    length ta = length (is_leaf_placeholder fd) ∧
    tf.read ta (tf.size ta - 1) = Ok [root] ∧
    graph.root_logits p fd = Ok [z] ∧
    [z] = tf.add (tf.matmul [root] (U p)) (bs p) ∧
    last (labels_placeholder fd) = Some y ∧
    graph.root_loss p fd = (loss ← f_softmax_xent z y; Ok (tf.reduce_sum [loss])).
Proof.
  intros Hwf Hb1 Hbs HN.
  destruct (tensor_array_total p fd Hwf) as [ta Hta].
  destruct (tensor_array_table p fd ta Hta) as [Hlen Hok].
  destruct (Hok (length ta - 1)%nat) as (t & Ht & _); [lia|].
  pose proof (tensor_array_rows p fd ta Hb1 Hta _ _ Ht) as Hrow.
  destruct t as [|root [|]]; try discriminate. clear Hrow.
  assert (Hread : tf.read ta (tf.size ta - 1) = Ok [root]).
  { apply read_Ok. unfold tf.size. split; [lia|].
    by replace (Z.to_nat (Z.of_nat (length ta) - 1)) with (length ta - 1)%nat by lia. }
  destruct (bs p) as [|b [|]] eqn:Hb; try discriminate.
  destruct (last (labels_placeholder fd)) as [y|] eqn:Hy.
  2:{ apply last_None in Hy. destruct Hwf as (_ & _ & _ & Hlbl & _).
      rewrite Hy in Hlbl. simpl in Hlbl. lia. }
  assert (Hrl : graph.root_logits p fd = Ok (tf.add (tf.matmul [root] (U p)) [b])).
  { unfold graph.root_logits. rewrite Hta. simpl. rewrite Hread. simpl. by rewrite Hb. }
  eexists ta, root, _, y. split; [done|]. split; [done|]. split; [done|].
  split; [exact Hrl|]. split; [done|]. split; [done|].
  unfold graph.root_loss. rewrite Hrl. simpl.
  rewrite (drop_pred_last _ y Hy).
  unfold tf.sparse_softmax_cross_entropy_with_logits. simpl.
  by destruct (f_softmax_xent _ y).
Qed.

End root.

Lemma root_loss_own_label_witness :
  well_formed_feed example.params example.fd_root2 ∧
  length (b1 example.params) = 1%nat ∧ length (bs example.params) = 1%nat ∧
  (0 < length (is_leaf_placeholder example.fd_root2))%nat ∧
  ∃ ta root z y,
    graph.tensor_array example.params example.fd_root2 = Ok ta ∧
    length ta = length (is_leaf_placeholder example.fd_root2) ∧
    tf.read ta (tf.size ta - 1) = Ok [root] ∧
    graph.root_logits example.params example.fd_root2 = Ok [z] ∧
    [z] = tf.add (tf.matmul [root] (U example.params)) (bs example.params) ∧
    last (labels_placeholder example.fd_root2) = Some y ∧
    graph.root_loss example.params example.fd_root2
    = (loss ← f_softmax_xent z y; Ok (tf.reduce_sum [loss])).
Proof.
  assert (Hwf : well_formed_feed example.params example.fd_root2).
  { apply (build_feed_dict_well_formed example.self example.params example.t_root2).
    - unfold tree.tree_shaped. apply (bool_decide_unpack _). vm_compute. exact I.
    - vm_compute. reflexivity.
    - apply vocab_ok_construct.
    - vm_compute. reflexivity.
    - vm_compute. reflexivity. }
  assert (HN : (0 < length (is_leaf_placeholder example.fd_root2))%nat) by (simpl; lia).
  split; [exact Hwf|]. split; [reflexivity|]. split; [reflexivity|]. split; [exact HN|].
  exact (root_loss_own_label example.params example.fd_root2 Hwf eq_refl eq_refl HN).
Defined.

(** With the CPU kernel a root labelled 2 is left out of the full loss and
    makes the root loss fail: the two losses treat the marker differently. *)
Example root_label_2 :
  is_Ok (graph.full_loss example.params example.fd_root2 0.02%float) ∧
  graph.root_loss example.params example.fd_root2 = Raise InvalidArgumentError.
Proof. split; [eexists|]; vm_compute; reflexivity. Qed.

(** ** Word indices *)

Lemma is_Ok_b_from_result {X} (d : X) (m : result X) :
  is_Ok_b m = true → m = Ok (from_result d m).
Proof. by destruct m. Qed.

Lemma build_feed_dict_lookup {A} (self : RecursiveNetStaticGraph A) (n : tree.Node)
    (fd : FeedDict) (i : nat) (m : tree.Node) :
  build_feed_dict self (Some n) = Ok fd → postorder n !! i = Some m →
  is_leaf_placeholder fd !! i = Some (tree.isLeaf m) ∧
  node_word_indices_placeholder fd !! i
    = Some (if truthy (tree.word m)
            then Z.of_nat (utils.encode (vocab self) (default ""%string (tree.word m)))
            else -1) ∧
  labels_placeholder fd !! i = Some (tree.label m) ∧
  (tree.isLeaf m = true →
   left_children_placeholder fd !! i = Some (-1) ∧
   right_children_placeholder fd !! i = Some (-1)).
Proof.
  unfold build_feed_dict. rewrite nodes_list_of_Some. intros Hfd Hm.
  apply bind_Ok in Hfd as (lefts & Hl & Hfd).
  apply bind_Ok in Hfd as (rights & Hr & Hfd).
  injection Hfd as <-. simpl. rewrite !list_lookup_fmap, Hm. simpl.
  split; [done|]. split; [done|]. split; [done|]. intros Hleaf. split.
  - rewrite (mapM_result_lookup _ _ _ i Hl), Hm. simpl. by rewrite Hleaf.
  - rewrite (mapM_result_lookup _ _ _ i Hr), Hm. simpl. by rewrite Hleaf.
Qed.

Section words.
Context {A : Type} `{FloatOps A} `{Runtime A}.

Lemma init_vocab_ok (config : Config A)
    (data : list tree.Tree * list tree.Tree * list tree.Tree) :
  vocab_ok (vocab (__init__ config data)).
Proof. destruct data as [[tr dv] te]. simpl. apply vocab_ok_construct. Qed.

(** C9, as the code has it.  The word index of a node is decided by its word
    and not by its leaf flag.  A node with a word that is not empty gets the
    id the vocabulary gives the word: a row of the embedding matrix, and the
    id of the unknown token when the vocabulary does not hold the word; at a
    leaf the child entries are [-1] and the step of the executor for it
    succeeds, writing that row of the embedding matrix.  A node with no word,
    or with the empty word, gets [-1]. *)
Theorem word_index_by_word (config : Config A)
    (data : list tree.Tree * list tree.Tree * list tree.Tree)
    (p : Params A) (n : tree.Node) (fd : FeedDict) (i : nat) (m : tree.Node) :
  let self := __init__ config data in
  build_feed_dict self (Some n) = Ok fd → postorder n !! i = Some m →
  length (embeddings p) = utils.len (vocab self) →
  (∀ w, tree.word m = Some w → w ≠ ""%string →
     node_word_indices_placeholder fd !! i = Some (Z.of_nat (utils.encode (vocab self) w)) ∧
     (utils.encode (vocab self) w < utils.len (vocab self))%nat ∧
     (utils.word_to_index (vocab self) !! w = None →
      utils.encode (vocab self) w = utils.encode (vocab self) (utils.unknown (vocab self))) ∧
     (tree.isLeaf m = true →
      left_children_placeholder fd !! i = Some (-1) ∧
      right_children_placeholder fd !! i = Some (-1) ∧
      ∀ ta : TensorArray A, length ta = i →
        ∃ row, embeddings p !! utils.encode (vocab self) w = Some row ∧
               graph.loop_body p fd (ta, i) = Ok (ta ++ [Some [row]], S i))) ∧
  (tree.word m = None ∨ tree.word m = Some ""%string →
   node_word_indices_placeholder fd !! i = Some (-1)).
Proof.
  intros self Hfd Hm Hemb.
  destruct (build_feed_dict_lookup self n fd i m Hfd Hm) as (Hlf & Hw & _ & Hch).
  pose proof (init_vocab_ok config data) as Hv. fold self in Hv.
  split.
  - intros w Hword Hne. rewrite Hword in Hw. simpl in Hw.
    rewrite bool_decide_eq_false_2 in Hw by done. simpl in Hw.
    split; [done|]. split; [by apply encode_lt|]. split; [apply encode_unknown|].
    intros Hleaf. destruct (Hch Hleaf) as [Hl Hr]. split; [done|]. split; [done|].
    intros ta Hlen.
    destruct (lookup_lt_is_Some_2 (embeddings p) (utils.encode (vocab self) w))
      as [row Hrow]; [rewrite Hemb; by apply encode_lt|].
    exists row. split; [done|]. unfold graph.loop_body.
    rewrite Hleaf in Hlf.
    rewrite (proj2 (gather_nat _ _ _) Hlf). simpl.
    rewrite (proj2 (gather_nat _ _ _) Hw). simpl.
    rewrite (proj2 (gather_nat _ _ _) Hl). simpl.
    rewrite (proj2 (gather_nat _ _ _) Hr). simpl.
    unfold graph.embed_word. rewrite (proj2 (gather_nat _ _ _) Hrow). simpl.
    by rewrite <- Hlen, write_end.
  - intros [Hword|Hword]; rewrite Hword in Hw; exact Hw.
Qed.

End words.

(** A leaf object with no word is given the index [-1], which is no row of the
    embedding matrix: the variables have the declared shapes and the
    executor fails on the feed. *)
Lemma leaf_without_word_fails :
  declared_shapes example.config (vocab example.self) example.params ∧
  build_feed_dict example.self (Some example.t_noword) = Ok example.fd_noword ∧
  node_word_indices_placeholder example.fd_noword = [-1] ∧
  graph.tensor_array example.params example.fd_noword = Raise InvalidArgumentError ∧
  root_prediction example.self example.params example.fd_noword
  = Raise InvalidArgumentError.
Proof.
  split; [repeat split; try (vm_compute; reflexivity); repeat constructor|].
  repeat split; vm_compute; reflexivity.
Qed.

Lemma word_index_by_word_witness :
  build_feed_dict example.self (Some example.t_oov)
  = Ok (mkFeedDict [true] [-1] [-1] [0] [1]) ∧
  postorder example.t_oov !! 0%nat = Some example.t_oov ∧
  length (embeddings example.params) = utils.len (vocab example.self) ∧
  node_word_indices_placeholder (mkFeedDict [true] [-1] [-1] [0] [1]) !! 0%nat
  = Some (Z.of_nat (utils.encode (vocab example.self) "zzz")) ∧
  utils.encode (vocab example.self) "zzz"
  = utils.encode (vocab example.self) (utils.unknown (vocab example.self)).
Proof.
  assert (H1 : build_feed_dict example.self (Some example.t_oov)
               = Ok (mkFeedDict [true] [-1] [-1] [0] [1])) by (vm_compute; reflexivity).
  assert (H2 : postorder example.t_oov !! 0%nat = Some example.t_oov) by reflexivity.
  assert (H3 : length (embeddings example.params) = utils.len (vocab example.self))
    by (vm_compute; reflexivity).
  pose proof (proj1 (word_index_by_word example.config example.data example.params
                       example.t_oov _ 0%nat example.t_oov H1 H2 H3)
                "zzz"%string eq_refl ltac:(discriminate)) as (Hw & _ & Hunk & _).
  split; [exact H1|]. split; [exact H2|]. split; [exact H3|].
  split; [exact Hw|]. apply Hunk. vm_compute. reflexivity.
Defined.

(** ** Paths and checkpoints *)

Lemma string_length_app (a b : string) :
  String.length (a +:+ b) = (String.length a + String.length b)%nat.
Proof. induction a as [|c a IH]; simpl; [done|]. by rewrite IH. Qed.

(** Two paths of different lengths are different paths. *)
Ltac by_length :=
  let Heq := fresh "Heq" in
  intros Heq; apply (f_equal String.length) in Heq;
  rewrite ?string_length_app in Heq; simpl in Heq;
  rewrite ?string_length_app in Heq; simpl in Heq; lia.

Lemma last_char_app (a b : string) :
  b ≠ EmptyString → last_char (a +:+ b) = last_char b.
Proof.
  intros Hb. induction a as [|c a IH]; [done|].
  change (String c a +:+ b) with (String c (a +:+ b)).
  destruct (a +:+ b) as [|c' s'] eqn:Hab.
  - destruct a; simpl in Hab; [done|discriminate].
  - by rewrite <- IH.
Qed.

Lemma checkpoint_state_last (prefix : string) :
  last_char (checkpoint_state_path prefix) = Some "t"%char.
Proof.
  unfold checkpoint_state_path, path_join.
  change (starts_with_slash "checkpoint") with false. cbv iota.
  case_bool_decide; by rewrite !last_char_app.
Qed.

Lemma checkpoint_files_distinct (prefix : string) :
  data_path prefix ≠ index_path prefix ∧ data_path prefix ≠ meta_path prefix ∧
  index_path prefix ≠ meta_path prefix ∧
  data_path prefix ≠ checkpoint_state_path prefix ∧
  index_path prefix ≠ checkpoint_state_path prefix ∧
  meta_path prefix ≠ checkpoint_state_path prefix.
Proof.
  unfold data_path, index_path, meta_path.
  repeat split; intros Heq;
    try (apply (inj (String.app prefix)) in Heq; discriminate);
    apply (f_equal last_char) in Heq;
    rewrite checkpoint_state_last, last_char_app in Heq by done; discriminate.
Qed.

Section checkpoint_files.
Context {A : Type} `{FloatOps A} `{Runtime A}.
Implicit Types (self : RecursiveNetStaticGraph A) (w : World A) (sess : Params A).

Lemma Saver_save_data w (path : string) sess :
  files (Saver_save w path sess) !! data_path path = Some (Data sess).
Proof.
  destruct (checkpoint_files_distinct path) as (? & ? & ? & ? & ? & ?).
  unfold Saver_save. simpl. by rewrite !lookup_insert_ne, lookup_insert_eq by done.
Qed.

Lemma Saver_save_index w (path : string) sess :
  files (Saver_save w path sess) !! index_path path = Some Index.
Proof.
  destruct (checkpoint_files_distinct path) as (? & ? & ? & ? & ? & ?).
  unfold Saver_save. simpl. by rewrite !lookup_insert_ne, lookup_insert_eq by done.
Qed.



Lemma Saver_save_other w (path : string) sess (q : string) :
  q ∉ checkpoint_files path → files (Saver_save w path sess) !! q = files w !! q.
Proof.
  unfold checkpoint_files. rewrite !not_elem_of_cons. intros (? & ? & ? & ? & _).
  unfold Saver_save. simpl. by rewrite !lookup_insert_ne by done.
Qed.

(** A restore succeeds exactly on an index and a data file. *)
Lemma Saver_restore_Ok w (path : string) sess :
  Saver_restore w path = Ok sess ↔
  files w !! index_path path = Some Index ∧ files w !! data_path path = Some (Data sess).
Proof.
  unfold Saver_restore. split.
  - destruct (files w !! index_path path) as [[]|]; try discriminate.
    + destruct (files w !! data_path path) as [[]|]; try discriminate.
      by intros [= ->].
    + destruct (files w !! path); discriminate.
  - by intros [-> ->].
Qed.

(** What [Saver.save] writes, [Saver.restore] reads back. *)
Lemma Saver_restore_save w (path : string) sess :
  Saver_restore (Saver_save w path sess) path = Ok sess.
Proof. apply Saver_restore_Ok. by rewrite Saver_save_index, Saver_save_data. Qed.

Lemma temp_path_ne_best_path self : temp_path self ≠ best_path self.
Proof. unfold temp_path, best_path. by_length. Qed.

(** No file of the temporary checkpoint is at the prefix itself. *)
Lemma temp_path_not_checkpoint_file self :
  temp_path self ∉ checkpoint_files (temp_path self).
Proof.
  unfold checkpoint_files, data_path, index_path, meta_path.
  rewrite !not_elem_of_cons. repeat split; try by_length; [|apply not_elem_of_nil].
  intros Heq. apply (f_equal last_char) in Heq.
  rewrite checkpoint_state_last in Heq. unfold temp_path in Heq.
  assert (Hne : model_name (config self) +:+ ".temp" ≠ EmptyString)
    by (by destruct (model_name (config self))).
  rewrite (last_char_app _ _ Hne), last_char_app in Heq by done. discriminate.
Qed.

(** The best path is none of the files of the temporary checkpoint, unless
    the model is named so that it is the state file of the directory. *)
Lemma best_path_not_checkpoint_file self :
  best_path self ≠ checkpoint_state_path (temp_path self) →
  best_path self ∉ checkpoint_files (temp_path self).
Proof.
  intros Hstate. unfold checkpoint_files, data_path, index_path, meta_path.
  rewrite !not_elem_of_cons.
  repeat split; [| |done| |apply not_elem_of_nil];
    unfold best_path, temp_path; by_length.
Qed.

Lemma best_path_ne_temp_files self :
  index_path (temp_path self) ≠ best_path self ∧
  data_path (temp_path self) ≠ best_path self.
Proof.
  unfold index_path, data_path, best_path, temp_path. split; by_length.
Qed.

(** The copy [train] makes: from the prefix of the temporary checkpoint. *)
Lemma copyfile_temp_best self w :
  copyfile w (temp_path self) (best_path self)
  = match files w !! temp_path self with
    | Some content => Ok (mkWorld (clock w) (<[best_path self := content]> (files w)))
    | None => Raise FileNotFoundError
    end.
Proof.
  unfold copyfile. destruct (files w !! temp_path self); [|done].
  by rewrite bool_decide_eq_false_2 by apply temp_path_ne_best_path.
Qed.

End checkpoint_files.

(** ** The epoch loop *)

Section training.
Context {A : Type} `{FloatOps A} `{Runtime A}.
Implicit Types (self : RecursiveNetStaticGraph A) (w : World A) (v : TrainVars A).

(** [run_epoch] changes nothing of [self] but the order of the training
    trees, and leaves the checkpoint of the epoch behind. *)
Lemma run_epoch_Ok self (new_model : bool) w r self' w' :
  run_epoch self new_model w = Ok (r, self', w') →
  self' = set_train_data self (random_shuffle (clock w) (train_data self)) ∧
  ∃ sess, files w' = files (Saver_save w (temp_path self) sess).
Proof.
  unfold run_epoch. intros Hrun.
  apply bind_Ok in Hrun as ([sess0 w0] & Hinit & Hrun).
  apply bind_Ok in Hrun as ([lh sess] & _ & Hrun).
  apply bind_Ok in Hrun as ([tp tl] & _ & Hrun).
  apply bind_Ok in Hrun as ([vp vl] & _ & Hrun).
  apply bind_Ok in Hrun as (c1 & _ & Hrun).
  apply bind_Ok in Hrun as (c2 & _ & Hrun).
  injection Hrun as <- <- <-. split; [done|]. exists sess.
  assert (Hw0 : files w0 = files w).
  { destruct new_model.
    - by injection Hinit as <- <-.
    - apply bind_Ok in Hinit as (s0 & _ & Hinit). by injection Hinit as <- <-. }
  unfold Saver_save. simpl. by rewrite Hw0.
Qed.

(** [run_epoch] writes no file at the prefix of its checkpoint. *)
Lemma run_epoch_temp_path self (new_model : bool) w r self' w' :
  run_epoch self new_model w = Ok (r, self', w') →
  files w' !! temp_path self = files w !! temp_path self.
Proof.
  intros Hrun. destruct (run_epoch_Ok _ _ _ _ _ _ Hrun) as [_ [sess ->]].
  apply Saver_save_other, temp_path_not_checkpoint_file.
Qed.

(** [run_epoch] does not read [self.config.lr]: with any other value in its
    place it returns the same losses and accuracies and leaves the same
    files. *)
Lemma run_epoch_reads_no_lr self (x : A) (b : bool) w :
  run_epoch (set_config self (set_lr (config self) x)) b w
  = (λ out : EpochResult * RecursiveNetStaticGraph A * World A,
       (out.1.1, set_config out.1.2 (set_lr (config out.1.2) x), out.2))
    <$> run_epoch self b w.
Proof.
  unfold run_epoch.
  change (temp_path (set_train_data (set_config self (set_lr (config self) x))
       (random_shuffle (clock w) (train_data (set_config self (set_lr (config self) x))))))
    with (temp_path (set_train_data self (random_shuffle (clock w) (train_data self)))).
  set (self1 := set_train_data self (random_shuffle (clock w) (train_data self))).
  set (self2 := set_train_data (set_config self (set_lr (config self) x)) _).
  assert (Hp : ∀ trees path g w', predict self2 trees path g w' = predict self1 trees path g w') by reflexivity.
  change (train_data self2) with (train_data self1).
  change (dev_data self2) with (dev_data self1).
  destruct (if b then _ else _) as [[sess w0]|e]; simpl; [|done].
  change (foldM _ ([], sess) (train_data self1)) with
    (foldM (λ '(loss_history, sess) t,
         feed_dict ← build_feed_dict self1 (Some (tree.root t));
         loss_value ← full_loss self1 sess feed_dict;
         sess' ← train_op self1 sess feed_dict;
         Ok (loss_history ++ [loss_value], sess')) ([], sess) (train_data self1)).
  destruct (foldM _ _ _) as [[lh sess']|e]; simpl; [|done].
  rewrite !Hp.
  destruct (predict _ _ _ false _) as [[tp tl]|e]; simpl; [|done].
  destruct (predict _ _ _ true _) as [[vp vl]|e]; simpl; [|done].
  destruct (make_conf _ tp) as [c1|e]; simpl; [|done].
  destruct (make_conf _ vp) as [c2|e]; simpl; [|done].
  reflexivity.
Qed.

(** One iteration of the loop, read off a successful run of its body. *)
Lemma train_body_Ok self w v (epoch : nat) self' w' v' :
  train_body (self, w, v) epoch = Ok (self', w', v') →
  ∃ r self1 w1,
    run_epoch self (bool_decide (epoch = 0%nat)) w = Ok (r, self1, w1) ∧
    self1 = set_train_data self (random_shuffle (clock w) (train_data self)) ∧
    let epoch_loss := np_mean (r_loss_history r) in
    self' = (if f_lt (f_mul (prev_epoch_loss v) (anneal_threshold (config self))) epoch_loss
             then set_config self1
                    (set_lr (config self) (f_div (lr (config self)) (anneal_by (config self))))
             else self1) ∧
    complete_loss_history v' = complete_loss_history v ++ r_loss_history r ∧
    train_acc_history v' = train_acc_history v ++ [r_train_acc r] ∧
    val_acc_history v' = val_acc_history v ++ [r_val_acc r] ∧
    prev_epoch_loss v' = epoch_loss ∧
    best_val_loss v' = (if f_lt (r_val_loss r) (best_val_loss v)
                        then r_val_loss r else best_val_loss v) ∧
    best_val_epoch v' = (if f_lt (r_val_loss r) (best_val_loss v)
                         then epoch else best_val_epoch v) ∧
    stopped v' = (if bool_decide (Z.of_nat epoch - Z.of_nat (best_val_epoch v')
                                  > early_stopping (config self))
                  then Z.of_nat epoch else stopped v).
Proof.
  unfold train_body. intros Hbody.
  apply bind_Ok in Hbody as ([[r self1] w1] & Hrun & Hbody).
  destruct (run_epoch_Ok _ _ _ _ _ _ Hrun) as [Hself1 _].
  exists r, self1, w1. split; [done|]. split; [done|].
  assert (Hcfg : config self1 = config self) by (by subst self1).
  rewrite Hcfg in Hbody.
  apply bind_Ok in Hbody as ([[w2 bl] be] & Hck & Hbody).
  injection Hbody as <- <- <-. simpl.
  assert (Hes : ∀ s : RecursiveNetStaticGraph A,
            s = (if f_lt (f_mul (prev_epoch_loss v) (anneal_threshold (config self)))
                      (np_mean (r_loss_history r))
                 then set_config self1
                        (set_lr (config self)
                           (f_div (lr (config self)) (anneal_by (config self))))
                 else self1) →
            early_stopping (config s) = early_stopping (config self)).
  { intros s ->. destruct (f_lt (f_mul _ _) _); simpl; by rewrite ?Hcfg. }
  rewrite (Hes _ eq_refl).
  destruct (f_lt (r_val_loss r) (best_val_loss v)).
  - apply bind_Ok in Hck as (w3 & _ & Hck). by injection Hck as <- <- <-.
  - by injection Hck as <- <- <-.
Qed.

(** The copy of an iteration: when the validation loss of the epoch is below
    the best one, the file at the prefix of the temporary checkpoint, as it
    was before the epoch, goes to the best path; there is no copy
    otherwise. *)
Lemma train_body_files self w v (epoch : nat) r self1 w1 :
  run_epoch self (bool_decide (epoch = 0%nat)) w = Ok (r, self1, w1) →
  if f_lt (r_val_loss r) (best_val_loss v)
  then match files w !! temp_path self with
       | None => train_body (self, w, v) epoch = Raise FileNotFoundError
       | Some content =>
           ∃ self' v', train_body (self, w, v) epoch
                       = Ok (self', mkWorld (clock w1)
                                      (<[best_path self := content]> (files w1)), v')
       end
  else ∃ self' v', train_body (self, w, v) epoch = Ok (self', w1, v').
Proof.
  intros Hrun. pose proof (run_epoch_temp_path _ _ _ _ _ _ Hrun) as Htemp.
  destruct (run_epoch_Ok _ _ _ _ _ _ Hrun) as [Hself1 _].
  unfold train_body. rewrite Hrun. simpl.
  assert (Hcopy : ∀ s : RecursiveNetStaticGraph A,
            model_name (config s) = model_name (config self) →
            copyfile w1 (temp_path s) (best_path s)
            = match files w !! temp_path self with
              | Some content =>
                  Ok (mkWorld (clock w1) (<[best_path self := content]> (files w1)))
              | None => Raise FileNotFoundError
              end).
  { intros s Hs. rewrite copyfile_temp_best.
    unfold temp_path, best_path in *. by rewrite Hs, Htemp. }
  destruct (f_lt (r_val_loss r) (best_val_loss v)); simpl; [|by eexists _, _].
  rewrite Hcopy by (subst self1; by destruct (f_lt (f_mul _ _) _)).
  destruct (files w !! temp_path self); simpl; [by eexists _, _|done].
Qed.

(** The body returns exactly when [run_epoch] returns and the copy, if one
    is due, finds a file to copy. *)
Lemma train_body_is_Ok self w v (epoch : nat) :
  is_Ok (train_body (self, w, v) epoch) ↔
  ∃ r self1 w1,
    run_epoch self (bool_decide (epoch = 0%nat)) w = Ok (r, self1, w1) ∧
    (f_lt (r_val_loss r) (best_val_loss v) = true →
     is_Some (files w !! temp_path self)).
Proof.
  split.
  - intros [[[self' w'] v'] Hbody].
    destruct (train_body_Ok _ _ _ _ _ _ _ Hbody) as (r & self1 & w1 & Hrun & _).
    exists r, self1, w1. split; [done|]. intros Hlt.
    pose proof (train_body_files self w v epoch r self1 w1 Hrun) as Hf.
    rewrite Hlt in Hf. destruct (files w !! temp_path self); [by eexists|].
    congruence.
  - intros (r & self1 & w1 & Hrun & Hcopy).
    pose proof (train_body_files self w v epoch r self1 w1 Hrun) as Hf.
    destruct (f_lt (r_val_loss r) (best_val_loss v)).
    + destruct (Hcopy eq_refl) as [content Hc]. rewrite Hc in Hf.
      destruct Hf as (self' & v' & ->). by eexists.
    + destruct Hf as (self' & v' & ->). by eexists.
Qed.

Lemma train_loop_S self w (n : nat) :
  train_loop self w (S n) = (train_loop self w n ≫= λ st, train_body st n).
Proof. unfold train_loop. by rewrite seq_S, foldM_snoc. Qed.

End training.

Section epoch_loop.
Context {A : Type} `{FloatOps A} `{Runtime A}.

(** C5.  Take two consecutive epochs of the loop, with mean training losses
    [L0] and then [L1].  After the second one the learning rate of the
    configuration is its previous value divided by [anneal_by] when
    [L1 > L0 * anneal_threshold], and its previous value otherwise.  The
    class attributes are [anneal_threshold = 0.99] and [anneal_by = 1.5]. *)
Theorem anneal_between_epochs
    (st st1 st2 : RecursiveNetStaticGraph A * World A * TrainVars A) (epoch : nat) :
  train_body st epoch = Ok st1 → train_body st1 (S epoch) = Ok st2 →
  (∃ r0 r1 s0 w0 s1 w1,
     run_epoch st.1.1 (bool_decide (epoch = 0%nat)) st.1.2 = Ok (r0, s0, w0) ∧
     run_epoch st1.1.1 false st1.1.2 = Ok (r1, s1, w1) ∧
     let L0 := np_mean (r_loss_history r0) in
     let L1 := np_mean (r_loss_history r1) in
     lr (config st2.1.1)
     = if f_lt (f_mul L0 (anneal_threshold (config st1.1.1))) L1
       then f_div (lr (config st1.1.1)) (anneal_by (config st1.1.1))
       else lr (config st1.1.1)) ∧
  anneal_threshold Config_defaults = 0.99%float ∧
  anneal_by Config_defaults = 1.5%float.
Proof.
  destruct st as [[self w] v], st1 as [[self1 w1] v1], st2 as [[self2 w2] v2].
  intros Hb1 Hb2. split; [|done].
  apply train_body_Ok in Hb1 as (r0 & s0 & w0 & Hrun0 & _ & _ & _ & _ & _ & Hprev & _).
  apply train_body_Ok in Hb2 as (r1 & s1 & w1' & Hrun1 & Hs1 & Hself2 & _).
  simpl in Hrun1. exists r0, r1, s0, w0, s1, w1'. simpl.
  split; [done|]. split; [done|].
  rewrite <- Hprev. rewrite Hself2. subst s1.
  by destruct (f_lt (f_mul _ _) _).
Qed.

(** C6.  The training op is built once, by [__init__], from the learning rate
    the configuration holds at that moment (0.01 in the class).  After any
    number of epochs of [train] it is still that op: run on variables [p] and
    a feed it moves each variable by [lr * gradient] with the [lr] of
    construction, whatever [self.config.lr] has become in between; and an
    epoch run with any other value in [self.config.lr] returns the same
    losses and leaves the same checkpoint. *)
Theorem train_op_step_size (config0 : Config A)
    (data : list tree.Tree * list tree.Tree * list tree.Tree)
    (w : World A) (n : nat)
    (st : RecursiveNetStaticGraph A * World A * TrainVars A) :
  train_loop (__init__ config0 data) w n = Ok st →
  train_op st.1.1
  = GradientDescentOptimizer_minimize (lr config0)
      (λ p fd, graph.full_loss p fd (l2 config0)) ∧
  (∀ p fd g,
     tf_gradients (λ p fd, graph.full_loss p fd (l2 config0)) p fd = Ok g →
     train_op st.1.1 p fd
     = Ok (mkParams
             (apply_gradient_descent (lr config0) (embeddings p) (embeddings g))
             (apply_gradient_descent (lr config0) (W1 p) (W1 g))
             (apply_gradient_descent (lr config0) (b1 p) (b1 g))
             (apply_gradient_descent (lr config0) (U p) (U g))
             (apply_gradient_descent (lr config0) (bs p) (bs g)))) ∧
  (∀ (x : A) (new_model : bool) (w' : World A),
     run_epoch (set_config st.1.1 (set_lr (config st.1.1) x)) new_model w'
     = (λ out : EpochResult * RecursiveNetStaticGraph A * World A,
          (out.1.1, set_config out.1.2 (set_lr (config out.1.2) x), out.2))
       <$> run_epoch st.1.1 new_model w') ∧
  lr Config_defaults = 0.01%float.
Proof.
  intros Hloop.
  assert (Hop : train_op st.1.1 = train_op (__init__ config0 data)).
  { revert st Hloop. induction n as [|n IH]; intros st Hloop.
    - by injection Hloop as <-.
    - rewrite train_loop_S in Hloop. apply bind_Ok in Hloop as (st' & Hst' & Hbody).
      rewrite <- (IH st' Hst').
      destruct st' as [[self' w'] v'], st as [[self w1] v].
      apply train_body_Ok in Hbody as (r & s1 & w2 & _ & -> & -> & _). simpl.
      by destruct (f_lt (f_mul _ _) _). }
  assert (Hinit : train_op (__init__ config0 data)
                  = GradientDescentOptimizer_minimize (lr config0)
                      (λ p fd, graph.full_loss p fd (l2 config0))).
  { by destruct data as [[tr dv] te]. }
  rewrite Hop, Hinit. split; [done|]. split; [|split; [|done]].
  - intros p fd g Hg. unfold GradientDescentOptimizer_minimize. by rewrite Hg.
  - intros x new_model w'. apply run_epoch_reads_no_lr.
Qed.

(** C7.  When [epoch - best_val_epoch > early_stopping] at the end of an
    iteration, the iteration records [epoch] in [stopped], and that is all it
    does: the loop has no exit of its own.  The loop is its body run for the
    epochs [0], [1], ... in turn; a run of [n] iterations that returns has
    run the body at every epoch below [n], whatever [stopped] was, and has
    [n] entries in every history.  The loop returns as long as the body
    raises nothing, and the body returns exactly when [run_epoch] returns
    and, if the validation loss is below the best one, there is a file to
    copy at the prefix of the temporary checkpoint.  [train] is the loop run
    for [max_epochs] iterations.  The class attributes are
    [early_stopping = 2] and [max_epochs = 30]. *)
Theorem early_stopping_is_recorded :
  (∀ (st st' : RecursiveNetStaticGraph A * World A * TrainVars A) (epoch : nat),
     train_body st epoch = Ok st' →
     stopped st'.2
     = if bool_decide (Z.of_nat epoch - Z.of_nat (best_val_epoch st'.2)
                       > early_stopping (config st.1.1))
       then Z.of_nat epoch else stopped st.2) ∧
  (∀ (self : RecursiveNetStaticGraph A) (w : World A),
     train_loop self w 0 = Ok (self, w, train_init)) ∧
  (∀ (self : RecursiveNetStaticGraph A) (w : World A) (n : nat),
     train_loop self w (S n) = (train_loop self w n ≫= λ st, train_body st n)) ∧
  (∀ (self : RecursiveNetStaticGraph A) (w : World A) (n : nat) st,
     train_loop self w n = Ok st →
     length (train_acc_history st.2) = n ∧ length (val_acc_history st.2) = n ∧
     ∀ k, (k < n)%nat →
       ∃ stk stk', train_loop self w k = Ok stk ∧ train_body stk k = Ok stk' ∧
                   train_loop self w (S k) = Ok stk') ∧
  (∀ (self : RecursiveNetStaticGraph A) (w : World A) (n : nat),
     (∀ k st, (k < n)%nat → train_loop self w k = Ok st → is_Ok (train_body st k)) →
     is_Ok (train_loop self w n)) ∧
  (∀ (self : RecursiveNetStaticGraph A) (w : World A) (v : TrainVars A) (epoch : nat),
     is_Ok (train_body (self, w, v) epoch) ↔
     ∃ r self1 w1,
       run_epoch self (bool_decide (epoch = 0%nat)) w = Ok (r, self1, w1) ∧
       (f_lt (r_val_loss r) (best_val_loss v) = true →
        is_Some (files w !! temp_path self))) ∧
  (∀ (self : RecursiveNetStaticGraph A) (w : World A),
     train self w = train_loop self w (max_epochs (config self))) ∧
  early_stopping Config_defaults = 2 ∧ max_epochs Config_defaults = 30%nat.
Proof.
  split; [|split; [done|split; [exact train_loop_S|split; [|split; [|split; [|done]]]]]].
  - intros [[self w] v] [[self' w'] v'] epoch Hbody.
    apply train_body_Ok in Hbody
      as (r & s1 & w1 & _ & _ & _ & _ & _ & _ & _ & _ & _ & Hstop).
    exact Hstop.
  - intros self w n. induction n as [|n IH]; intros st Hloop.
    + injection Hloop as <-. split; [done|]. split; [done|]. intros k Hk. lia.
    + pose proof Hloop as Hloop'.
      rewrite train_loop_S in Hloop. apply bind_Ok in Hloop as (st' & Hst' & Hbody).
      destruct (IH st' Hst') as (IH1 & IH2 & IH3).
      split; [|split].
      * destruct st' as [[self' w'] v'], st as [[self1 w1] v].
        apply train_body_Ok in Hbody as (r & s1 & w2 & _ & _ & _ & _ & Ht & _).
        simpl in *. rewrite Ht, length_app, IH1. simpl. lia.
      * destruct st' as [[self' w'] v'], st as [[self1 w1] v].
        apply train_body_Ok in Hbody as (r & s1 & w2 & _ & _ & _ & _ & _ & Hv & _).
        simpl in *. rewrite Hv, length_app, IH2. simpl. lia.
      * intros k Hk. destruct (decide (k = n)) as [->|Hne].
        -- by exists st', st.
        -- apply IH3. lia.
  - intros self w n. induction n as [|n IH]; intros Hrun; [by eexists|].
    rewrite train_loop_S.
    destruct IH as [st' Hst']; [intros k st Hk; apply Hrun; lia|].
    rewrite Hst'. simpl. exact (Hrun n st' (Nat.lt_succ_diag_r n) Hst').
  - exact train_body_is_Ok.
Qed.

End epoch_loop.

(** ** The example run *)

Lemma is_Ok_b_is_Ok {X} (m : result X) : is_Ok_b m = true → is_Ok m.
Proof. destruct m; [by eexists|done]. Qed.

Lemma anneal_between_epochs_witness :
  train_body example.st0 0 = Ok example.st1 ∧
  train_body example.st1 1 = Ok example.st2 ∧
  ∃ r0 r1 s0 w0 s1 w1,
    run_epoch example.st0.1.1 (bool_decide (0 = 0)%nat) example.st0.1.2 = Ok (r0, s0, w0) ∧
    run_epoch example.st1.1.1 false example.st1.1.2 = Ok (r1, s1, w1) ∧
    let L0 := np_mean (r_loss_history r0) in
    let L1 := np_mean (r_loss_history r1) in
    lr (config example.st2.1.1)
    = if f_lt (f_mul L0 (anneal_threshold (config example.st1.1.1))) L1
      then f_div (lr (config example.st1.1.1)) (anneal_by (config example.st1.1.1))
      else lr (config example.st1.1.1).
Proof.
  assert (H1 : train_body example.st0 0 = Ok example.st1).
  { apply is_Ok_b_from_result. vm_compute. reflexivity. }
  assert (H2 : train_body example.st1 1 = Ok example.st2).
  { apply is_Ok_b_from_result. vm_compute. reflexivity. }
  split; [exact H1|]. split; [exact H2|].
  exact (proj1 (anneal_between_epochs example.st0 example.st1 example.st2 0 H1 H2)).
Defined.

(** In the example the mean loss falls by less than one percent from the
    first epoch to the second, and the learning rate of the configuration
    goes from 0.001 to 0.001 / 1.5. *)
Example anneal_example :
  lr (config example.st1.1.1) = 0.001%float ∧
  PrimFloat.ltb (PrimFloat.mul (prev_epoch_loss example.st1.2) 0.99)
    (prev_epoch_loss example.st2.2) = true ∧
  lr (config example.st2.1.1) = (0.001 / 1.5)%float.
Proof. repeat split; vm_compute; reflexivity. Qed.

Lemma train_op_step_size_witness :
  train_loop (__init__ example.config example.data_nodev) example.world 2
  = Ok example.after2 ∧
  train_op example.after2.1.1
  = GradientDescentOptimizer_minimize (lr example.config)
      (λ p fd, graph.full_loss p fd (l2 example.config)) ∧
  lr (config example.after2.1.1) = (lr example.config / 1.5)%float.
Proof.
  assert (H1 : train_loop (__init__ example.config example.data_nodev) example.world 2
               = Ok example.after2).
  { apply is_Ok_b_from_result. vm_compute. reflexivity. }
  split; [exact H1|]. split.
  - exact (proj1 (train_op_step_size example.config example.data_nodev example.world 2
                    example.after2 H1)).
  - vm_compute. reflexivity.
Defined.

Lemma early_stopping_is_recorded_witness :
  train_body example.st3 3 = Ok example.st4 ∧
  stopped example.st4.2
  = (if bool_decide (Z.of_nat 3 - Z.of_nat (best_val_epoch example.st4.2)
                     > early_stopping (config example.st3.1.1))
     then Z.of_nat 3 else stopped example.st3.2) ∧
  is_Ok (train_loop example.self_nodev example.world 1).
Proof.
  assert (H1 : train_body example.st3 3 = Ok example.st4).
  { apply is_Ok_b_from_result. vm_compute. reflexivity. }
  split; [exact H1|]. split.
  - exact (proj1 early_stopping_is_recorded example.st3 example.st4 3%nat H1).
  - apply (proj1 (proj2 (proj2 (proj2 (proj2 early_stopping_is_recorded))))
             example.self_nodev example.world 1%nat).
    intros k st Hk Hst. assert (k = 0%nat) as -> by lia.
    injection Hst as <-. apply is_Ok_b_is_Ok. vm_compute. reflexivity.
Defined.

(** The example run without validation trees: the flag is set at epoch 3 and
    again at epoch 4, and the loop makes all five iterations of
    [max_epochs = 5]. *)
Example early_stopping_example :
  stopped example.st3.2 = -1 ∧ stopped example.st4.2 = 3 ∧
  is_Ok_b (train example.self_nodev example.world) = true ∧
  stopped (from_result example.st0 (train example.self_nodev example.world)).2 = 4 ∧
  length (train_acc_history
            (from_result example.st0 (train example.self_nodev example.world)).2)
  = 5%nat.
Proof. repeat split; vm_compute; reflexivity. Qed.

(** With a validation tree the first epoch has a validation loss below
    infinity, the copy finds no file at the prefix of the checkpoint
    [run_epoch] has just saved, and [train] ends there. *)
Example train_stops_at_the_copy :
  is_Ok_b (run_epoch example.self true example.world) = true ∧
  train example.self example.world = Raise FileNotFoundError.
Proof. split; vm_compute; reflexivity. Qed.

(** * Further properties *)

(** ** The flattener: malformed trees, the root, the empty reference *)

Lemma mapM_result_id_KeyError (es : list (result Z)) :
  (∀ e, e ∈ es → is_Ok e ∨ e = Raise KeyError) →
  (∃ e, e ∈ es ∧ e = Raise KeyError) →
  mapM_result id es = Raise KeyError.
Proof.
  induction es as [|e es IH]; intros Hall (e' & He' & Hraise).
  - by apply elem_of_nil in He'.
  - simpl. destruct (Hall e) as [[z ->]| ->]; [left| |done]. simpl.
    apply elem_of_cons in He' as [->|He']; [done|].
    rewrite IH; [done| |by eauto]. intros x Hx. apply Hall. by right.
Qed.

Lemma mapM_result_id_cases (es : list (result Z)) :
  (∀ e, e ∈ es → is_Ok e ∨ e = Raise KeyError) →
  (is_Ok (mapM_result id es) ∧ ∀ e, e ∈ es → is_Ok e) ∨
  mapM_result id es = Raise KeyError.
Proof.
  induction es as [|e es IH]; intros Hall; simpl.
  - left. split; [by eexists|]. intros e He. by apply elem_of_nil in He.
  - destruct (Hall e) as [[z ->]| ->]; [left| |by right]. simpl.
    destruct IH as [[[zs ->] Hok]| ->]; [intros x Hx; apply Hall; by right| |by right].
    left. split; [by eexists|]. intros x Hx.
    apply elem_of_cons in Hx as [->|Hx]; [by eexists|by apply Hok].
Qed.

Lemma child_indices_entries (side : bool) (s : tree.shape) :
  ∀ off e, e ∈ flat.child_indices side off s → is_Ok e ∨ e = Raise KeyError.
Proof.
  induction s as [lf w lbl l r IHl IHr] using shape_induction. intros off e.
  cbn [flat.child_indices]. rewrite !elem_of_app, list_elem_of_singleton.
  intros [He|[He| ->]].
  - destruct l as [x|]; [by eapply IHl|by apply elem_of_nil in He].
  - destruct r as [x|]; [by eapply IHr|by apply elem_of_nil in He].
  - destruct lf; [left; by eexists|].
    destruct side; [destruct l|destruct r]; (left; by eexists) || by right.
Qed.

Lemma child_indices_incomplete (n : tree.Node) :
  tree.complete n = false →
  ∀ off, ∃ side, Raise KeyError ∈ flat.child_indices side off (tree.erase n).
Proof.
  induction n as [o lf w lbl l r IHl IHr] using Node_induction.
  cbn [tree.complete tree.erase flat.child_indices]. intros Hc off.
  apply andb_false_iff in Hc as [Hc|Hc]; [apply andb_false_iff in Hc as [Hc|Hc]|].
  - apply orb_false_iff in Hc as [-> Hc].
    apply andb_false_iff in Hc as [Hc|Hc]; apply bool_decide_eq_false in Hc.
    + exists true. destruct l as [x|]; [exfalso; apply Hc; by eexists|].
      rewrite !elem_of_app, list_elem_of_singleton. right. by right.
    + exists false. destruct r as [x|]; [exfalso; apply Hc; by eexists|].
      rewrite !elem_of_app, list_elem_of_singleton. right. by right.
  - destruct l as [x|]; [|done].
    destruct (IHl x eq_refl Hc off) as [side Hs].
    exists side. rewrite !elem_of_app. by left.
  - destruct r as [y|]; [|done].
    destruct (IHr y eq_refl Hc
                (off + match l with
                       | Some x => length (flat.nodes (tree.erase x))
                       | None => 0
                       end)%nat) as [side Hs].
    exists side. rewrite !elem_of_app. right. left. by destruct l.
Qed.

(** X1.  On a tree, [build_feed_dict] either returns a feed or raises
    [KeyError], and it raises exactly when some node that is not flagged as a
    leaf lacks a child: the lookup [node_to_index[None]] is the only thing
    that can go wrong. *)
Theorem build_feed_dict_KeyError {A} (self : RecursiveNetStaticGraph A) (n : tree.Node) :
  tree.tree_shaped n →
  (tree.complete n = true ∧ is_Ok (build_feed_dict self (Some n))) ∨
  (tree.complete n = false ∧ build_feed_dict self (Some n) = Raise KeyError).
Proof.
  intros Hn. rewrite (build_feed_dict_flatten self n Hn).
  destruct (tree.complete n) eqn:Hc; [left|right]; (split; [done|]).
  - by apply flatten_complete.
  - unfold flat.flatten.
    destruct (child_indices_incomplete n Hc 0%nat) as [side Hs].
    destruct (mapM_result_id_cases (flat.child_indices true 0 (tree.erase n))
                (child_indices_entries true _ _)) as [[[lefts ->] Hok]| ->]; [|done].
    simpl. destruct side.
    + destruct (Hok _ Hs) as [z [=]].
    + rewrite (mapM_result_id_KeyError (flat.child_indices false 0 (tree.erase n)));
        [done|apply child_indices_entries|by eauto].
Qed.

Lemma build_feed_dict_KeyError_witness :
  tree.tree_shaped example.t_half ∧
  tree.complete example.t_half = false ∧
  build_feed_dict example.self (Some example.t_half) = Raise KeyError.
Proof.
  assert (Hn : tree.tree_shaped example.t_half).
  { unfold tree.tree_shaped. apply (bool_decide_unpack _). vm_compute. exact I. }
  split; [exact Hn|].
  destruct (build_feed_dict_KeyError example.self example.t_half Hn) as [[Hc _]|H];
    [discriminate Hc|exact H].
Defined.

(** X2.  [build_feed_dict(None)] is the feed of no node.  On a feed of no
    node, whatever the other arrays and the variables are, the loop makes no
    iteration and leaves an empty table, and every tensor that reads the
    root entry [size() - 1] of it (the root logits, the prediction and the
    root loss) fails with [InvalidArgumentError]. *)
Theorem empty_feed_has_no_root {A} `{FloatOps A} (self : RecursiveNetStaticGraph A)
    (p : Params A) (lefts rights words labels : list Z) :
  build_feed_dict self None = Ok (mkFeedDict [] [] [] [] []) ∧
  graph.tensor_array p (mkFeedDict [] lefts rights words labels) = Ok [] ∧
  graph.root_logits p (mkFeedDict [] lefts rights words labels)
  = Raise InvalidArgumentError ∧
  graph.root_prediction p (mkFeedDict [] lefts rights words labels)
  = Raise InvalidArgumentError ∧
  graph.root_loss p (mkFeedDict [] lefts rights words labels)
  = Raise InvalidArgumentError.
Proof. repeat split; reflexivity. Qed.

(** X3.  A feed has one entry per node in each of its five arrays, and the
    root comes last: the last leaf flag and the last label are those of the
    root.  This is what lets the graph take [labels[-1:]] and the last table
    entry for the root. *)
Theorem build_feed_dict_root_last {A} (self : RecursiveNetStaticGraph A)
    (n : tree.Node) (fd : FeedDict) :
  build_feed_dict self (Some n) = Ok fd →
  (0 < length (tree.oids n))%nat ∧
  length (is_leaf_placeholder fd) = length (tree.oids n) ∧
  length (left_children_placeholder fd) = length (tree.oids n) ∧
  length (right_children_placeholder fd) = length (tree.oids n) ∧
  length (node_word_indices_placeholder fd) = length (tree.oids n) ∧
  length (labels_placeholder fd) = length (tree.oids n) ∧
  last (is_leaf_placeholder fd) = Some (tree.isLeaf n) ∧
  last (labels_placeholder fd) = Some (tree.label n).
Proof.
  intros Hfd.
  destruct (build_feed_dict_fields self n fd Hfd) as (Hlf & Hl & Hr & Hw & Hlbl).
  rewrite <- oid_postorder, length_fmap.
  rewrite Hlf, Hl, Hr, Hw, Hlbl, !length_fmap, !fmap_last.
  destruct (postorder_last n) as [_ Hpos].
  assert (Hlast : last (postorder n) = Some n).
  { destruct (postorder_snoc n) as [init ->]. apply last_snoc. }
  by rewrite Hlast.
Qed.

Lemma build_feed_dict_root_last_witness :
  build_feed_dict example.self (Some example.t_ab) = Ok example.fd_ab ∧
  length (is_leaf_placeholder example.fd_ab) = length (tree.oids example.t_ab) ∧
  last (labels_placeholder example.fd_ab) = Some (tree.label example.t_ab).
Proof.
  assert (H1 : build_feed_dict example.self (Some example.t_ab) = Ok example.fd_ab)
    by (vm_compute; reflexivity).
  split; [exact H1|].
  pose proof (build_feed_dict_root_last example.self example.t_ab example.fd_ab H1)
    as (_ & Hlen & _ & _ & _ & _ & _ & Hlast).
  split; [exact Hlen|exact Hlast].
Defined.

(** ** The executor: what it accepts and what it computes *)

Section executor.
Context {A : Type} `{FloatOps A}.
Implicit Types (ta : TensorArray A) (t : tensor A).

Lemma while_loop_raise {S} (P : exn → Prop) (cond : S → bool) (body : S → result S) :
  (∀ s e, body s = Raise e → P e) →
  ∀ fuel s e, tf.while_loop fuel cond body s = Raise e → e = FuelExhausted ∨ P e.
Proof.
  intros Hbody. induction fuel as [|fuel IH]; intros s e Hloop; simpl in Hloop;
    destruct (cond s); try discriminate.
  - injection Hloop as <-. by left.
  - apply bind_Raise in Hloop as [Hb|(s' & _ & Hloop)]; [right; by eapply Hbody|].
    by eapply IH.
Qed.

Lemma tensor_array_raise (p : Params A) (fd : FeedDict) (e : exn) :
  graph.tensor_array p fd = Raise e → e = InvalidArgumentError.
Proof.
  intros Hta. pose proof (tensor_array_fuel p fd) as Hfuel.
  unfold graph.tensor_array in Hta, Hfuel.
  destruct (tf.while_loop _ _ _ _) as [?|e'] eqn:Hloop; [done|].
  injection Hta as ->.
  apply (while_loop_raise (λ e, e = InvalidArgumentError)) in Hloop as [->|He];
    [done|done|].
  intros [ta i] e'. apply loop_body_raise.
Qed.

(** X4.  The executor fails with [InvalidArgumentError] and nothing else, and
    it succeeds only on a feed that puts children first: when the table is
    returned, every position flagged as a leaf has a word index that is a row
    of the embedding matrix, and every other position names two positions
    before it.  A forward reference, or a leaf with index [-1], cannot slip
    through. *)
Theorem tensor_array_accepts (p : Params A) (fd : FeedDict) :
  (∀ e, graph.tensor_array p fd = Raise e → e = InvalidArgumentError) ∧
  (∀ ta, graph.tensor_array p fd = Ok ta →
     ∀ i lf, is_leaf_placeholder fd !! i = Some lf →
       ∃ w l r : Z,
         node_word_indices_placeholder fd !! i = Some w ∧
         left_children_placeholder fd !! i = Some l ∧
         right_children_placeholder fd !! i = Some r ∧
         if lf : bool then 0 ≤ w < Z.of_nat (length (embeddings p))
         else (0 ≤ l < Z.of_nat i) ∧ (0 ≤ r < Z.of_nat i)).
Proof.
  split; [intros e; apply tensor_array_raise|].
  intros ta Hta. unfold graph.tensor_array in Hta.
  apply fmap_Ok in Hta as ([ta' i'] & Hloop & ->).
  apply (while_loop_invariant
           (λ s : TensorArray A * nat,
              length s.1 = s.2 ∧
              ∀ i lf, (i < s.2)%nat → is_leaf_placeholder fd !! i = Some lf →
                ∃ w l r : Z,
                  node_word_indices_placeholder fd !! i = Some w ∧
                  left_children_placeholder fd !! i = Some l ∧
                  right_children_placeholder fd !! i = Some r ∧
                  if lf : bool then 0 ≤ w < Z.of_nat (length (embeddings p))
                  else (0 ≤ l < Z.of_nat i) ∧ (0 ≤ r < Z.of_nat i)))
    in Hloop as [[_ Hinv] Hcond].
  - intros i lf Hlf. apply Hinv; [|done].
    unfold graph.loop_cond in Hcond. simpl in Hcond.
    apply bool_decide_eq_false in Hcond. apply lookup_lt_Some in Hlf.
    simpl in *. lia.
  - intros [ta0 i0] [ta1 i1] [Hlen Hinv] _ Hbody. simpl in *.
    pose proof (loop_body_counter _ _ _ _ _ _ Hbody) as ->.
    unfold graph.loop_body in Hbody.
    apply bind_Ok in Hbody as (lf0 & Hlf0 & Hbody).
    apply bind_Ok in Hbody as (w & Hw & Hbody).
    apply bind_Ok in Hbody as (l & Hl & Hbody).
    apply bind_Ok in Hbody as (r & Hr & Hbody).
    apply bind_Ok in Hbody as (t0 & Ht0 & Hbody).
    apply bind_Ok in Hbody as (ta2 & Hwr & Hbody).
    injection Hbody as <-. apply gather_nat in Hlf0, Hw, Hl, Hr.
    rewrite <- Hlen, write_end in Hwr. injection Hwr as <-.
    split; [rewrite length_app; simpl; lia|].
    intros i lf Hi Hlf. destruct (decide (i < i0)%nat) as [Hlt|Hge]; [by apply Hinv|].
    assert (i = i0) as -> by lia.
    assert (lf = lf0) as -> by congruence.
    exists w, l, r. split; [done|]. split; [done|]. split; [done|].
    destruct lf0.
    + unfold graph.embed_word in Ht0. apply bind_Ok in Ht0 as (row & Hrow & _).
      apply gather_Ok in Hrow as [Hw0 Hrow]. apply lookup_lt_Some in Hrow. lia.
    + apply bind_Ok in Ht0 as (L & HL & Ht0). apply bind_Ok in Ht0 as (R & HR & _).
      apply read_Ok in HL as [Hl0 HL], HR as [Hr0 HR].
      apply lookup_lt_Some in HL, HR. lia.
  - split; [done|]. intros i lf Hi. simpl in Hi. lia.
Qed.

(** X5.  On a well-formed feed the table holds, at every position flagged as
    a leaf, the row of the embedding matrix at the word index of the node,
    as a tensor of one row and otherwise as it is in the matrix. *)
Theorem executor_embeds_leaves (p : Params A) (fd : FeedDict) :
  well_formed_feed p fd →
  ∃ ta, graph.tensor_array p fd = Ok ta ∧
    ∀ i, is_leaf_placeholder fd !! i = Some true →
      ∃ w row,
        node_word_indices_placeholder fd !! i = Some w ∧
        embeddings p !! Z.to_nat w = Some row ∧
        tf.read ta (Z.of_nat i) = Ok [row].
Proof.
  intros Hwf. destruct (tensor_array_total p fd Hwf) as [ta Hta].
  exists ta. split; [done|].
  destruct (tensor_array_table p fd ta Hta) as [Hlen Hok].
  intros i Hi. destruct (Hok i) as (t & Ht & Hspec).
  { rewrite Hlen. by eapply lookup_lt_Some. }
  rewrite Hi in Hspec. destruct Hspec as (w & Hw & Hemb).
  unfold graph.embed_word in Hemb. apply bind_Ok in Hemb as (row & Hrow & Hemb).
  injection Hemb as <-. apply gather_Ok in Hrow as [_ Hrow].
  exists w, row. split; [done|]. split; [done|].
  apply read_Ok. split; [lia|]. by rewrite Nat2Z.id.
Qed.

End executor.

Lemma executor_embeds_leaves_witness :
  well_formed_feed example.params example.fd_ab ∧
  ∃ ta, graph.tensor_array example.params example.fd_ab = Ok ta ∧
    ∀ i, is_leaf_placeholder example.fd_ab !! i = Some true →
      ∃ w row,
        node_word_indices_placeholder example.fd_ab !! i = Some w ∧
        embeddings example.params !! Z.to_nat w = Some row ∧
        tf.read ta (Z.of_nat i) = Ok [row].
Proof.
  split; [exact example_fd_ab_well_formed|].
  exact (executor_embeds_leaves example.params example.fd_ab example_fd_ab_well_formed).
Defined.

(** ** The projection layer *)

Section projection.
Context {A : Type} `{FloatOps A}.
Implicit Types (ta : TensorArray A) (t : tensor A).

Lemma table_as_rows ta :
  (∀ j, (j < length ta)%nat → ∃ t, ta !! j = Some (Some t) ∧ length t = 1%nat) →
  ∃ rows : list (list A), ta = (λ r, Some [r]) <$> rows.
Proof.
  induction ta as [|slot ta IH]; intros Hall; [by exists []|].
  destruct (Hall 0%nat) as (t & Ht & Hlen); [simpl; lia|].
  simpl in Ht. injection Ht as ->. destruct t as [|r [|]]; try discriminate.
  destruct IH as [rows ->].
  - intros j Hj. apply (Hall (S j)). simpl. lia.
  - by exists (r :: rows).
Qed.

Lemma TensorArray_concat_rows_list (rows : list (list A)) :
  rows ≠ [] → tf.TensorArray_concat ((λ r, Some [r]) <$> rows) = Ok rows.
Proof.
  intros Hne.
  assert (Hm : mapM_result
                 (λ slot : option (tensor A),
                    match slot with Some t => Ok t | None => Raise InvalidArgumentError end)
                 ((λ r, Some [r]) <$> rows)
               = Ok ((λ r, [r]) <$> rows)).
  { clear Hne. induction rows as [|r rows IH]; [done|].
    rewrite !fmap_cons. cbn [mapM_result]. simpl. by rewrite IH. }
  assert (Hc : tf.TensorArray_concat ((λ r : list A, Some [r]) <$> rows)
               = (λ ts, List.concat ts) <$> mapM_result
                   (λ slot : option (tensor A),
                      match slot with
                      | Some t => Ok t
                      | None => Raise InvalidArgumentError
                      end) ((λ r, Some [r]) <$> rows)).
  { unfold tf.TensorArray_concat. by destruct rows. }
  rewrite Hc, Hm. simpl. f_equal. clear.
  induction rows as [|r' rows IH]; [done|].
  rewrite fmap_cons. cbn [List.concat app]. by rewrite IH.
Qed.

(** The logits of one row: the row times [U], plus the row of [bs]. *)
Lemma graph_outputs (p : Params A) (fd : FeedDict) (b : list A) :
  well_formed_feed p fd → length (b1 p) = 1%nat → bs p = [b] →
  (0 < length (is_leaf_placeholder fd))%nat →
  ∃ rows root,
    length rows = length (is_leaf_placeholder fd) ∧ last rows = Some root ∧
    graph.tensor_array p fd = Ok ((λ r, Some [r]) <$> rows) ∧
    graph.logits p fd
    = Ok ((λ row, zip_with f_add
                    ((λ j, tf.dot row (tf.column j (U p))) <$> seq 0 (tf.ncols (U p))) b)
          <$> rows) ∧
    graph.root_logits p fd
    = Ok [zip_with f_add
            ((λ j, tf.dot root (tf.column j (U p))) <$> seq 0 (tf.ncols (U p))) b].
Proof.
  intros Hwf Hb1 Hbs HN.
  destruct (tensor_array_total p fd Hwf) as [ta Hta].
  destruct (tensor_array_table p fd ta Hta) as [Hlen Hok].
  destruct (table_as_rows ta) as [rows ->].
  { intros j Hj. destruct (Hok j Hj) as (t & Ht & _). exists t. split; [done|].
    by eapply tensor_array_rows. }
  rewrite length_fmap in Hlen.
  destruct (last rows) as [root|] eqn:Hlast.
  2:{ apply last_None in Hlast. subst rows. simpl in Hlen. lia. }
  exists rows, root. split; [done|]. split; [done|]. split; [done|].
  unfold graph.logits, graph.root_logits. rewrite Hta. simpl.
  rewrite TensorArray_concat_rows_list by (intros ->; simpl in Hlen; lia). simpl.
  rewrite Hbs. split.
  { unfold tf.add, tf.matmul. by rewrite <- list_fmap_compose. }
  assert (Hread : tf.read ((λ r, Some [r]) <$> rows)
                    (tf.size ((λ r : list A, Some [r]) <$> rows) - 1) = Ok [root]).
  { apply read_Ok. unfold tf.size. rewrite length_fmap. split; [lia|].
    replace (Z.to_nat (Z.of_nat (length rows) - 1)) with (pred (length rows)) by lia.
    by rewrite list_lookup_fmap, <- last_lookup, Hlast. }
  by rewrite Hread.
Qed.

(** X6.  The root logits are the last row of the logits: the tensor read for
    the prediction and for the root loss is the one the full loss sees for
    the last node. *)
Theorem root_logits_last_row (p : Params A) (fd : FeedDict) :
  well_formed_feed p fd → length (b1 p) = 1%nat → length (bs p) = 1%nat →
  (0 < length (is_leaf_placeholder fd))%nat →
  ∃ lg z, graph.logits p fd = Ok lg ∧ graph.root_logits p fd = Ok [z] ∧
          length lg = length (is_leaf_placeholder fd) ∧ last lg = Some z.
Proof.
  intros Hwf Hb1 Hbs HN. destruct (bs p) as [|b [|]] eqn:Hb; try discriminate.
  destruct (graph_outputs p fd b Hwf Hb1 Hb HN)
    as (rows & root & Hlen & Hlast & _ & Hlg & Hrl).
  eexists _, _. split; [exact Hlg|]. split; [exact Hrl|].
  split; [by rewrite length_fmap|]. by rewrite fmap_last, Hlast.
Qed.

Lemma argmax_from_lt (row : list A) :
  ∀ best bv i, (best < i)%nat → (tf.argmax_from best bv i row < i + length row)%nat.
Proof.
  induction row as [|v row IH]; intros best bv i Hb; simpl; [lia|].
  destruct (f_lt bv v).
  - pose proof (IH i v (S i)). lia.
  - pose proof (IH best bv (S i)). lia.
Qed.

Lemma argmax_row_lt (row : list A) :
  row ≠ [] → (tf.argmax_row row < length row)%nat.
Proof.
  destruct row as [|v row]; [done|]. intros _. simpl.
  pose proof (argmax_from_lt row 0%nat v 1%nat). lia.
Qed.

(** X7.  With variables of the declared shapes, at least one embedding
    dimension and at least one class, the root prediction of a well-formed
    feed that has a node is a class number: an integer from 0 up to
    [label_size - 1]. *)
Theorem root_prediction_is_class (c : Config A) (v : utils.Vocab) (p : Params A)
    (fd : FeedDict) :
  declared_shapes c v p → well_formed_feed p fd →
  (0 < length (is_leaf_placeholder fd))%nat →
  (0 < embed_size c)%nat → (0 < label_size c)%nat →
  ∃ k, graph.root_prediction p fd = Ok k ∧ 0 ≤ k < Z.of_nat (label_size c).
Proof.
  intros (_ & _ & [Hb1 _] & [HU HUw] & [Hbs Hbsw]) Hwf HN He Hc.
  destruct (bs p) as [|b [|]] eqn:Hb; try discriminate. apply Forall_inv in Hbsw.
  destruct (graph_outputs p fd b Hwf Hb1 Hb HN) as (rows & root & _ & _ & _ & _ & Hrl).
  unfold graph.root_prediction. rewrite Hrl. simpl.
  eexists. split; [done|].
  match goal with |- _ ≤ Z.of_nat (tf.argmax_row ?z) < _ =>
    assert (Hz : length z = label_size c) end.
  { rewrite length_zip_with, length_fmap, length_seq, Hbsw.
    destruct (U p) as [|u us]; simpl in *; [lia|]. apply Forall_inv in HUw. lia. }
  match goal with |- _ ≤ Z.of_nat (tf.argmax_row ?z) < _ =>
    pose proof (argmax_row_lt z) as Hlt end.
  rewrite Hz in Hlt. split; [lia|]. apply inj_lt, Hlt.
  intros Hnil. rewrite Hnil in Hz. simpl in Hz. lia.
Qed.

End projection.

Lemma root_logits_last_row_witness :
  well_formed_feed example.params example.fd_ab ∧
  ∃ lg z, graph.logits example.params example.fd_ab = Ok lg ∧
          graph.root_logits example.params example.fd_ab = Ok [z] ∧
          length lg = length (is_leaf_placeholder example.fd_ab) ∧ last lg = Some z.
Proof.
  split; [exact example_fd_ab_well_formed|].
  apply (root_logits_last_row example.params example.fd_ab example_fd_ab_well_formed);
    [reflexivity|reflexivity|simpl; lia].
Defined.

Lemma example_declared_shapes :
  declared_shapes example.config (vocab example.self) example.params.
Proof. repeat split; try (vm_compute; reflexivity); repeat constructor. Qed.

Lemma root_prediction_is_class_witness :
  declared_shapes example.config (vocab example.self) example.params ∧
  well_formed_feed example.params example.fd_ab ∧
  ∃ k, graph.root_prediction example.params example.fd_ab = Ok k ∧
       0 ≤ k < Z.of_nat (label_size example.config).
Proof.
  split; [exact example_declared_shapes|]. split; [exact example_fd_ab_well_formed|].
  apply (root_prediction_is_class example.config (vocab example.self) example.params
           example.fd_ab example_declared_shapes example_fd_ab_well_formed);
    simpl; lia.
Defined.

(** ** The confusion matrix *)

Section make_conf.
Context {A : Type} `{FloatOps A} `{Runtime A}.

Lemma make_conf_unfold (labels predictions : list Z) :
  make_conf labels predictions
  = foldM (λ confmat lp,
             if bool_decide (in_confmat lp) then
               Ok (alter (alter Z.succ (Z.to_nat (lp.2 `mod` 2)))
                         (Z.to_nat (lp.1 `mod` 2)) confmat)
             else Raise IndexError)
      [[0; 0]; [0; 0]] (zip labels predictions).
Proof.
  unfold make_conf. generalize [[0; 0]; [0; 0]]. generalize (zip labels predictions).
  intros xs. induction xs as [|[l q] xs IH]; intros acc; [done|].
  simpl. unfold in_confmat. simpl.
  destruct (bool_decide (-2 ≤ l < 2 ∧ -2 ≤ q < 2)); simpl; [apply IH|done].
Qed.

Lemma cell_alter (m : list (list Z)) (i' j' i j : nat) :
  (i' < length m)%nat → Forall (λ row, j' < length row)%nat m →
  cell (alter (alter Z.succ j') i' m) i j
  = cell m i j + (if bool_decide (i = i' ∧ j = j') then 1 else 0).
Proof.
  intros Hi Hrows. unfold cell. rewrite list_lookup_alter.
  destruct (decide (i' = i)) as [->|Hne].
  - destruct (lookup_lt_is_Some_2 m i Hi) as [row Hrow]. rewrite Hrow. simpl.
    rewrite list_lookup_alter. destruct (decide (j' = j)) as [->|Hnj].
    + rewrite Forall_forall in Hrows.
      destruct (lookup_lt_is_Some_2 row j) as [c Hc].
      { apply Hrows. by eapply list_elem_of_lookup_2. }
      rewrite Hc. simpl. rewrite bool_decide_eq_true_2 by done. lia.
    + rewrite bool_decide_eq_false_2 by (intros [_ ->]; done). lia.
  - rewrite bool_decide_eq_false_2 by (intros [-> _]; done). lia.
Qed.

Lemma make_conf_fold (xs : list (Z * Z)) :
  ∀ acc : list (list Z),
    length acc = 2%nat → Forall (λ row, length row = 2%nat) acc →
    (Forall in_confmat xs ∧
     ∃ m, foldM (λ confmat lp,
                   if bool_decide (in_confmat lp) then
                     Ok (alter (alter Z.succ (Z.to_nat (lp.2 `mod` 2)))
                               (Z.to_nat (lp.1 `mod` 2)) confmat)
                   else Raise IndexError) acc xs = Ok m ∧
          ∀ i j, cell m i j
                 = cell acc i j
                   + Z.of_nat (length (filter
                       (λ lp : Z * Z, Z.to_nat (lp.1 `mod` 2) = i ∧
                                      Z.to_nat (lp.2 `mod` 2) = j) xs))) ∨
    (¬ Forall in_confmat xs ∧
     foldM (λ confmat lp,
              if bool_decide (in_confmat lp) then
                Ok (alter (alter Z.succ (Z.to_nat (lp.2 `mod` 2)))
                          (Z.to_nat (lp.1 `mod` 2)) confmat)
              else Raise IndexError) acc xs = Raise IndexError).
Proof.
  induction xs as [|[l q] xs IH]; intros acc Hlen Hrows.
  - left. split; [constructor|]. exists acc. split; [done|]. intros i j. simpl. lia.
  - cbn [foldM]. case_bool_decide as Hlp; simpl.
    + assert (Hl : (Z.to_nat (l `mod` 2) < 2)%nat).
      { pose proof (Z.mod_pos_bound l 2). lia. }
      assert (Hq : (Z.to_nat (q `mod` 2) < 2)%nat).
      { pose proof (Z.mod_pos_bound q 2). lia. }
      destruct (IH (alter (alter Z.succ (Z.to_nat (q `mod` 2)))
                      (Z.to_nat (l `mod` 2)) acc))
        as [[Hall (m & Hm & Hcells)]|[Hnot Hm]].
      * by rewrite length_alter.
      * apply Forall_forall. intros row Hrow.
        apply list_elem_of_lookup in Hrow as [k Hk].
        rewrite list_lookup_alter in Hk. rewrite Forall_forall in Hrows.
        destruct (decide (Z.to_nat (l `mod` 2) = k)) as [<-|Hne].
        -- destruct (acc !! Z.to_nat (l `mod` 2)) as [row0|] eqn:Hrow0;
             simpl in Hk; [|discriminate].
           injection Hk as <-. rewrite length_alter. apply Hrows.
           by eapply list_elem_of_lookup_2.
        -- apply Hrows. by eapply list_elem_of_lookup_2.
      * left. split; [by constructor|]. exists m. split; [done|]. intros i j.
        rewrite Hcells, cell_alter.
        -- rewrite filter_cons. simpl.
           destruct (decide (Z.to_nat (l `mod` 2) = i ∧ Z.to_nat (q `mod` 2) = j))
             as [[<- <-]|Hd].
           ++ rewrite bool_decide_eq_true_2 by done. simpl. lia.
           ++ rewrite bool_decide_eq_false_2 by (intros [-> ->]; by apply Hd). lia.
        -- lia.
        -- apply Forall_forall. intros row Hrow. rewrite Forall_forall in Hrows.
           rewrite (Hrows row Hrow). lia.
      * right. split; [|done]. intros Hall. apply Hnot. by apply Forall_inv_tail in Hall.
    + right. split; [|done]. intros Hall. apply Forall_inv in Hall. done.
Qed.

(** X8.  [make_conf] returns when every label and every prediction it is
    given indexes the 2 by 2 array (a number from -2 to 1), and raises
    [IndexError] otherwise, a root labelled 2 included. *)
Theorem make_conf_IndexError (labels predictions : list Z) :
  (Forall in_confmat (zip labels predictions) ∧ is_Ok (make_conf labels predictions)) ∨
  (¬ Forall in_confmat (zip labels predictions) ∧
   make_conf labels predictions = Raise IndexError).
Proof.
  rewrite make_conf_unfold.
  destruct (make_conf_fold (zip labels predictions) [[0; 0]; [0; 0]])
    as [[Hall (m & Hm & _)]|[Hnot Hm]]; [done|by repeat constructor| |].
  - left. split; [done|]. by exists m.
  - by right.
Qed.

(** X9.  The array [make_conf] returns counts the pairs: entry [i, j] is the
    number of positions whose label is [i] and whose prediction is [j], an
    index of -1 or -2 counting as 1 or 0 as in an array index. *)
Theorem make_conf_counts (labels predictions : list Z) (confmat : list (list Z)) :
  make_conf labels predictions = Ok confmat →
  ∀ i j, cell confmat i j
         = Z.of_nat (length (filter
             (λ lp : Z * Z, Z.to_nat (lp.1 `mod` 2) = i ∧ Z.to_nat (lp.2 `mod` 2) = j)
             (zip labels predictions))).
Proof.
  rewrite make_conf_unfold. intros Hm i j.
  destruct (make_conf_fold (zip labels predictions) [[0; 0]; [0; 0]])
    as [[_ (m & Hm' & Hcells)]|[_ Hm']]; [done|by repeat constructor| |congruence].
  assert (m = confmat) as -> by congruence.
  rewrite Hcells. unfold cell. destruct i as [|[|i]], j as [|[|j]]; simpl; lia.
Qed.

End make_conf.

Lemma make_conf_counts_witness :
  make_conf [0; 1; 1; -1] [0; 1; 0; 1] = Ok [[1; 0]; [1; 2]] ∧
  cell [[1; 0]; [1; 2]] 1 1
  = Z.of_nat (length (filter
      (λ lp : Z * Z, Z.to_nat (lp.1 `mod` 2) = 1%nat ∧ Z.to_nat (lp.2 `mod` 2) = 1%nat)
      (zip [0; 1; 1; -1] [0; 1; 0; 1]))).
Proof.
  assert (H1 : make_conf [0; 1; 1; -1] [0; 1; 0; 1] = Ok [[1; 0]; [1; 2]])
    by (vm_compute; reflexivity).
  split; [exact H1|].
  exact (make_conf_counts [0; 1; 1; -1] [0; 1; 0; 1] [[1; 0]; [1; 2]] H1 1%nat 1%nat).
Defined.

(** ** [predict] and [run_epoch] *)

Section epochs.
Context {A : Type} `{FloatOps A} `{Runtime A}.
Implicit Types (self : RecursiveNetStaticGraph A) (w : World A) (v : TrainVars A).

Lemma predict_fold self (sess : Params A) (get_loss : bool) (trees : list tree.Tree) :
  ∀ rs ls rs' ls',
    foldM
      (λ '(results, losses) t,
         feed_dict ← build_feed_dict self (Some (tree.root t));
         if get_loss then
           root_prediction ← root_prediction self sess feed_dict;
           loss ← root_loss self sess feed_dict;
           Ok (results ++ [root_prediction], losses ++ [loss])
         else
           root_prediction ← root_prediction self sess feed_dict;
           Ok (results ++ [root_prediction], losses))
      (rs, ls) trees = Ok (rs', ls') →
    ∃ rs2 ls2,
      rs' = rs ++ rs2 ∧ ls' = ls ++ ls2 ∧
      Forall2 (λ t r, ∃ fd, build_feed_dict self (Some (tree.root t)) = Ok fd ∧
                            root_prediction self sess fd = Ok r) trees rs2 ∧
      if get_loss
      then Forall2 (λ t l, ∃ fd, build_feed_dict self (Some (tree.root t)) = Ok fd ∧
                                 root_loss self sess fd = Ok l) trees ls2
      else ls2 = [].
Proof.
  induction trees as [|t trees IH]; intros rs ls rs' ls' Hfold.
  - injection Hfold as <- <-. exists [], []. rewrite !app_nil_r.
    repeat split; [constructor|]. destruct get_loss; [constructor|done].
  - cbn [foldM] in Hfold. apply bind_Ok in Hfold as ([rs1 ls1] & Hstep & Hfold).
    apply bind_Ok in Hstep as (fd & Hfd & Hstep).
    destruct (IH _ _ _ _ Hfold) as (rs2 & ls2 & -> & -> & Hrs & Hls).
    destruct get_loss.
    + apply bind_Ok in Hstep as (r & Hr & Hstep).
      apply bind_Ok in Hstep as (l & Hl & Hstep). injection Hstep as <- <-.
      exists (r :: rs2), (l :: ls2). rewrite <- !app_assoc.
      repeat split; constructor; eauto.
    + apply bind_Ok in Hstep as (r & Hr & Hstep). injection Hstep as <- <-.
      exists (r :: rs2), []. rewrite <- !app_assoc, Hls, app_nil_r.
      repeat split; constructor; eauto.
Qed.

(** X10.  [predict] restores the checkpoint before it looks at the trees.
    When there is neither a file [weights_path.index] nor a file at
    [weights_path], [Saver.restore] raises [ValueError], whatever the trees,
    even none.  When [predict] returns, the checkpoint held an index and the
    values [sess] of the variables, and [predict] returns one prediction per
    tree, in the order of the trees, each the root prediction of the graph on
    [sess] and the feed of that tree; and one root loss per tree when
    [get_loss] is set, none otherwise. *)
Theorem predict_results self (trees : list tree.Tree) (weights_path : string)
    (get_loss : bool) w :
  (files w !! index_path weights_path = None → files w !! weights_path = None →
   predict self trees weights_path get_loss w = Raise ValueError) ∧
  (∀ results losses,
     predict self trees weights_path get_loss w = Ok (results, losses) →
     ∃ sess,
       files w !! index_path weights_path = Some Index ∧
       files w !! data_path weights_path = Some (Data sess) ∧
       Forall2 (λ t r, ∃ fd, build_feed_dict self (Some (tree.root t)) = Ok fd ∧
                             root_prediction self sess fd = Ok r) trees results ∧
       if get_loss
       then Forall2 (λ t l, ∃ fd, build_feed_dict self (Some (tree.root t)) = Ok fd ∧
                                  root_loss self sess fd = Ok l) trees losses
       else losses = []).
Proof.
  split.
  - intros Hi Hp. unfold predict, Saver_restore. by rewrite Hi, Hp.
  - intros results losses Hp. unfold predict in Hp.
    apply bind_Ok in Hp as (sess & Hrest & Hfold).
    apply Saver_restore_Ok in Hrest as [Hi Hd].
    exists sess. split; [done|]. split; [done|].
    destruct (predict_fold self sess get_loss trees [] [] results losses Hfold)
      as (rs2 & ls2 & -> & -> & Hrs & Hls).
    done.
Qed.

Lemma predict_length self (trees : list tree.Tree) (path : string) (g : bool) w
    (results : list Z) (losses : list A) :
  predict self trees path g w = Ok (results, losses) → length results = length trees.
Proof.
  unfold predict. intros Hp. apply bind_Ok in Hp as (sess & _ & Hfold).
  destruct (predict_fold self sess g trees [] [] results losses Hfold)
    as (rs2 & ls2 & -> & _ & Hrs & _).
  symmetry. by eapply Forall2_length.
Qed.

Lemma make_conf_Ok_inv (labels predictions : list Z) :
  is_Ok (make_conf labels predictions) → Forall in_confmat (zip labels predictions).
Proof.
  rewrite make_conf_unfold. intros [m Hm].
  destruct (make_conf_fold (zip labels predictions) [[0; 0]; [0; 0]])
    as [[Hall _]|[_ Hm']]; [done|by repeat constructor|done|congruence].
Qed.

Lemma root_labels_in_range (trees : list tree.Tree) (preds : list Z) :
  length preds = length trees →
  Forall in_confmat (zip ((λ t, tree.label (tree.root t)) <$> trees) preds) →
  Forall (λ t, -2 ≤ tree.label (tree.root t) < 2) trees.
Proof.
  revert preds. induction trees as [|t trees IH]; intros preds Hlen Hall; [constructor|].
  destruct preds as [|q preds]; [discriminate|]. simpl in *.
  apply Forall_cons in Hall as [[Ht _] Hall]. constructor; [exact Ht|].
  apply (IH preds); [lia|done].
Qed.

Lemma train_fold_length self (ts : list tree.Tree) :
  ∀ (lh : list A) (sess : Params A) lh' sess',
    foldM
      (λ '(loss_history, sess) t,
         feed_dict ← build_feed_dict self (Some (tree.root t));
         loss_value ← full_loss self sess feed_dict;
         sess' ← train_op self sess feed_dict;
         Ok (loss_history ++ [loss_value], sess'))
      (lh, sess) ts = Ok (lh', sess') →
    length lh' = (length lh + length ts)%nat.
Proof.
  induction ts as [|t ts IH]; intros lh sess lh' sess' Hfold.
  - injection Hfold as <- <-. simpl. lia.
  - cbn [foldM] in Hfold. apply bind_Ok in Hfold as ([lh1 sess1] & Hstep & Hfold).
    apply bind_Ok in Hstep as (fd & _ & Hstep).
    apply bind_Ok in Hstep as (l & _ & Hstep).
    apply bind_Ok in Hstep as (s' & _ & Hstep). injection Hstep as <- <-.
    rewrite (IH _ _ _ _ Hfold), length_app. simpl. lia.
Qed.

(** What a successful [run_epoch] did, step by step. *)
Lemma run_epoch_inv self (new_model : bool) w r self' w' :
  run_epoch self new_model w = Ok (r, self', w') →
  let self1 := set_train_data self (random_shuffle (clock w) (train_data self)) in
  ∃ sess tp tl vp vl,
    self' = self1 ∧
    clock w' = (clock w + (if new_model then 2 else 1))%nat ∧
    files w' = files (Saver_save w (temp_path self) sess) ∧
    (new_model = false → is_Ok (Saver_restore w (temp_path self))) ∧
    length (r_loss_history r) = length (train_data self1) ∧
    predict self1 (train_data self1) (temp_path self) false w' = Ok (tp, tl) ∧
    predict self1 (dev_data self) (temp_path self) true w' = Ok (vp, vl) ∧
    r_val_loss r = np_mean vl ∧
    is_Ok (make_conf ((λ t, tree.label (tree.root t)) <$> train_data self1) tp) ∧
    is_Ok (make_conf ((λ t, tree.label (tree.root t)) <$> dev_data self) vp).
Proof.
  unfold run_epoch. intros Hrun. simpl.
  apply bind_Ok in Hrun as ([sess0 w0] & Hinit & Hrun).
  apply bind_Ok in Hrun as ([lh sess] & Hfold & Hrun).
  apply bind_Ok in Hrun as ([tp tl] & Htp & Hrun).
  apply bind_Ok in Hrun as ([vp vl] & Hvp & Hrun).
  apply bind_Ok in Hrun as (c1 & Hc1 & Hrun).
  apply bind_Ok in Hrun as (c2 & Hc2 & Hrun).
  injection Hrun as <- <- <-. simpl.
  apply train_fold_length in Hfold. simpl in Hfold.
  exists sess, tp, tl, vp, vl.
  assert (Hw0 : clock w0 = (clock w + (if new_model then 2 else 1))%nat ∧
                files w0 = files w ∧
                (new_model = false → is_Ok (Saver_restore w (temp_path self)))).
  { destruct new_model.
    - injection Hinit as <- <-. simpl. split; [lia|]. split; [done|]. discriminate.
    - apply bind_Ok in Hinit as (s0 & Hs0 & Hinit). injection Hinit as <- <-. simpl.
      split; [lia|]. split; [done|]. intros _. exists s0. exact Hs0. }
  destruct Hw0 as (Hclock & Hfiles & Hold).
  split; [done|]. split; [done|].
  split; [unfold Saver_save; simpl; by rewrite Hfiles|].
  split; [done|]. split; [done|]. split; [done|]. split; [done|]. split; [done|].
  split; by eexists.
Qed.

End epochs.

Section epoch_effects.
Context {A : Type} `{FloatOps A} `{Runtime A}.
Implicit Types (self : RecursiveNetStaticGraph A) (w : World A) (v : TrainVars A).


(** X12.  [run_epoch] returns only when the root label of every training and
    validation tree is a number from -2 to 1: any other root label, the
    marker 2 included, stops it in [make_conf].  The labels inside the trees
    are not constrained. *)
Theorem run_epoch_root_labels self (new_model : bool) w r self' w' :
  run_epoch self new_model w = Ok (r, self', w') →
  Forall (λ t, -2 ≤ tree.label (tree.root t) < 2) (train_data self') ∧
  Forall (λ t, -2 ≤ tree.label (tree.root t) < 2) (dev_data self').
Proof.
  intros Hrun. apply run_epoch_inv in Hrun
    as (sess & tp & tl & vp & vl & -> & _ & _ & _ & _ & Htp & Hvp & _ & Hc1 & Hc2).
  apply predict_length in Htp, Hvp. apply make_conf_Ok_inv in Hc1, Hc2.
  split; by eapply root_labels_in_range.
Qed.

End epoch_effects.


Lemma run_epoch_root_labels_witness :
  run_epoch example.self true example.world
  = Ok (from_result (mkEpochResult 0%float 0%float [] 0%float, example.self, example.world)
          (run_epoch example.self true example.world)) ∧
  Forall (λ t, -2 ≤ tree.label (tree.root t) < 2)
    (dev_data (from_result
                 (mkEpochResult 0%float 0%float [] 0%float, example.self, example.world)
                 (run_epoch example.self true example.world)).1.2).
Proof.
  assert (H1 : run_epoch example.self true example.world
               = Ok (from_result
                       (mkEpochResult 0%float 0%float [] 0%float, example.self, example.world)
                       (run_epoch example.self true example.world))).
  { apply is_Ok_b_from_result. vm_compute. reflexivity. }
  split; [exact H1|].
  destruct (from_result _ _) as [[r s] w] in H1 |- *.
  exact (proj2 (run_epoch_root_labels example.self true example.world r s w H1)).
Defined.

(** ** [train]: checkpoints, the flag, the learning rate *)

Section checkpoints.
Context {A : Type} `{FloatOps A} `{Runtime A}.
Implicit Types (self : RecursiveNetStaticGraph A) (w : World A) (v : TrainVars A).

(** The files after an iteration of [train]: those of the epoch, and the
    copy when the validation loss is below the best one. *)
Lemma train_body_world self w v (epoch : nat) self' w' v' :
  train_body (self, w, v) epoch = Ok (self', w', v') →
  ∃ r self1 w1 sess,
    run_epoch self (bool_decide (epoch = 0%nat)) w = Ok (r, self1, w1) ∧
    files w1 = files (Saver_save w (temp_path self) sess) ∧
    if f_lt (r_val_loss r) (best_val_loss v)
    then ∃ content, files w !! temp_path self = Some content ∧
                    files w' = <[best_path self := content]> (files w1)
    else w' = w1.
Proof.
  intros Hbody.
  destruct (train_body_Ok _ _ _ _ _ _ _ Hbody) as (r & self1 & w1 & Hrun & _).
  destruct (run_epoch_Ok _ _ _ _ _ _ Hrun) as [_ [sess Hfiles]].
  exists r, self1, w1, sess. split; [done|]. split; [done|].
  pose proof (train_body_files self w v epoch r self1 w1 Hrun) as Hf.
  destruct (f_lt (r_val_loss r) (best_val_loss v)).
  - destruct (files w !! temp_path self) as [content|]; [|congruence].
    destruct Hf as (s' & u' & Hf). rewrite Hf in Hbody. injection Hbody as _ <- _.
    by exists content.
  - destruct Hf as (s' & u' & Hf). rewrite Hf in Hbody. by injection Hbody as _ <- _.
Qed.

(** After an iteration of [train] the temporary checkpoint can be restored. *)
Lemma train_body_temp self w v (epoch : nat) self' w' v' :
  train_body (self, w, v) epoch = Ok (self', w', v') →
  is_Ok (Saver_restore w' (temp_path self)).
Proof.
  intros Hbody.
  destruct (train_body_world _ _ _ _ _ _ _ Hbody)
    as (r & self1 & w1 & sess & _ & Hfiles & Hcopy).
  exists sess. apply Saver_restore_Ok.
  destruct (best_path_ne_temp_files self) as [Hi Hd].
  destruct (f_lt (r_val_loss r) (best_val_loss v)).
  - destruct Hcopy as (content & _ & ->).
    rewrite !lookup_insert_ne, Hfiles by done.
    by rewrite Saver_save_index, Saver_save_data.
  - subst w'. by rewrite Hfiles, Saver_save_index, Saver_save_data.
Qed.

(** X13.  [run_epoch] writes no file at the prefix of the temporary
    checkpoint, and that prefix is what an iteration of [train] copies to
    the best path when the validation loss of the epoch is below the best
    one so far.  Without a file at the prefix from before the epoch the
    iteration raises [FileNotFoundError]; with one, the iteration returns,
    the best path receives that file, not the checkpoint the epoch has just
    saved, and the epoch becomes the best one.  When the validation loss is
    not below the best one the iteration returns with the files of the epoch
    and the best loss and the best epoch as they were. *)
Theorem copy_on_improvement self w v (epoch : nat) r self1 w1 :
  run_epoch self (bool_decide (epoch = 0%nat)) w = Ok (r, self1, w1) →
  files w1 !! temp_path self = files w !! temp_path self ∧
  if f_lt (r_val_loss r) (best_val_loss v)
  then match files w !! temp_path self with
       | None => train_body (self, w, v) epoch = Raise FileNotFoundError
       | Some content =>
           ∃ self' w' v',
             train_body (self, w, v) epoch = Ok (self', w', v') ∧
             files w' = <[best_path self := content]> (files w1) ∧
             best_val_loss v' = r_val_loss r ∧ best_val_epoch v' = epoch
       end
  else ∃ self' v',
         train_body (self, w, v) epoch = Ok (self', w1, v') ∧
         best_val_loss v' = best_val_loss v ∧ best_val_epoch v' = best_val_epoch v.
Proof.
  intros Hrun. split; [by eapply run_epoch_temp_path|].
  pose proof (train_body_files self w v epoch r self1 w1 Hrun) as Hf.
  destruct (f_lt (r_val_loss r) (best_val_loss v)) eqn:Hlt.
  - destruct (files w !! temp_path self) as [content|]; [|done].
    destruct Hf as (self' & v' & Hbody).
    eexists self', _, v'. split; [exact Hbody|]. split; [done|].
    apply train_body_Ok in Hbody
      as (r' & s' & w'' & Hrun' & _ & _ & _ & _ & _ & _ & Hbl & Hbe & _).
    rewrite Hrun in Hrun'. injection Hrun' as <- _ _.
    rewrite Hlt in Hbl, Hbe. done.
  - destruct Hf as (self' & v' & Hbody).
    exists self', v'. split; [exact Hbody|].
    apply train_body_Ok in Hbody
      as (r' & s' & w'' & Hrun' & _ & _ & _ & _ & _ & _ & Hbl & Hbe & _).
    rewrite Hrun in Hrun'. injection Hrun' as <- _ _.
    rewrite Hlt in Hbl, Hbe. done.
Qed.

(** After any number of iterations [self] is what it was, up to the order of
    the training trees and the learning rate of the configuration, and the
    learning rate is the first one divided by [anneal_by] some number of
    times. *)
Lemma train_loop_self self w (n : nat) st :
  train_loop self w n = Ok st →
  ∃ (k : nat) d,
    (k ≤ n)%nat ∧
    st.1.1 = set_train_data
               (set_config self
                  (set_lr (config self)
                     (Nat.iter k (λ y, f_div y (anneal_by (config self))) (lr (config self)))))
               d.
Proof.
  revert st. induction n as [|n IH]; intros st Hloop.
  - injection Hloop as <-. exists 0%nat, (train_data self). split; [done|]. simpl.
    by destruct self as [[] ? ? ? ? ? ? ? ?].
  - rewrite train_loop_S in Hloop. apply bind_Ok in Hloop as (st' & Hst' & Hbody).
    destruct (IH st' Hst') as (k & d & Hk & Hself).
    destruct st' as [[self1 w1] v1], st as [[self2 w2] v2]. simpl in *.
    apply train_body_Ok in Hbody as (r & s1 & w3 & _ & -> & -> & _).
    subst self1. simpl.
    destruct (f_lt (f_mul _ _) _).
    + exists (S k), (random_shuffle (clock w1) d). split; [lia|]. done.
    + exists k, (random_shuffle (clock w1) d). split; [lia|]. done.
Qed.

(** X14.  Training only ever divides the learning rate of the configuration:
    after [n] iterations it is the learning rate of the start divided by
    [anneal_by] [k] times, for some [k] up to [n], and nothing else of the
    configuration, of the vocabulary, of the validation and test trees or of
    the graph has changed. *)
Theorem train_only_divides_lr self w (n : nat) st :
  train_loop self w n = Ok st →
  (∃ k : nat, (k ≤ n)%nat ∧
     config st.1.1
     = set_lr (config self)
         (Nat.iter k (λ y, f_div y (anneal_by (config self))) (lr (config self)))) ∧
  vocab st.1.1 = vocab self ∧ dev_data st.1.1 = dev_data self ∧
  test_data st.1.1 = test_data self ∧
  root_prediction st.1.1 = root_prediction self ∧
  full_loss st.1.1 = full_loss self ∧ root_loss st.1.1 = root_loss self.
Proof.
  intros Hloop. destruct (train_loop_self self w n st Hloop) as (k & d & Hk & ->).
  split; [by exists k|done].
Qed.

(** X15.  After [n] iterations the best epoch is one of the epochs run, and
    [stopped] is either still -1 or the number of an epoch run that comes
    more than [early_stopping] epochs after epoch 0: with the class value 2
    the flag is never set during the first three epochs. *)
Theorem stopped_range self w (n : nat) st :
  train_loop self w n = Ok st →
  (best_val_epoch st.2 ≤ pred n)%nat ∧
  (stopped st.2 = -1 ∨
   early_stopping (config self) < stopped st.2 < Z.of_nat n).
Proof.
  revert st. induction n as [|n IH]; intros st Hloop.
  - injection Hloop as <-. simpl. split; [done|by left].
  - rewrite train_loop_S in Hloop. apply bind_Ok in Hloop as (st' & Hst' & Hbody).
    destruct (IH st' Hst') as [Hbest Hstop].
    destruct (train_loop_self self w n st' Hst') as (k & d & _ & Hself).
    destruct st' as [[self1 w1] v1], st as [[self2 w2] v2]. simpl in *.
    apply train_body_Ok in Hbody
      as (r & s1 & w3 & _ & _ & _ & _ & _ & _ & _ & _ & Hbe & Hst).
    assert (Hes : early_stopping (config self1) = early_stopping (config self))
      by (by subst self1).
    rewrite Hes in Hst.
    assert (Hbest' : (best_val_epoch v2 ≤ n)%nat).
    { rewrite Hbe. destruct (f_lt _ _); lia. }
    split; [done|]. rewrite Hst. case_bool_decide as Hd.
    + right. lia.
    + destruct Hstop as [->|Hstop]; [by left|right; lia].
Qed.

(** X16.  When [random.shuffle] keeps the number of trees, [n] iterations
    leave [n] times as many entries in the loss history as there are
    training trees, keep the number of training trees, and, from the first
    iteration on, leave the temporary checkpoint in place: a [predict] on it
    after [train] does not fail for want of the checkpoint. *)
Theorem train_loss_history self w (n : nat) st :
  (∀ k (ts : list tree.Tree), length (random_shuffle k ts) = length ts) →
  train_loop self w n = Ok st →
  length (complete_loss_history st.2) = (n * length (train_data self))%nat ∧
  length (train_data st.1.1) = length (train_data self) ∧
  ((0 < n)%nat → is_Ok (Saver_restore st.1.2 (temp_path self))).
Proof.
  intros Hshuffle. revert st. induction n as [|n IH]; intros st Hloop.
  - injection Hloop as <-. simpl. split; [done|]. split; [done|lia].
  - rewrite train_loop_S in Hloop. apply bind_Ok in Hloop as (st' & Hst' & Hbody).
    destruct (IH st' Hst') as (Hhist & Hdata & _).
    destruct (train_loop_self self w n st' Hst') as (k & d & _ & Hself).
    destruct st' as [[self1 w1] v1], st as [[self2 w2] v2]. simpl in *.
    pose proof (train_body_temp self1 w1 v1 n self2 w2 v2 Hbody) as Htemp.
    apply train_body_Ok in Hbody as (r & s1 & w3 & Hrun & -> & -> & Hcl & _).
    apply run_epoch_inv in Hrun as (_ & _ & _ & _ & _ & _ & _ & _ & _ & Hlen & _).
    simpl in Hlen. split; [|split].
    + rewrite Hcl, length_app, Hhist, Hlen, Hshuffle, Hdata. lia.
    + destruct (f_lt (f_mul _ _) _); simpl; by rewrite Hshuffle.
    + intros _. by replace (temp_path self) with (temp_path self1) by (by subst self1).
Qed.

End checkpoints.

Section validation.
Context {A : Type} `{FloatOps A} `{Runtime A}.
Implicit Types (self : RecursiveNetStaticGraph A) (w : World A) (v : TrainVars A).


End validation.

Section best_checkpoint.
Context {A : Type} `{FloatOps A} `{Runtime A}.
Implicit Types (self : RecursiveNetStaticGraph A) (w : World A) (v : TrainVars A).

(** X18.  The checkpoint paths do not follow the learning rate: after any
    number of iterations, annealed or not, the model saves to and copies
    from the paths of the start.  [train] never writes a file at the prefix
    of the temporary checkpoint, the path it copies from.  So when no file
    is there at the start, a run that returns has never had a validation
    loss below the best one: the best loss and the best epoch are still
    infinity and 0, and the best path holds what it held at the start (for a
    model whose best path is not the state file of the directory). *)
Theorem no_best_checkpoint self w (n : nat) st :
  train_loop self w n = Ok st →
  temp_path st.1.1 = temp_path self ∧ best_path st.1.1 = best_path self ∧
  files st.1.2 !! temp_path self = files w !! temp_path self ∧
  (files w !! temp_path self = None →
   best_val_loss st.2 = f_inf ∧ best_val_epoch st.2 = 0%nat ∧
   (best_path self ≠ checkpoint_state_path (temp_path self) →
    files st.1.2 !! best_path self = files w !! best_path self)).
Proof.
  intros Hloop.
  destruct (train_loop_self self w n st Hloop) as (k & d & _ & Hself).
  split; [by rewrite Hself|]. split; [by rewrite Hself|]. clear k d Hself.
  revert st Hloop. induction n as [|n IH]; intros st Hloop.
  - injection Hloop as <-. done.
  - rewrite train_loop_S in Hloop. apply bind_Ok in Hloop as (st' & Hst' & Hbody).
    destruct (IH st' Hst') as [IHt IHn].
    destruct (train_loop_self self w n st' Hst') as (k & d & _ & Hself).
    destruct st' as [[self1 w1] v1], st as [[self2 w2] v2]. simpl in *.
    assert (Ht : temp_path self1 = temp_path self) by (by subst self1).
    assert (Hb : best_path self1 = best_path self) by (by subst self1).
    clear Hself.
    pose proof (train_body_Ok _ _ _ _ _ _ _ Hbody)
      as (r' & s' & w' & Hrun' & _ & _ & _ & _ & _ & _ & Hbl & Hbe & _).
    destruct (train_body_world _ _ _ _ _ _ _ Hbody)
      as (r & s1 & w3 & sess & Hrun & Hfiles & Hcopy).
    rewrite Hrun in Hrun'. injection Hrun' as <- _ _.
    rewrite Ht, Hb in *.
    assert (Htemp3 : files w3 !! temp_path self = files w1 !! temp_path self).
    { rewrite Hfiles. apply Saver_save_other.
      rewrite <- Ht. apply temp_path_not_checkpoint_file. }
    destruct (f_lt (r_val_loss r) (best_val_loss v1)).
    + destruct Hcopy as (content & Hcontent & Hw2). split.
      * rewrite Hw2, lookup_insert_ne by (symmetry; apply temp_path_ne_best_path).
        by rewrite Htemp3.
      * intros Hnone. rewrite IHt, Hnone in Hcontent. discriminate.
    + subst w3. split; [by rewrite Htemp3|].
      intros Hnone. destruct (IHn Hnone) as (IHl & IHe & IHb).
      split; [by rewrite Hbl|]. split; [by rewrite Hbe|].
      intros Hstate. rewrite <- (IHb Hstate), Hfiles.
      apply Saver_save_other. rewrite <- Ht, <- Hb.
      apply best_path_not_checkpoint_file. by rewrite Ht, Hb.
Qed.

End best_checkpoint.

(** ** The example runs, again *)

Lemma triple_eta {X Y Z'} (t : X * Y * Z') : t = (t.1.1, t.1.2, t.2).
Proof. by destruct t as [[? ?] ?]. Qed.

Lemma example_epoch0 :
  run_epoch example.self (bool_decide (0 = 0)%nat) example.world
  = Ok (example.epoch0.1.1, example.epoch0.1.2, example.epoch0.2).
Proof.
  rewrite <- triple_eta. apply is_Ok_b_from_result. vm_compute. reflexivity.
Qed.

Lemma example_train_loop_2 :
  train_loop example.self_nodev example.world 2 = Ok example.after2.
Proof. apply is_Ok_b_from_result. vm_compute. reflexivity. Qed.

(** The first epoch of [train] on [self], whose validation loss is below
    infinity, in a directory with no file at the prefix. *)
Lemma copy_on_improvement_witness :
  run_epoch example.self (bool_decide (0 = 0)%nat) example.world
  = Ok (example.epoch0.1.1, example.epoch0.1.2, example.epoch0.2) ∧
  train_body (example.self, example.world, train_init) 0 = Raise FileNotFoundError.
Proof.
  split; [exact example_epoch0|].
  pose proof (proj2 (copy_on_improvement example.self example.world train_init 0
                       example.epoch0.1.1 example.epoch0.1.2 example.epoch0.2
                       example_epoch0)) as Hcopy.
  assert (Hlt : f_lt (r_val_loss example.epoch0.1.1) (best_val_loss train_init) = true)
    by (vm_compute; reflexivity).
  assert (Hnone : files example.world !! temp_path example.self = None)
    by (vm_compute; reflexivity).
  rewrite Hlt, Hnone in Hcopy. exact Hcopy.
Defined.

Lemma train_only_divides_lr_witness :
  train_loop example.self_nodev example.world 2 = Ok example.after2 ∧
  ∃ k : nat, (k ≤ 2)%nat ∧
    config example.after2.1.1
    = set_lr (config example.self_nodev)
        (Nat.iter k (λ y, f_div y (anneal_by (config example.self_nodev)))
           (lr (config example.self_nodev))).
Proof.
  split; [exact example_train_loop_2|].
  exact (proj1 (train_only_divides_lr example.self_nodev example.world 2 example.after2
                  example_train_loop_2)).
Defined.

Lemma stopped_range_witness :
  train_loop example.self_nodev example.world 2 = Ok example.after2 ∧
  (best_val_epoch example.after2.2 ≤ 1)%nat ∧
  (stopped example.after2.2 = -1 ∨
   early_stopping (config example.self_nodev) < stopped example.after2.2 < 2).
Proof.
  split; [exact example_train_loop_2|].
  exact (stopped_range example.self_nodev example.world 2 example.after2
           example_train_loop_2).
Defined.

Lemma train_loss_history_witness :
  (∀ k (ts : list tree.Tree), length (random_shuffle k ts) = length ts) ∧
  train_loop example.self_nodev example.world 2 = Ok example.after2 ∧
  length (complete_loss_history example.after2.2)
  = (2 * length (train_data example.self_nodev))%nat ∧
  is_Ok (Saver_restore example.after2.1.2 (temp_path example.self_nodev)).
Proof.
  assert (Hs : ∀ k (ts : list tree.Tree), length (random_shuffle k ts) = length ts).
  { intros k ts. simpl. apply length_reverse. }
  split; [exact Hs|]. split; [exact example_train_loop_2|].
  destruct (train_loss_history example.self_nodev example.world 2 example.after2 Hs
              example_train_loop_2) as (Hlen & _ & Hrestore).
  split; [exact Hlen|]. apply Hrestore. lia.
Defined.


Lemma no_best_checkpoint_witness :
  train_loop example.self_nodev example.world 2 = Ok example.after2 ∧
  files example.after2.1.2 !! temp_path example.self_nodev = None ∧
  best_val_loss example.after2.2 = f_inf ∧
  files example.after2.1.2 !! best_path example.self_nodev = None.
Proof.
  split; [exact example_train_loop_2|].
  destruct (no_best_checkpoint example.self_nodev example.world 2 example.after2
              example_train_loop_2) as (_ & _ & Htemp & Hnone).
  destruct (Hnone eq_refl) as (Hbl & _ & Hbest).
  split; [exact Htemp|]. split; [exact Hbl|].
  apply Hbest. vm_compute. discriminate.
Defined.
